(** * qk: the concurrent command runner, embedded from the Go sources

    The development follows the repository file by file:

    - [exec]      what the code relies on from Go's [syscall] and [os/exec]
                  (wait statuses, the error returned by [Wait]);
    - [utils]     src/utils/helpers.go: [All], [Some], [IsProject] and
                  [GetAllProjects] with its depth bound, over a directory
                  tree;
    - [utils0]    the earlier two-argument [GetAllProjects]
                  (src/unnamed/part_009) that both [CreateCommandRunner]
                  functions under src/ still call;
    - the run registry shared by both versions of views/commandRunner.go:
      commands live in a store and projects hold pointers into it, as the
      Go code holds [*Command] values;
    - [views]     src/views/commandRunner.go;
    - [views2]    the later commandRunner.go (src/unnamed/part_008), with
                  per-project units, optional commands and live output;
    - [runner]    [runCommand]: spawning, the wiring of the child's output
                  streams, and the supervision protocol (the buffered
                  [waitChan], the canceller goroutine, the goroutine of
                  os/exec that watches the context) as a labelled
                  transition system;
    - [os], [helpers]  the file tests of src/utils/helpers.go ([FileExists],
                  [HasYarn], [HasScript]) over what [os.Stat], [os.ReadFile]
                  and [json.Unmarshal] answer;
    - [cmd]       the sub-commands (src/cmd, src/unnamed/part_000 ..
                  part_006): what each registers before it runs;
    - [render]    [Output] and [View] of the later commandRunner.go, as the
                  strings they build.

    Not modelled: the lipgloss styles and the spinner, stopwatch and help
    widgets, which [render] takes as given strings, and wall-clock time. *)

From Stdlib Require Import ZArith Lia List Bool String Ascii Permutation.
From stdpp Require Import base option list strings gmap pretty.

Import ListNotations.
Local Open Scope string_scope.
Local Open Scope list_scope.
Local Set Warnings "-register-all".

(** ** Go library facts the runner depends on *)

Module exec.

(** [syscall.WaitStatus] on Linux is a [uint32]; the low seven bits hold the
    terminating signal, [0x7F] there marks a stopped process, and the exit
    code sits in bits 8..15. *)
Definition WaitStatus := Z.

Definition mask : Z := 0x7F.
Definition stopped : Z := 0x7F.
Definition exited : Z := 0x00.
Definition shift : Z := 8.

Definition Exited (w : WaitStatus) : bool :=
  (Z.land w mask =? exited)%Z.

Definition Signaled (w : WaitStatus) : bool :=
  negb (Z.land w mask =? stopped)%Z && negb (Z.land w mask =? exited)%Z.

Definition Signal (w : WaitStatus) : Z :=
  if Signaled w then Z.land w mask else (-1)%Z.

Definition ExitStatus (w : WaitStatus) : Z :=
  if Exited w then Z.land (Z.shiftr w shift) 0xFF else (-1)%Z.

Definition SIGKILL : Z := 9.
Definition SIGSEGV : Z := 11.
Definition SIGTERM : Z := 15.

(** The wait status of a process that called [exit(code)], and of one that
    was terminated by signal [sig]. *)
Definition exit_status (code : Z) : WaitStatus := Z.shiftl (Z.land code 0xFF) shift.
Definition signal_status (sig : Z) : WaitStatus := Z.land sig mask.

(** Go's [error] values as far as the runner tells them apart.  A nil
    [error] is [None : option error].

    [ExitError sys state]: an [*exec.ExitError]; [sys] is the result of the
    type assertion [exitErr.Sys().(syscall.WaitStatus)] ([None] when the
    assertion fails), [state] is [ProcessState.ExitCode()] when
    [ProcessState] is not nil. *)
Inductive error : Type :=
  | ExitError (sys : option WaitStatus) (state : option Z)
  | Canceled
  | ErrOther (msg : string).

(** [errors.As(err, &exitErr)] *)
Definition As_ExitError (err : error) : option (option WaitStatus * option Z) :=
  match err with
  | ExitError sys state => Some (sys, state)
  | _ => None
  end.

(** [Cmd.Wait] on a process reaped with wait status [w]: nil on success,
    otherwise an [*ExitError] carrying the process state. *)
Definition Wait (w : WaitStatus) : option error :=
  if Exited w && (ExitStatus w =? 0)%Z then None
  else Some (ExitError (Some w) (Some (ExitStatus w))).

(** [Cmd.Wait] of a command made by [exec.CommandContext] (os/exec of Go
    1.20 and later; the sources import [slices], so Go 1.21 at least).
    After [c.Process.Wait()] it receives the result of the goroutine that
    watches the context:
    [if err == nil && watch.err != nil { err = watch.err }].
    The process's own error wins; a process that exited with status 0 is
    reported with the watcher's error, if it has one. *)
Definition WaitContext (w : WaitStatus) (watchErr : option error)
    : option error :=
  match Wait w with
  | Some err => Some err
  | None => watchErr
  end.

End exec.

(** ** The file system seen by project discovery

    A directory tree: [os.ReadDir] lists a directory's entries (it fails on
    an unreadable directory and on a plain file), [os.Stat] of a path below
    a directory succeeds exactly when an entry of that name exists. *)

Inductive fsnode : Type :=
  | FsFile (name : string)
  | FsDir (name : string) (readable : bool) (entries : list fsnode).

Definition node_name (n : fsnode) : string :=
  match n with
  | FsFile name => name
  | FsDir name _ _ => name
  end.

(** [path.Join(dir, name)] for a cleaned [dir] and a single element [name]. *)
Definition path_Join (dir name : string) : string :=
  if String.eqb dir "" then name
  else if String.eqb dir "/" then "/" +:+ name
  else dir +:+ "/" +:+ name.

(** [path.Base]: the last element of the path, trailing slashes removed. *)
Fixpoint strip_slashes (rev_path : list ascii) : list ascii :=
  match rev_path with
  | c :: rest => if Ascii.eqb c "/" then strip_slashes rest else rev_path
  | [] => []
  end.

Fixpoint last_element (rev_path : list ascii) : list ascii :=
  match rev_path with
  | c :: rest => if Ascii.eqb c "/" then [] else c :: last_element rest
  | [] => []
  end.

Definition path_Base (p : string) : string :=
  if String.eqb p "" then "."
  else
    match strip_slashes (rev (list_ascii_of_string p)) with
    | [] => "/"
    | r => string_of_list_ascii (rev (last_element r))
    end.

(** ** src/utils/helpers.go *)

Module utils.

Record File : Type := mkFile { Name : string; Dir : string }.

(** [FileExists(path.Join(dir, name))] for a directory with the given
    entries; the error result is dropped by every caller. *)
Definition FileExists (entries : list fsnode) (name : string) : bool :=
  existsb (λ e, String.eqb (node_name e) name) entries.

Definition BLACKLIST : list string := ["node_modules"; ".git"; ".idea"; "vendor"].

(** [slices.Contains] *)
Definition Contains (l : list string) (s : string) : bool :=
  existsb (String.eqb s) l.

Definition IsProject (dir : fsnode) : bool :=
  match dir with
  | FsFile _ => false
  | FsDir _ _ entries =>
      let hasComposer := FileExists entries "composer.json" in
      let hasPackage := FileExists entries "package.json" in
      hasComposer && hasPackage
  end.

(** The body of the [for _, file := range files] loop of
    [GetAllProjects(dir, depth, level)], with the recursive call as [rec].
    The first component of the result logs every recursive call (name and
    path of the directory descended into); the second is the slice built
    so far, or [None] once a recursive call has ended the program. *)
Definition scanDir (rec : fsnode → string → Z → Z → list File * option (list File))
    (dir : string) (depth level : Z)
    : list fsnode → list File → list File * option (list File) :=
  fix loop (files : list fsnode) (projects : list File) :=
    match files with
    | [] => ([], Some projects)
    | file :: rest =>
        match file with
        | FsFile _ => loop rest projects
        | FsDir name _ _ =>
            let projectDir := path_Join dir name in
            if negb (IsProject file)
               && ((depth =? -1)%Z || (level <=? depth)%Z) then
              if negb (Contains BLACKLIST name) then
                let '(log1, sub) := rec file projectDir depth (level + 1)%Z in
                match sub with
                | None => (mkFile name projectDir :: log1, None)
                | Some found =>
                    let '(log2, r) := loop rest (projects ++ found) in
                    (mkFile name projectDir :: log1 ++ log2, r)
                end
              else loop rest projects
            else if negb (depth =? -1)%Z && (level >=? depth)%Z then
              loop rest projects
            else loop rest (projects ++ [mkFile name projectDir])
        end
    end.

(** [GetAllProjects(dir, depth, level)].  [node] is the tree found at path
    [dir]; the result is [None] when [os.ReadDir] fails and [log.Fatal]
    ends the program. *)
Fixpoint GetAllProjects (node : fsnode) (dir : string) (depth level : Z)
    {struct node} : list File * option (list File) :=
  match node with
  | FsDir _ true files =>
      let projects :=
        if IsProject node then [mkFile (path_Base dir) dir] else [] in
      scanDir GetAllProjects dir depth level files projects
  | _ => ([], None)
  end.

Fixpoint All {T : Type} (ts : list T) (pred : T → bool) : bool :=
  match ts with
  | [] => true
  | t :: ts' => if negb (pred t) then false else All ts' pred
  end.

(** [utils.Some]; the trailing underscore keeps [option]'s constructor
    usable. *)
Fixpoint Some_ {T : Type} (ts : list T) (pred : T → bool) : bool :=
  match ts with
  | [] => false
  | t :: ts' => if pred t then true else Some_ ts' pred
  end.

Definition Not {T : Type} (pred : T → bool) : T → bool :=
  λ thing, negb (pred thing).

Definition And {T : Type} (preds : list (T → bool)) : T → bool :=
  λ thing, All preds (λ pred, pred thing).

End utils.

(** ** The earlier [GetAllProjects(dir, level)] (src/unnamed/part_009),
    the one [CreateCommandRunner] calls with [level = 0]. *)

Module utils0.

Fixpoint GetAllProjects (node : fsnode) (dir : string) (level : Z)
    {struct node} : option (list utils.File) :=
  match node with
  | FsDir _ true files =>
      let projects :=
        if utils.IsProject node then [utils.mkFile (path_Base dir) dir] else [] in
      (fix loop (files : list fsnode) (projects : list utils.File)
         : option (list utils.File) :=
         match files with
         | [] => Some projects
         | file :: rest =>
             match file with
             | FsFile _ => loop rest projects
             | FsDir name _ _ =>
                 let projectDir := path_Join dir name in
                 if negb (utils.IsProject file) then
                   if (level <? 3)%Z
                      && negb (utils.Contains utils.BLACKLIST name) then
                     match GetAllProjects file projectDir (level + 1)%Z with
                     | None => None
                     | Some found => loop rest (projects ++ found)
                     end
                   else loop rest projects
                 else loop rest (projects ++ [utils.mkFile name projectDir])
             end
         end) files projects
  | _ => None
  end.

End utils0.

(** ** The run registry

    [Command] values are shared through pointers in the Go code
    ([[]*Command]); the store [heap] makes that sharing explicit.  A pointer
    is an index into the store. *)

Abbreviation ptr := nat (only parsing).

Record Command : Type := mkCommand {
  Script : string;
  Args : list string;
  Status : string;
  Cancelled : bool;      (* Ctx / Cancel: has this unit's context been cancelled *)
  Output : string;       (* contents of the [*bytes.Buffer] *)
}.

Record Project : Type := mkProject {
  Name : string;
  Dir : string;
  Scripts : list ptr;
}.

(** The [model] struct of the later version; the earlier one has no
    [liveOutput] and never touches it.  [heap] is the store the [*Command]
    pointers of [projects] point into. *)
Record model : Type := mkModel {
  projects : list Project;
  heap : list Command;
  liveOutput : gmap string (list string);   (* key: "projIndex-scriptIndex" *)
  done : bool;
  showStopwatch : bool;
  showScripts : bool;
  showStdout : bool;
  helpShowAll : bool;
}.

Definition set_Status (s : string) (c : Command) : Command :=
  mkCommand (Script c) (Args c) s (Cancelled c) (Output c).

Definition set_Cancelled (c : Command) : Command :=
  mkCommand (Script c) (Args c) (Status c) true (Output c).

Definition WriteString (s : string) (c : Command) : Command :=
  mkCommand (Script c) (Args c) (Status c) (Cancelled c) (Output c +:+ s).

Definition set_projects (ps : list Project) (m : model) : model :=
  mkModel ps (heap m) (liveOutput m) (done m)
          (showStopwatch m) (showScripts m) (showStdout m) (helpShowAll m).

Definition set_heap (h : list Command) (m : model) : model :=
  mkModel (projects m) h (liveOutput m) (done m)
          (showStopwatch m) (showScripts m) (showStdout m) (helpShowAll m).

Definition set_liveOutput (lo : gmap string (list string)) (m : model) : model :=
  mkModel (projects m) (heap m) lo (done m)
          (showStopwatch m) (showScripts m) (showStdout m) (helpShowAll m).

Definition set_done (b : bool) (m : model) : model :=
  mkModel (projects m) (heap m) (liveOutput m) b
          (showStopwatch m) (showScripts m) (showStdout m) (helpShowAll m).

Definition set_showStopwatch (b : bool) (m : model) : model :=
  mkModel (projects m) (heap m) (liveOutput m) (done m)
          b (showScripts m) (showStdout m) (helpShowAll m).

Definition set_showScripts (b : bool) (m : model) : model :=
  mkModel (projects m) (heap m) (liveOutput m) (done m)
          (showStopwatch m) b (showStdout m) (helpShowAll m).

Definition set_showStdout (b : bool) (m : model) : model :=
  mkModel (projects m) (heap m) (liveOutput m) (done m)
          (showStopwatch m) (showScripts m) b (helpShowAll m).

Definition set_helpShowAll (b : bool) (m : model) : model :=
  mkModel (projects m) (heap m) (liveOutput m) (done m)
          (showStopwatch m) (showScripts m) (showStdout m) b.

(** [script.status] read through the pointer.  Every pointer the registry
    hands out is allocated, so the default is never observed on a
    well-formed model. *)
Definition status_at (h : list Command) (p : ptr) : string :=
  match h !! p with
  | Some c => Status c
  | None => ""
  end.

(** Messages ([tea.Msg]) and commands ([tea.Cmd]) of the event loop.

    [AfterWait c] is not a command of Bubble Tea.  It stands for a call of
    [Update] that runs [m.cmdWg.Wait()] before it returns [c]: the call
    hands [c] back only once every [runCommand] that [Init] started has
    returned (each runs [defer wg.Done()]), and never if one of them does
    not return. *)
Inductive Msg : Type :=
  | KeyMsg (k : string)
  | StopwatchTickMsg
  | SpinnerTickMsg
  | commandFinishedMessage (index scriptIndex : nat) (err : option exec.error)
  | programDoneMessage (success : bool)
  | commandOutputMessage (index scriptIndex : nat) (output : string)
  | OtherMsg.

Inductive Cmd : Type :=
  | CmdNil
  | stopwatchCmd
  | spinnerCmd
  | Quit
  | doneCmd (success : bool)
  | Batch (cmds : list Cmd)
  | AfterWait (c : Cmd).

(** Does the call wait for the units before it returns? *)
Definition waits (c : Cmd) : bool :=
  match c with
  | AfterWait _ => true
  | _ => false
  end.

(** [key.Matches] against the bindings of [keys]. *)
Definition keys_Scripts : list string := ["s"].
Definition keys_Timer : list string := ["t"].
Definition keys_Debug : list string := ["d"].
Definition keys_Help : list string := ["?"].
Definition keys_Quit : list string := ["q"; "esc"; "ctrl+c"].

Definition Matches (k : string) (binding : list string) : bool :=
  existsb (String.eqb k) binding.

(** [wasKilledBySignal]: identical in both versions of commandRunner.go. *)
Definition wasKilledBySignal (err : option exec.error) : bool * Z :=
  match err with
  | None => (false, 0%Z)
  | Some e =>
      match exec.As_ExitError e with
      | Some (sys, state) =>
          match sys with
          | None =>
              match state with
              | Some code => if (code =? -1)%Z then (true, 0%Z) else (false, 0%Z)
              | None => (false, 0%Z)
              end
          | Some status =>
              if exec.Signaled status then (true, exec.Signal status)
              else (false, 0%Z)
          end
      | None => (false, 0%Z)
      end
  end.

(** The status computed at the head of the [commandFinishedMessage] case. *)
Definition finishedStatus (err : option exec.error) : string :=
  match err with
  | None => "finished"
  | Some _ =>
      let '(wasKilled, _) := wasKilledBySignal err in
      if wasKilled then "exited" else "failed"
  end.

(** [CancelScripts]: call [cancel] on every command of every project. *)
Definition CancelScripts (m : model) : model :=
  set_heap
    (foldl (λ h p, foldl (λ h' c, alter set_Cancelled c h') h (Scripts p))
           (heap m) (projects m))
    m.

Definition anyStatus (m : model) (s : string) : bool :=
  utils.Some_ (projects m) (λ project,
    utils.Some_ (Scripts project) (λ script,
      String.eqb (status_at (heap m) script) s)).

(** The [commandFinishedMessage] case of [Update], shared verbatim by both
    versions.  Indexing out of range panics in Go: [None]. *)
Definition onCommandFinished (m : model) (index scriptIndex : nat)
    (err : option exec.error) : option (model * Cmd) :=
  let status := finishedStatus err in
  project ← projects m !! index;
  script ← Scripts project !! scriptIndex;
  let m := set_heap (alter (set_Status status) script (heap m)) m in
  let success := true in
  let m := set_done true m in
  if anyStatus m "running" then
    Some (set_done false m, CmdNil)
  else
    let success := if anyStatus m "failed" then false else success in
    if negb (done m) then Some (m, stopwatchCmd)
    else Some (m, Batch [doneCmd success; stopwatchCmd]).

Definition onKey (m : model) (k : string) : model * Cmd :=
  if Matches k keys_Scripts then (set_showScripts (negb (showScripts m)) m, stopwatchCmd)
  else if Matches k keys_Timer then (set_showStopwatch (negb (showStopwatch m)) m, stopwatchCmd)
  else if Matches k keys_Debug then (set_showStdout (negb (showStdout m)) m, stopwatchCmd)
  else if Matches k keys_Help then (set_helpShowAll (negb (helpShowAll m)) m, stopwatchCmd)
  else if Matches k keys_Quit then (CancelScripts m, AfterWait Quit)
  else (m, stopwatchCmd).

Definition onSpinnerTick (m : model) : model * Cmd :=
  (m, Batch (stopwatchCmd :: map (λ _, spinnerCmd) (projects m))).

(** The ways set-up code leaves the program instead of returning. *)
Inductive Outcome (A : Type) : Type :=
  | Returns (a : A)
  | Panics                       (* panic(err) *)
  | LogFatal                     (* log.Fatal(err): message, then exit status 1 *)
  | OsExit (code : Z) (printed : list string).
Arguments Returns {A} a.
Arguments Panics {A}.
Arguments LogFatal {A}.
Arguments OsExit {A} code printed.

Definition aborts {A : Type} (o : Outcome A) : bool :=
  match o with
  | Returns _ => false
  | _ => true
  end.

(** ** Set-up environment *)

Record Config : Type := mkConfig {
  ShowTimer : bool;
  ShowScripts : bool;
  ShowStdout : bool;
}.

Record Env : Type := mkEnv {
  Getwd : option string;      (* os.Getwd(): [None] is the error case *)
  tree : fsnode;              (* the tree found at the working directory *)
  GetConfig : Config;         (* what utils.GetConfig() returns *)
}.

Definition newProjects (found : list utils.File) : list Project :=
  map (λ project, mkProject (utils.Name project) (utils.Dir project) []) found.

(** One supervision task per (project, unit): what [Init] batches. *)
Record Task : Type := mkTask {
  projIndex : nat;
  scriptIndex : nat;
  command : ptr;
  workdir : string;
}.

(** [Init]: the nested [range] loops, one [runCommand] per unit (and one
    [cmdWg.Add(1)]). *)
Definition Init (m : model) : list Task :=
  concat (imap (λ i proj,
                  imap (λ j script, mkTask i j script (Dir proj)) (Scripts proj))
               (projects m)).

(** The line terminator written after each line: one LF character. *)
Definition newline : string := String (ascii_of_nat 10) EmptyString.

Definition newCommand (script : string) (args : list string) : Command :=
  mkCommand script args "running" false "".

Definition appendScript (cmd : ptr) (p : Project) : Project :=
  mkProject (Name p) (Dir p) (Scripts p ++ [cmd]).

(** ** src/views/commandRunner.go *)

Module views.

Definition CreateCommandRunner (env : Env) : Outcome model :=
  match Getwd env with
  | None => Panics
  | Some wd =>
      match utils0.GetAllProjects (tree env) wd 0 with
      | None => LogFatal
      | Some found =>
          let conf := GetConfig env in
          Returns (mkModel (newProjects found) [] ∅ false
                           (ShowTimer conf) (ShowScripts conf) false false)
      end
  end.

(** [AddCommand]: one [&Command{...}] is built before the loop and the same
    pointer is appended to every project. *)
Definition AddCommand (script : string) (args : list string) (m : model) : model :=
  let cmd := length (heap m) in
  let m := set_heap (heap m ++ [newCommand script args]) m in
  set_projects (map (appendScript cmd) (projects m)) m.

Definition Update (m : model) (msg : Msg) : option (model * Cmd) :=
  match msg with
  | KeyMsg k => Some (onKey m k)
  | StopwatchTickMsg => Some (m, stopwatchCmd)
  | SpinnerTickMsg => Some (onSpinnerTick m)
  | commandFinishedMessage index scriptIndex err =>
      onCommandFinished m index scriptIndex err
  | programDoneMessage _ => Some (CancelScripts m, Quit)
  | _ => Some (m, stopwatchCmd)
  end.

End views.

(** ** The later commandRunner.go (src/unnamed/part_008) *)

Module views2.

Definition noProjects : string := "Error: no projects found!".

Definition CreateCommandRunner (env : Env) : Outcome model :=
  match Getwd env with
  | None => Panics
  | Some wd =>
      match utils0.GetAllProjects (tree env) wd 0 with
      | None => LogFatal
      | Some found =>
          if (length found =? 0)%nat then OsExit 1 [noProjects]
          else
            let conf := GetConfig env in
            Returns (mkModel (newProjects found) [] ∅ false
                             (ShowTimer conf) (ShowScripts conf)
                             (ShowStdout conf) false)
      end
  end.

(** The loop shared by [AddCommand] and [AddOptionalCommand]: a fresh
    [&types.Command{...}] is allocated inside the loop body, once per
    project that takes the command. *)
Fixpoint addLoop (shouldAdd : Project → bool) (script : string)
    (args : list string) (ps : list Project) (h : list Command)
    : list Project * list Command :=
  match ps with
  | [] => ([], h)
  | proj :: rest =>
      if shouldAdd proj then
        let cmd := length h in
        let '(rest', h') := addLoop shouldAdd script args rest
                                    (h ++ [newCommand script args]) in
        (appendScript cmd proj :: rest', h')
      else
        let '(rest', h') := addLoop shouldAdd script args rest h in
        (proj :: rest', h')
  end.

Definition AddOptionalCommand (shouldAdd : Project → bool) (script : string)
    (args : list string) (m : model) : model :=
  let '(ps, h) := addLoop shouldAdd script args (projects m) (heap m) in
  set_projects ps (set_heap h m).

Definition AddCommand (script : string) (args : list string) (m : model) : model :=
  let '(ps, h) := addLoop (λ _, true) script args (projects m) (heap m) in
  set_projects ps (set_heap h m).

Definition maxLines : nat := 50.

(** [fmt.Sprintf("%d-%d", index, scriptIndex)] *)
Definition outputKey (index scriptIndex : nat) : string :=
  pretty index +:+ "-" +:+ pretty scriptIndex.

(** The [commandOutputMessage] case.  Reading a missing key of a Go map
    yields nil, to which [append] appends as to an empty slice. *)
Definition onCommandOutput (m : model) (index scriptIndex : nat)
    (output : string) : model * Cmd :=
  let key := outputKey index scriptIndex in
  let lines := default [] (liveOutput m !! key) ++ [output] in
  let lines :=
    if (maxLines <? length lines)%nat then drop (length lines - maxLines) lines
    else lines in
  (set_liveOutput (<[key := lines]> (liveOutput m)) m, stopwatchCmd).

Definition Update (m : model) (msg : Msg) : option (model * Cmd) :=
  match msg with
  | KeyMsg k => Some (onKey m k)
  | SpinnerTickMsg => Some (onSpinnerTick m)
  | commandFinishedMessage index scriptIndex err =>
      onCommandFinished m index scriptIndex err
  | programDoneMessage _ => Some (CancelScripts m, Quit)
  | commandOutputMessage index scriptIndex output =>
      Some (onCommandOutput m index scriptIndex output)
  | _ => Some (m, stopwatchCmd)
  end.

End views2.

(** Feeding a sequence of messages to an [Update] function, keeping the
    commands it returned (most recent last).  After a call that waits
    ([AfterWait]) the loop goes on only when that wait has ended. *)
Fixpoint run (upd : model → Msg → option (model * Cmd)) (m : model)
    (msgs : list Msg) : option (model * list Cmd) :=
  match msgs with
  | [] => Some (m, [])
  | msg :: rest =>
      match upd m msg with
      | None => None
      | Some (m', c) =>
          match run upd m' rest with
          | None => None
          | Some (m'', cs) => Some (m'', c :: cs)
          end
      end
  end.



(** Registry aggregates used in the statements. *)
Definition units (m : model) : list ptr :=
  concat (map Scripts (projects m)).

Definition terminal (s : string) : Prop :=
  s = "finished" ∨ s = "failed" ∨ s = "exited".

Definition allTerminal (m : model) : Prop :=
  ∀ p, p ∈ units m → terminal (status_at (heap m) p).

Definition anyFailed (m : model) : Prop :=
  ∃ p, p ∈ units m ∧ status_at (heap m) p = "failed".

(** Every unit's status is one of the four the code ever writes. *)
Definition statusOk (m : model) : Prop :=
  ∀ p, p ∈ units m →
       status_at (heap m) p = "running" ∨ terminal (status_at (heap m) p).


(** ** [runCommand]: spawning, output wiring and supervision *)

Module runner.






(** *** Output wiring

    Where each stream of the child goes ([c.Stdout], [c.Stderr]) and
    whether a goroutine scans it. *)
Inductive sink : Type :=
  | DevNull          (* the field is nil: the stream is discarded *)
  | PipeUnread       (* a pipe whose read end nobody scans *)
  | PipeScanned.     (* a pipe with a scanner goroutine forwarding lines *)

Record Wiring : Type := mkWiring { wStdout : sink; wStderr : sink }.

(** src/views/commandRunner.go: [c.Stderr = nil]; [c.StdoutPipe()] feeds a
    scanner that is stored in [command.reader] and never scanned. *)
Definition wiring1 : Wiring := mkWiring PipeUnread DevNull.

(** src/unnamed/part_008: both pipes, one scanning goroutine each. *)
Definition wiring2 : Wiring := mkWiring PipeScanned PipeScanned.

(** One scanner goroutine.  Each scanned line comes with what the
    non-blocking [select] on [ctx.Done()] observed in that iteration; the
    loop returns at the first [true].  A forwarded line is written to
    [command.Output] and sent as a [commandOutputMessage]. *)
Fixpoint pump (projIndex scriptIndex : nat) (scanned : list (bool * string))
    : list Msg :=
  match scanned with
  | [] => []
  | (ctxDone, line) :: rest =>
      if ctxDone then []
      else commandOutputMessage projIndex scriptIndex line
             :: pump projIndex scriptIndex rest
  end.

Fixpoint pumpWrites (scanned : list (bool * string)) (c : Command) : Command :=
  match scanned with
  | [] => c
  | (ctxDone, line) :: rest =>
      if ctxDone then c
      else pumpWrites rest (WriteString (line +:+ newline) c)
  end.

Definition forwarded (s : sink) (projIndex scriptIndex : nat)
    (scanned : list (bool * string)) : list Msg :=
  match s with
  | PipeScanned => pump projIndex scriptIndex scanned
  | _ => []
  end.

(** The two goroutines run concurrently: the event loop receives some
    interleaving of what each forwards. *)
Inductive Interleave {A : Type} : list A → list A → list A → Prop :=
  | il_nil : Interleave [] [] []
  | il_left x l1 l2 l : Interleave l1 l2 l → Interleave (x :: l1) l2 (x :: l)
  | il_right x l1 l2 l : Interleave l1 l2 l → Interleave l1 (x :: l2) (x :: l).

Definition delivered (w : Wiring) (projIndex scriptIndex : nat)
    (out err : list (bool * string)) (msgs : list Msg) : Prop :=
  Interleave (forwarded (wStdout w) projIndex scriptIndex out)
             (forwarded (wStderr w) projIndex scriptIndex err) msgs.

(** *** Supervision (identical in both versions)

    [waitChan := make(chan error, 1)]; a goroutine selects between
    [ctx.Done()] and a receive on [waitChan]; the function itself waits for
    the process, sends the result on [waitChan] and receives from it.

    The command is made by [exec.CommandContext(ctx, ...)], so [c.Start()]
    has started one more goroutine, inside os/exec, that watches [ctx]
    ([Cmd.watchCtx]): it selects between handing an empty result to
    [c.Wait()] and [ctx.Done()]; when the context is done first it calls
    [c.Cancel], which is [c.Process.Kill()], and hands the outcome to
    [c.Wait()].  That SIGKILL goes to the process alone, not to its group,
    and comes without any grace period. *)

Inductive mainPC : Type :=
  | MWait                                 (* c.Wait(): c.Process.Wait() *)
  | MWatch                                (* c.Wait(): watch := <-c.ctxResult *)
  | MSend (errWait : option exec.error)   (* waitChan <- errWait *)
  | MRecv                                 (* finalErr := <-waitChan *)
  | MReturn (finalErr : option exec.error).

Inductive cancPC : Type :=
  | GSelect                               (* select { ... } *)
  | GTerm                                 (* syscall.Kill(-pid, SIGTERM) *)
  | GSleep                                (* time.Sleep(100ms) *)
  | GKill                                 (* syscall.Kill(-pid, SIGKILL) *)
  | GSendCtx                              (* waitChan <- ctx.Err() *)
  | GForward (errWait : option exec.error)  (* waitChan <- errWait *)
  | GEnd.

(** The goroutine of os/exec that watches the context. *)
Inductive watchPC : Type :=
  | WSelect        (* select { resultc <- ctxResult{} | <-ctx.Done() } *)
  | WCancel        (* interruptErr := c.Cancel(), that is c.Process.Kill() *)
  | WResult (err : option exec.error)     (* resultc <- ctxResult{err: err} *)
  | WEnd.

Record conf : Type := mkConf {
  mpc : mainPC;
  gpc : cancPC;
  wpc : watchPC;
  waitChan : option (option exec.error);   (* the one buffer slot *)
  ctxDone : bool;
  proc : option exec.WaitStatus;           (* [Some w] once terminated *)
  sent : list Z;          (* signals sent by this code, to the process group *)
  execSent : list Z;      (* signals sent by os/exec, to the process *)
}.

Definition init : conf := mkConf MWait GSelect WSelect None false None [] [].

Inductive label : Type :=
  | cancel                      (* somebody calls the unit's cancel() *)
  | exits (w : exec.WaitStatus) (* the process terminates with status w *)
  | main_wait | main_watch | main_send | main_recv
  | canc_done | canc_recv | canc_term | canc_sleep | canc_kill
  | canc_send_ctx | canc_forward
  | watch_done | watch_kill | watch_gone.

(** What [c.Wait()] receives on the unbuffered [c.ctxResult]: the empty
    result while the watcher is in its [select], else the result the
    watcher is sending. *)
Definition handsOver (w : watchPC) : option (option exec.error) :=
  match w with
  | WSelect => Some None
  | WResult err => Some err
  | _ => None
  end.

(** Has [c.Process.Wait()] returned, so that [Kill] answers
    [os.ErrProcessDone]? *)
Definition reaped (m : mainPC) : bool :=
  match m with
  | MWait => false
  | _ => true
  end.

(** One step of one goroutine, or of the environment.

    [watch_kill]: [c.Process.Kill()] sends SIGKILL and returns nil, so the
    watcher's error is [ctx.Err()]; possible as long as the process has not
    been reaped.  [watch_gone]: [Kill] returns [os.ErrProcessDone] and the
    watcher's error stays nil; possible once the process has terminated
    (for a process that has terminated and is not yet reaped the answer
    depends on how the runtime signals: [kill(2)] succeeds on it,
    [pidfd_send_signal(2)] does not).  Any other error of [Kill] (a child
    that runs under another user) is left out. *)
Definition fire (l : label) (c : conf) : option conf :=
  match l, c with
  | cancel, mkConf m g w ch false p s x => Some (mkConf m g w ch true p s x)
  | exits st, mkConf m g w ch d None s x =>
      Some (mkConf m g w ch d (Some st) s x)
  | main_wait, mkConf MWait g w ch d (Some st) s x =>
      Some (mkConf MWatch g w ch d (Some st) s x)
  | main_watch, mkConf MWatch g w ch d (Some st) s x =>
      match handsOver w with
      | Some watchErr =>
          Some (mkConf (MSend (exec.WaitContext st watchErr)) g WEnd ch d
                       (Some st) s x)
      | None => None
      end
  | main_send, mkConf (MSend e) g w None d p s x =>
      Some (mkConf MRecv g w (Some e) d p s x)
  | main_recv, mkConf MRecv g w (Some e) d p s x =>
      Some (mkConf (MReturn e) g w None d p s x)
  | canc_done, mkConf m GSelect w ch true p s x =>
      Some (mkConf m GTerm w ch true p s x)
  | canc_recv, mkConf m GSelect w (Some e) d p s x =>
      Some (mkConf m (GForward e) w None d p s x)
  | canc_term, mkConf m GTerm w ch d p s x =>
      Some (mkConf m GSleep w ch d p (s ++ [exec.SIGTERM]) x)
  | canc_sleep, mkConf m GSleep w ch d p s x =>
      Some (mkConf m GKill w ch d p s x)
  | canc_kill, mkConf m GKill w ch d p s x =>
      Some (mkConf m GSendCtx w ch d p (s ++ [exec.SIGKILL]) x)
  | canc_send_ctx, mkConf m GSendCtx w None d p s x =>
      Some (mkConf m GEnd w (Some (Some exec.Canceled)) d p s x)
  | canc_forward, mkConf m (GForward e) w None d p s x =>
      Some (mkConf m GEnd w (Some e) d p s x)
  | watch_done, mkConf m g WSelect ch true p s x =>
      Some (mkConf m g WCancel ch true p s x)
  | watch_kill, mkConf m g WCancel ch d p s x =>
      if reaped m then None
      else Some (mkConf m g (WResult (Some exec.Canceled)) ch d p s
                        (x ++ [exec.SIGKILL]))
  | watch_gone, mkConf m g WCancel ch d (Some st) s x =>
      Some (mkConf m g (WResult None) ch d (Some st) s x)
  | _, _ => None
  end.

Fixpoint fires (ls : list label) (c : conf) : option conf :=
  match ls with
  | [] => Some c
  | l :: rest =>
      match fire l c with
      | Some c' => fires rest c'
      | None => None
      end
  end.

Definition reachable (c : conf) : Prop := ∃ ls, fires ls init = Some c.

Definition stuck (c : conf) : Prop := ∀ l, fire l c = None.

(** The message [runCommand] returns once it gets there. *)
Definition returned (projIndex scriptIndex : nat) (c : conf) : option Msg :=
  match mpc c with
  | MReturn finalErr => Some (commandFinishedMessage projIndex scriptIndex finalErr)
  | _ => None
  end.

End runner.

(** ** src/utils/helpers.go: the predicates over a registered project

    [Stat] and [ReadFile] are what the operating system answers for a
    path; [UnmarshalScripts] is the [Scripts] map that
    [json.Unmarshal(file, &pkg)] leaves in [pkg] for the given file
    contents (empty when it fills none). *)

Module os.

Inductive StatResult : Type :=
  | StatOk                (* err == nil *)
  | ErrNotExist           (* errors.Is(err, os.ErrNotExist) *)
  | StatError.            (* any other error *)

Record FS : Type := mkFS {
  Stat : string → StatResult;
  ReadFile : string → option string;     (* [None]: err != nil *)
  UnmarshalScripts : string → gmap string string;
}.

End os.

Module helpers.

(** [FileExists]: the answer and whether an error is returned with it. *)
Definition FileExists (fs : os.FS) (name : string) : bool * bool :=
  match os.Stat fs name with
  | os.StatOk => (true, false)
  | os.ErrNotExist => (false, false)
  | os.StatError => (false, true)
  end.

Definition HasYarn (fs : os.FS) (project : Project) : bool :=
  let '(exists_, _) := FileExists fs (path_Join (Dir project) "yarn.lock") in
  exists_.

Definition HasScript (fs : os.FS) (script : string) : Project → bool :=
  λ project,
    match os.ReadFile fs (path_Join (Dir project) "package.json") with
    | None => false
    | Some file =>
        let pkg := os.UnmarshalScripts fs file in
        bool_decide (is_Some (pkg !! script))
    end.

End helpers.

(** ** src/cmd: what the sub-commands register

    Each [Run] builds the registry and registers its commands; the model it
    then hands to the event loop is the result here. *)

Definition andThen {A B : Type} (o : Outcome A) (f : A → B) : Outcome B :=
  match o with
  | Returns a => Returns (f a)
  | Panics => Panics
  | LogFatal => LogFatal
  | OsExit code printed => OsExit code printed
  end.

Module cmd.

Definition provide : string := "Provide a command...".

(** src/cmd/composer.go *)
Definition composer (args : list string) (env : Env) : Outcome model :=
  if (length args =? 0)%nat then OsExit 1 [provide]
  else
    andThen (views2.CreateCommandRunner env)
            (views2.AddCommand "composer" args).

(** src/unnamed/part_000 *)
Definition npm (args : list string) (env : Env) : Outcome model :=
  if (length args =? 0)%nat then OsExit 1 [provide]
  else
    andThen (views2.CreateCommandRunner env)
            (views2.AddCommand "npm" args).

(** src/unnamed/part_002 *)
Definition build (fs : os.FS) (env : Env) : Outcome model :=
  andThen (views2.CreateCommandRunner env)
    (λ m,
       views2.AddOptionalCommand (utils.Not (helpers.HasYarn fs))
                                 "npm" ["run"; "build:prod"]
         (views2.AddOptionalCommand (helpers.HasYarn fs)
                                    "yarn" ["build:prod"] m)).

(** src/unnamed/part_006 *)
Definition watch (fs : os.FS) (env : Env) : Outcome model :=
  andThen (views2.CreateCommandRunner env)
    (λ m,
       views2.AddOptionalCommand (utils.Not (helpers.HasYarn fs))
                                 "npm" ["run"; "start"]
         (views2.AddOptionalCommand (helpers.HasYarn fs)
                                    "yarn" ["start"] m)).

(** The registrations of src/cmd/install.go, applied to the registry
    built before them. *)
Definition install (fs : os.FS) (m : model) : model :=
  views2.AddCommand "composer" ["install"]
    (views2.AddOptionalCommand (utils.Not (helpers.HasYarn fs))
                               "npm" ["install"]
       (views2.AddOptionalCommand (helpers.HasYarn fs) "yarn" [] m)).

(** The registrations of the later [watch] (src/unnamed/part_004), applied
    to the registry built before them. *)
Definition watchScripts (fs : os.FS) (m : model) : model :=
  let HasYarn := helpers.HasYarn fs in
  let HasScript := helpers.HasScript fs in
  views2.AddOptionalCommand
    (utils.And [utils.Not HasYarn; HasScript "dev"])
    "npm" ["run"; "dev"]
  (views2.AddOptionalCommand
    (utils.And [HasYarn; HasScript "dev"])
    "yarn" ["dev"]
  (views2.AddOptionalCommand
    (utils.And [utils.Not HasYarn; HasScript "watch:dev"])
    "npm" ["run"; "watch:dev"]
  (views2.AddOptionalCommand
    (utils.And [HasYarn; HasScript "watch:dev"])
    "yarn" ["watch:dev"]
  (views2.AddOptionalCommand
    (utils.And [utils.Not HasYarn; HasScript "start";
                utils.Not (HasScript "watch:dev");
                utils.Not (HasScript "dev")])
    "npm" ["run"; "start"]
  (views2.AddOptionalCommand
    (utils.And [HasYarn; HasScript "start";
                utils.Not (HasScript "watch:dev");
                utils.Not (HasScript "dev")])
    "yarn" ["start"] m))))).

End cmd.

(** ** [Output] and [View] of the later version (src/unnamed/part_008)

    The styled pieces are whatever lipgloss and the bubbles widgets
    render; the text around them is built as the code builds it. *)

Module render.

Record Styles : Type := mkStyles {
  header : string;                  (* title, two spaces, subtitle *)
  divider : string;
  checkMark : string;
  cross : string;
  projectDone : string → string;
  projectStyle : string → string;
  normalStyle : string → string;    (* NewStyle().Foreground(normal).Render *)
  spinnerView : nat → string;       (* proj.Spinner.View() of project i *)
  Render : ptr → Command → string;  (* script.Render(script) of the unit *)
  since : string;                   (* time.Since(m.start) *)
  stopwatchView : string;
  helpView : bool → string;         (* m.help.View(m.keys), by help.ShowAll *)
}.

Definition allFinished (m : model) (proj : Project) : bool :=
  utils.All (Scripts proj) (λ script,
    String.eqb (status_at (heap m) script) "failed"
    || String.eqb (status_at (heap m) script) "finished").

Definition hasError (m : model) (proj : Project) : bool :=
  utils.Some_ (Scripts proj) (λ script,
    String.eqb (status_at (heap m) script) "failed").

Definition spin (st : Styles) (m : model) (i : nat) (proj : Project) : string :=
  if hasError m proj then cross st
  else if allFinished m proj then checkMark st
  else spinnerView st i.

Definition name (st : Styles) (m : model) (proj : Project) : string :=
  if allFinished m proj && negb (hasError m proj)
  then projectDone st (Name proj)
  else projectStyle st (Name proj).

(** The lines of [output] that are shown: all of them, or the last
    [maxLines] when [maxLines > 0] and there are more. *)
Definition data (maxLines : Z) (output : list string) : list string :=
  if (0 <? maxLines)%Z && (maxLines <? Z.of_nat (length output))%Z
  then drop (length output - Z.to_nat maxLines) output
  else output.

(** The [for _, line := range data] loop: each line styled, indented by
    five spaces and ended by a newline. *)
Definition format (st : Styles) (lines : list string) : string :=
  foldl (λ stdOut line, stdOut +:+ "     " +:+ normalStyle st line +:+ newline)
        "" lines.

(** The variable [stdOut] for unit [j] of project [i]. *)
Definition stdOut (st : Styles) (m : model) (maxLines : Z) (i j : nat)
    : string :=
  let key := views2.outputKey i j in
  match liveOutput m !! key with
  | Some output =>
      if (0 <? length output)%nat then format st (data maxLines output)
      else ""
  | None => ""
  end.

(** The body of the loop over a project's scripts. *)
Definition script (st : Styles) (m : model) (maxLines : Z) (i j : nat)
    (p : ptr) (s : string) : string :=
  let s :=
    if done m || showScripts m then
      let s := if (0 <? j)%nat then s +:+ divider st else s in
      match heap m !! p with
      | Some c => s +:+ "   " +:+ Render st p c
      | None => s
      end
    else s in
  if showStdout m then
    let out := stdOut st m maxLines i j in
    if (0 <? String.length out)%nat then s +:+ newline +:+ out else s
  else s.

Definition scripts (st : Styles) (m : model) (maxLines : Z) (i : nat)
    (proj : Project) (s : string) : string :=
  foldl (λ s jp, script st m maxLines i jp.1 jp.2 s) s
        (imap (λ j p, (j, p)) (Scripts proj)).

(** The body of the loop over the projects. *)
Definition project (st : Styles) (m : model) (maxLines : Z) (i : nat)
    (proj : Project) (s : string) : string :=
  let s := s +:+ spin st m i proj +:+ " " +:+ name st m proj +:+ newline in
  if (negb (allFinished m proj) || hasError m proj)
     && (showScripts m || done m)
     || showStdout m
  then scripts st m maxLines i proj s +:+ newline
  else s.

Definition Output (st : Styles) (m : model) (maxLines : Z) : string :=
  let s := header st +:+ newline +:+ newline in
  let s := foldl (λ s ip, project st m maxLines ip.1 ip.2 s) s
                 (imap (λ i proj, (i, proj)) (projects m)) in
  let s :=
    if done m then s +:+ newline +:+ "Finished in " +:+ since st +:+ newline
    else if showStopwatch m
    then s +:+ "Elapsed: " +:+ stopwatchView st +:+ newline
    else s in
  if negb (done m) then s +:+ helpView st (helpShowAll m) else s.


End render.

(** * Vocabulary of the statements *)

(** ** Outcome events *)

(** The unit an outcome event addresses. *)
Definition target (m : model) (index scriptIndex : nat) : option ptr :=
  project ← projects m !! index; Scripts project !! scriptIndex.


(** A registry with one project and one unit, used to instantiate the
    statements below. *)
Definition oneUnit (status : string) : model :=
  mkModel [mkProject "a" "/ws/a" [0]]
          [mkCommand "yarn" ["build:prod"] status false ""]
          ∅ false true true false false.

Definition killedBy (sig : Z) : option exec.error :=
  exec.Wait (exec.signal_status sig).

Definition twoUnits : model :=
  mkModel [mkProject "a" "/ws/a" [0]; mkProject "b" "/ws/b" [1]]
          [mkCommand "yarn" [] "running" false "";
           mkCommand "yarn" [] "running" false ""]
          ∅ false true true false false.

Definition twoUnits_after : model :=
  mkModel [mkProject "a" "/ws/a" [0]; mkProject "b" "/ws/b" [1]]
          [mkCommand "yarn" [] "finished" false "";
           mkCommand "yarn" [] "failed" false ""]
          ∅ true true true false false.

(** ** Classification of outcomes *)

(** What [wasKilledBySignal] recognises: an [*exec.ExitError] whose wait
    status reports termination by a signal, or, when no wait status can be
    read, whose exit code is -1. *)
Definition signalKill (err : option exec.error) : Prop :=
  ∃ sys state, err = Some (exec.ExitError sys state)
    ∧ ((∃ w, sys = Some w ∧ exec.Signaled w = true)
       ∨ (sys = None ∧ state = Some (-1)%Z)).

(** The claim as the specification words it: a unit is given the status
    "exited" only when its process was ended by a signal this code sent. *)
Definition exitedOnlyByOwnSignal : Prop :=
  ∀ (c : runner.conf) (finalErr : option exec.error),
    runner.reachable c →
    runner.mpc c = runner.MReturn finalErr →
    finishedStatus finalErr = "exited" →
    ∃ w, runner.proc c = Some w
         ∧ exec.Signal w ∈ runner.sent c ++ runner.execSent c.

(** ** The supervision protocol *)

(** The value [c.Wait()] may return for a process reaped with status [w]:
    the process's own result, or, for a process that exited with status 0
    after the kill of os/exec went out, the context's error. *)
Definition waited (c : runner.conf) (w : exec.WaitStatus)
    (e : option exec.error) : Prop :=
  e = exec.Wait w
  ∨ (exec.Wait w = None ∧ e = Some exec.Canceled
     ∧ runner.ctxDone c = true ∧ runner.execSent c = [exec.SIGKILL]).

(** Where the watcher of os/exec is, relative to [c.Wait()], and what it
    has sent. *)
Definition watchInv (c : runner.conf) : Prop :=
  match runner.wpc c with
  | runner.WSelect =>
      runner.execSent c = []
      ∧ (runner.mpc c = runner.MWait ∨ runner.mpc c = runner.MWatch)
  | runner.WCancel =>
      runner.execSent c = [] ∧ runner.ctxDone c = true
      ∧ (runner.mpc c = runner.MWait ∨ runner.mpc c = runner.MWatch)
  | runner.WResult err =>
      runner.ctxDone c = true
      ∧ (runner.mpc c = runner.MWait ∨ runner.mpc c = runner.MWatch)
      ∧ ((err = Some exec.Canceled ∧ runner.execSent c = [exec.SIGKILL])
         ∨ (err = None ∧ runner.execSent c = []))
  | runner.WEnd =>
      runner.mpc c ≠ runner.MWait ∧ runner.mpc c ≠ runner.MWatch
      ∧ (runner.execSent c = []
         ∨ (runner.execSent c = [exec.SIGKILL] ∧ runner.ctxDone c = true))
  end.

(** What holds of every reachable configuration: once the function has
    waited for the process, the value it is about to send, has sent, or
    returns is the result of [c.Wait()]. *)
Definition waitInv (c : runner.conf) : Prop :=
  match runner.mpc c with
  | runner.MWait => True
  | runner.MWatch => is_Some (runner.proc c)
  | runner.MSend e => ∃ w, runner.proc c = Some w ∧ waited c w e
  | runner.MRecv =>
      ∃ w e, runner.proc c = Some w ∧ waited c w e
             ∧ (runner.waitChan c = Some e
                ∨ (runner.waitChan c = None
                   ∧ runner.gpc c = runner.GForward e))
  | runner.MReturn e => ∃ w, runner.proc c = Some w ∧ waited c w e
  end.

(** How the contents of [waitChan] relate to where [runCommand] and its
    canceller are. *)
Definition chanInv (c : runner.conf) : Prop :=
  match runner.mpc c with
  | runner.MWait | runner.MWatch | runner.MSend _ =>
      match runner.gpc c with
      | runner.GForward _ => False
      | runner.GEnd => runner.waitChan c = Some (Some exec.Canceled)
      | _ => runner.waitChan c = None
      end
  | runner.MRecv =>
      match runner.gpc c with
      | runner.GForward _ => runner.waitChan c = None
      | _ => is_Some (runner.waitChan c)
      end
  | runner.MReturn _ => True
  end.

(** Steps left at most: every step of the protocol uses up one. *)
Definition stepsLeft (c : runner.conf) : nat :=
  (if runner.ctxDone c then 0 else 1)
  + match runner.proc c with Some _ => 0 | None => 1 end
  + match runner.mpc c with
    | runner.MWait => 4 | runner.MWatch => 3 | runner.MSend _ => 2
    | runner.MRecv => 1 | runner.MReturn _ => 0
    end
  + match runner.gpc c with
    | runner.GSelect => 5 | runner.GTerm => 4 | runner.GSleep => 3
    | runner.GKill => 2 | runner.GSendCtx => 1 | runner.GForward _ => 1
    | runner.GEnd => 0
    end
  + match runner.wpc c with
    | runner.WSelect => 2 | runner.WCancel => 1
    | runner.WResult _ | runner.WEnd => 0
    end.

Ltac fire_inv H :=
  repeat match type of H with
         | match ?x with _ => _ end = Some _ =>
             destruct x; simpl in H; try discriminate H
         end.

Ltac split_hyps :=
  repeat match goal with
         | H : ∃ _, _ |- _ => destruct H
         | H : _ ∧ _ |- _ => destruct H
         | H : _ ∨ _ |- _ => destruct H
         end;
  simplify_eq.

Ltac close_inv :=
  simpl in *; split_hyps; simpl; eauto 15; try done.

(** The configuration reached when the unit is cancelled and the process is
    reaped only after the canceller goroutine has run to its end. *)
Definition blocked : runner.conf :=
  runner.mkConf (runner.MSend (killedBy exec.SIGKILL)) runner.GEnd
                runner.WEnd (Some (Some exec.Canceled)) true
                (Some (exec.signal_status exec.SIGKILL))
                [exec.SIGTERM; exec.SIGKILL] [exec.SIGKILL].

(** The kill of os/exec goes out at once; the process is gone, or is
    noticed to be gone, only after the grace period. *)
Definition lateReap : list runner.label :=
  [runner.cancel; runner.watch_done; runner.watch_kill;
   runner.canc_done; runner.canc_term; runner.canc_sleep;
   runner.canc_kill; runner.canc_send_ctx;
   runner.exits (exec.signal_status exec.SIGKILL); runner.main_wait;
   runner.main_watch].

(** ** Status histories *)







(** ** Live output *)

(** [l[len(l)-n:]] when [len(l) > n], else [l]: the last [n] lines. *)
Definition lastN {A : Type} (n : nat) (l : list A) : list A :=
  drop (length l - n) l.

(** The lines that the messages carry for one key, in arrival order. *)
Fixpoint linesFor (key : string) (msgs : list Msg) : list string :=
  match msgs with
  | [] => []
  | commandOutputMessage index scriptIndex output :: rest =>
      if String.eqb (views2.outputKey index scriptIndex) key
      then output :: linesFor key rest
      else linesFor key rest
  | _ :: rest => linesFor key rest
  end.

(** The lines that the messages carry for one unit, in arrival order. *)
Fixpoint linesOf (i j : nat) (msgs : list Msg) : list string :=
  match msgs with
  | [] => []
  | commandOutputMessage index scriptIndex output :: rest =>
      if (index =? i)%nat && (scriptIndex =? j)%nat
      then output :: linesOf i j rest
      else linesOf i j rest
  | _ :: rest => linesOf i j rest
  end.

Definition buffer (m : model) (key : string) : list string :=
  default [] (liveOutput m !! key).

Fixpoint dashFree (s : string) : bool :=
  match s with
  | EmptyString => true
  | String c s' => negb (Ascii.eqb c "-") && dashFree s'
  end.

(** Fifty-two lines for one unit: the first two are dropped. *)
Definition manyLines : list Msg :=
  map (λ n, commandOutputMessage 0 0 (pretty n)) (seq 0 52).

Definition afterManyLines : model :=
  set_liveOutput {[ "0-0" := map pretty (seq 2 50) ]} (oneUnit "running").

(** The text the lines make in a buffer: each followed by a newline. *)
Fixpoint written (lines : list string) : string :=
  match lines with
  | [] => ""
  | line :: rest => line +:+ newline +:+ written rest
  end.

(** The number of lines a buffer of text holds: its line terminators. *)
Fixpoint lineCount (s : string) : nat :=
  match s with
  | EmptyString => 0
  | String c s' =>
      (if Ascii.eqb c (ascii_of_nat 10) then 1 else 0) + lineCount s'
  end.

(** What a scanner goroutine reads while its unit's context is not done. *)
Definition scannedLive (lines : list string) : list (bool * string) :=
  map (pair false) lines.

(** Sixty lines of output. *)
Definition sixtyLines : list string := map pretty (seq 0 60).

(** ** Units and the store *)

(** Every pointer held by a project is allocated. *)
Definition wfHeap (m : model) : Prop :=
  ∀ p, p ∈ units m → p < length (heap m).

Definition scriptsOf (ps : list Project) : list ptr := concat (map Scripts ps).

Definition twoProjects : model :=
  mkModel [mkProject "a" "/ws/a" []; mkProject "b" "/ws/b" []]
          [] ∅ false true true false false.

Definition someStdout : list (bool * string) := [(false, "Done in 2.31s.")].
Definition someStderr : list (bool * string) :=
  [(false, "warning: package.json: No license field")].

(** ** Set-up *)

(** What a [qk] sub-command does: build the registry, register its
    commands, and let [Init] start one task per unit. *)
Definition start (create : Env → Outcome model) (setup : model → model)
    (env : Env) : Outcome (list Task) :=
  match create env with
  | Returns m => Returns (Init (setup m))
  | Panics => Panics
  | LogFatal => LogFatal
  | OsExit code printed => OsExit code printed
  end.

(** The claim as the specification words it: set-up aborts the whole run
    only when discovery finds no project. *)
Definition abortOnlyWithoutProjects : Prop :=
  ∀ env, aborts (views2.CreateCommandRunner env) = true →
         ∃ wd, Getwd env = Some wd
               ∧ utils0.GetAllProjects (tree env) wd 0 = Some [].

(** A workspace with one project and one directory that cannot be read. *)
Definition lockedEnv : Env :=
  mkEnv (Some "/ws")
        (FsDir "ws" true
           [FsDir "a" true [FsFile "composer.json"; FsFile "package.json"];
            FsDir "private" false []])
        (mkConfig true true false).

(** A workspace without any project. *)
Definition emptyEnv : Env :=
  mkEnv (Some "/ws") (FsDir "ws" true [FsFile "notes.txt"])
        (mkConfig true true false).

(** ** The discovery walk *)

(** Induction over directory trees, with the hypothesis for every entry. *)
Fixpoint fsnode_nested_ind (P : fsnode → Prop)
    (Hfile : ∀ name, P (FsFile name))
    (Hdir : ∀ name readable entries,
        Forall P entries → P (FsDir name readable entries))
    (n : fsnode) {struct n} : P n :=
  match n with
  | FsFile name => Hfile name
  | FsDir name readable entries =>
      Hdir name readable entries
        ((fix go (es : list fsnode) : Forall P es :=
            match es with
            | [] => @List.Forall_nil _ P
            | e :: es' =>
                @List.Forall_cons _ P e es' (fsnode_nested_ind P Hfile Hdir e) (go es')
            end) entries)
  end.

(** [At root dir n path]: below [root], itself at path [dir], the tree has
    the node [n] at path [path]. *)
Inductive At : fsnode → string → fsnode → string → Prop :=
  | at_here n dir : At n dir n dir
  | at_below name readable files dir file n path :
      file ∈ files →
      At file (path_Join dir (node_name file)) n path →
      At (FsDir name readable files) dir n path.

Section Walk.

Variable depth : Z.

(** The loop descends into an entry: a directory that is not itself a
    project, while the depth bound allows, unless its name is blacklisted. *)
Definition descends (level : Z) (file : fsnode) : Prop :=
  (∃ name readable entries, file = FsDir name readable entries)
  ∧ utils.IsProject file = false
  ∧ (depth = -1 ∨ level ≤ depth)%Z
  ∧ utils.Contains utils.BLACKLIST (node_name file) = false.

(** The loop lists an entry: a project, while the depth bound allows. *)
Definition lists (level : Z) (dir : string) (files : list fsnode) (f : utils.File)
    : Prop :=
  ∃ file, file ∈ files
          ∧ utils.IsProject file = true
          ∧ (depth = -1 ∨ level < depth)%Z
          ∧ f = utils.mkFile (node_name file) (path_Join dir (node_name file)).

(** [Reaches node dir level node' dir' level']: a call on [node] leads,
    through descents, to a call on [node']. *)
Inductive Reaches : fsnode → string → Z → fsnode → string → Z → Prop :=
  | reach_here node dir level : Reaches node dir level node dir level
  | reach_down name files dir level file node' dir' level' :
      file ∈ files →
      descends level file →
      Reaches file (path_Join dir (node_name file)) (level + 1)%Z
              node' dir' level' →
      Reaches (FsDir name true files) dir level node' dir' level'.

(** What a call is specified to return: the directory itself when it is a
    project, and the projects listed by any call it leads to. *)
Definition Found (node : fsnode) (dir : string) (level : Z) (f : utils.File) : Prop :=
  (utils.IsProject node = true ∧ f = utils.mkFile (path_Base dir) dir)
  ∨ ∃ name files dir' level',
      Reaches node dir level (FsDir name true files) dir' level'
      ∧ lists level' dir' files f.

Definition recSpec
    (rec : fsnode → string → Z → Z → list utils.File * option (list utils.File))
    (file : fsnode) : Prop :=
  ∀ dir level log ps,
    rec file dir depth level = (log, Some ps) →
    ∀ f, f ∈ ps ↔ Found file dir level f.

End Walk.

(** What the loop contributes for one entry. *)
Definition listsOne (depth level : Z) (dir : string) (file : fsnode) (f : utils.File)
    : Prop :=
  utils.IsProject file = true
  ∧ (depth = -1 ∨ level < depth)%Z
  ∧ f = utils.mkFile (node_name file) (path_Join dir (node_name file)).

Definition descendsOne (depth level : Z) (dir : string) (file : fsnode)
    (f : utils.File) : Prop :=
  descends depth level file
  ∧ Found depth file (path_Join dir (node_name file)) (level + 1)%Z f.

Definition notBlacklisted (f : utils.File) : Prop :=
  utils.Contains utils.BLACKLIST (utils.Name f) = false.

(** The claim as the specification words it: a directory of the tree is
    returned by discovery exactly when it holds both manifests. *)
Definition discoveredIffManifests : Prop :=
  ∀ root dir depth level log ps n path,
    utils.GetAllProjects root dir depth level = (log, Some ps) →
    At root dir n path →
    (utils.IsProject n = true ↔ ∃ f, f ∈ ps ∧ utils.Dir f = path).

Definition manifests : list fsnode :=
  [FsFile "composer.json"; FsFile "package.json"].

(** A workspace with one project, and a package below [vendor] that also
    ships both manifests. *)
Definition workspace : fsnode :=
  FsDir "ws" true
    [FsDir "app" true manifests;
     FsDir "docs" true [FsFile "package.json"];
     FsDir "vendor" true [FsDir "lib" true manifests]].

(** ** Registries built by set-up *)

(** The registries a [qk] sub-command can hand to the event loop: built by
    [CreateCommandRunner] and extended by registrations.  [Setup2] is the
    same for the later version alone. *)
Inductive Setup : model → Prop :=
  | setup_new1 env m : views.CreateCommandRunner env = Returns m → Setup m
  | setup_new2 env m : views2.CreateCommandRunner env = Returns m → Setup m
  | setup_add1 script args m : Setup m → Setup (views.AddCommand script args m)
  | setup_add2 script args m : Setup m → Setup (views2.AddCommand script args m)
  | setup_opt2 shouldAdd script args m :
      Setup m → Setup (views2.AddOptionalCommand shouldAdd script args m).

Inductive Setup2 : model → Prop :=
  | setup2_new env m : views2.CreateCommandRunner env = Returns m → Setup2 m
  | setup2_add script args m :
      Setup2 m → Setup2 (views2.AddCommand script args m)
  | setup2_opt shouldAdd script args m :
      Setup2 m → Setup2 (views2.AddOptionalCommand shouldAdd script args m).

(** * Vocabulary of the further properties *)

(** ** Tasks and messages *)

(** The message addresses a unit of the registry, or is not an outcome
    event at all. *)
Definition addressed (m : model) (msg : Msg) : Prop :=
  match msg with
  | commandFinishedMessage index scriptIndex _ =>
      is_Some (target m index scriptIndex)
  | _ => True
  end.

(** A registry with two projects and one unit each, as the later
    [AddCommand] builds it. *)
Definition twoRegistered : model :=
  views2.AddCommand "yarn" ["build:prod"] twoProjects.

Definition strayOutcome : list Msg :=
  [commandFinishedMessage 1 0 None; commandFinishedMessage 2 0 None].

(** The keys that toggle a display flag. *)
Definition toggleKeys : list string := ["s"; "t"; "d"; "?"].

(** The workspace of the discovery example as the set-up environment, and
    the registry [qk yarn] builds for it. *)
Definition wsEnv : Env :=
  mkEnv (Some "/ws") workspace (mkConfig true true false).

Definition wsRegistry : model :=
  views2.AddCommand "yarn" []
    (mkModel (newProjects [utils.mkFile "app" "/ws/app"]) [] ∅ false
             true true false false).

Definition wsFinished : model :=
  mkModel [mkProject "app" "/ws/app" [0]]
          [mkCommand "yarn" [] "finished" false ""]
          ∅ true true true false false.

(** ** Signals sent by the canceller *)

(** Where the canceller is determines which signals it has sent so far. *)
Definition sentInv (c : runner.conf) : Prop :=
  match runner.gpc c with
  | runner.GSelect | runner.GForward _ => runner.sent c = []
  | runner.GTerm => runner.sent c = [] ∧ runner.ctxDone c = true
  | runner.GSleep | runner.GKill =>
      runner.sent c = [exec.SIGTERM] ∧ runner.ctxDone c = true
  | runner.GSendCtx =>
      runner.sent c = [exec.SIGTERM; exec.SIGKILL] ∧ runner.ctxDone c = true
  | runner.GEnd =>
      runner.sent c = []
      ∨ (runner.sent c = [exec.SIGTERM; exec.SIGKILL]
         ∧ runner.ctxDone c = true)
  end.

(** An uncancelled unit whose process exits with code 3, run to the end. *)
Definition plainRun : list runner.label :=
  [runner.exits (exec.exit_status 3); runner.main_wait; runner.main_watch;
   runner.main_send; runner.canc_recv; runner.canc_forward;
   runner.main_recv].

Definition plainEnd : runner.conf :=
  runner.mkConf (runner.MReturn (exec.Wait (exec.exit_status 3))) runner.GEnd
                runner.WEnd None false (Some (exec.exit_status 3)) [] [].

(** A cancelled unit whose process is reaped in time: the canceller's send
    finds the channel empty only after [runCommand] has received. *)
Definition promptReap : list runner.label :=
  [runner.cancel; runner.canc_done; runner.canc_term;
   runner.watch_done; runner.watch_kill;
   runner.exits (exec.signal_status exec.SIGTERM); runner.main_wait;
   runner.main_watch; runner.main_send; runner.main_recv;
   runner.canc_sleep; runner.canc_kill; runner.canc_send_ctx].

Definition promptEnd : runner.conf :=
  runner.mkConf (runner.MReturn (killedBy exec.SIGTERM)) runner.GEnd
                runner.WEnd (Some (Some exec.Canceled)) true
                (Some (exec.signal_status exec.SIGTERM))
                [exec.SIGTERM; exec.SIGKILL] [exec.SIGKILL].

(** The watcher of os/exec is the first to see the cancellation. *)
Definition killedFirst : list runner.label :=
  [runner.cancel; runner.watch_done; runner.watch_kill].

(** A unit cancelled just as its process finishes: the kill of os/exec
    goes out, the process exits with status 0 all the same, and
    [c.Wait()] returns the context's error. *)
Definition lostRace : list runner.label :=
  [runner.cancel; runner.watch_done; runner.watch_kill;
   runner.exits (exec.exit_status 0); runner.main_wait; runner.main_watch;
   runner.main_send; runner.main_recv].

Definition lostRaceEnd : runner.conf :=
  runner.mkConf (runner.MReturn (Some exec.Canceled)) runner.GSelect
                runner.WEnd None true (Some (exec.exit_status 0))
                [] [exec.SIGKILL].

(** No goroutine and not the process can take a step; only a [cancel]
    from outside could still happen. *)
Definition quiet (c : runner.conf) : Prop :=
  ∀ l, l ≠ runner.cancel → runner.fire l c = None.

(** Once the canceller has ended while the function has not yet sent, the
    context was cancelled. *)
Definition endInv (c : runner.conf) : Prop :=
  runner.gpc c = runner.GEnd →
  runner.ctxDone c = true ∨ runner.mpc c = runner.MRecv
  ∨ ∃ e, runner.mpc c = runner.MReturn e.

(** [runCommand] receives its own send back and returns while the canceller
    goroutine still waits in its [select]. *)
Definition ownReceive (w : exec.WaitStatus) : list runner.label :=
  [runner.exits w; runner.main_wait; runner.main_watch; runner.main_send;
   runner.main_recv].

Definition leftWaiting (w : exec.WaitStatus) : runner.conf :=
  runner.mkConf (runner.MReturn (exec.Wait w)) runner.GSelect
                runner.WEnd None false (Some w) [] [].

(** What the waiting canceller does once the context is cancelled. *)
Definition lateCancel : list runner.label :=
  [runner.cancel; runner.canc_done; runner.canc_term; runner.canc_sleep;
   runner.canc_kill].

(** ** Registrations *)

(** The number of projects a predicate accepts. *)
Definition accepted (shouldAdd : Project → bool) (ps : list Project) : nat :=
  length (List.filter shouldAdd ps).

(** A file system in which only [/ws/app] has a yarn.lock. *)
Definition yarnInApp : os.FS :=
  os.mkFS (λ name, if String.eqb name "/ws/app/yarn.lock" then os.StatOk
                   else os.ErrNotExist)
          (λ _, None) (λ _, ∅).

(** What [build] and [watch] leave in the registry: one unit per
    discovered project, run by yarn where the project has a yarn.lock and
    by npm elsewhere. *)
Definition oneEach (fs : os.FS) (found : list utils.File) (m : model)
    (yarnArgs npmArgs : list string) : Prop :=
  length (projects m) = length found
  ∧ ∀ i f, found !! i = Some f →
      ∃ p, projects m !! i
           = Some (mkProject (utils.Name f) (utils.Dir f) [p])
           ∧ heap m !! p
             = Some (if helpers.HasYarn fs
                          (mkProject (utils.Name f) (utils.Dir f) [])
                     then newCommand "yarn" yarnArgs
                     else newCommand "npm" npmArgs).

Definition discovered (env : Env) (found : list utils.File) : Prop :=
  ∃ wd, Getwd env = Some wd
        ∧ utils0.GetAllProjects (tree env) wd 0 = Some found
        ∧ found ≠ [].

(** A workspace with two projects. *)
Definition twoApps : Env :=
  mkEnv (Some "/ws")
        (FsDir "ws" true
           [FsDir "app" true manifests; FsDir "site" true manifests])
        (mkConfig true true false).

Definition twoAppsBuilt : model :=
  mkModel [mkProject "app" "/ws/app" [0]; mkProject "site" "/ws/site" [1]]
          [newCommand "yarn" ["build:prod"];
           newCommand "npm" ["run"; "build:prod"]]
          ∅ false true true false false.

(** The registry [qk composer install] builds for it, and that registry
    once the unit of the second project has finished. *)
Definition twoAppsRegistry : model :=
  views2.AddCommand "composer" ["install"]
    (mkModel (newProjects [utils.mkFile "app" "/ws/app";
                           utils.mkFile "site" "/ws/site"])
             [] ∅ false true true false false).

Definition twoAppsSiteDone : model :=
  mkModel [mkProject "app" "/ws/app" [0]; mkProject "site" "/ws/site" [1]]
          [newCommand "composer" ["install"];
           mkCommand "composer" ["install"] "finished" false ""]
          ∅ false true true false false.

Definition twoAppsComposer : model :=
  mkModel [mkProject "app" "/ws/app" [0]; mkProject "site" "/ws/site" [1]]
          [newCommand "composer" ["install"];
           newCommand "composer" ["install"]]
          ∅ false true true false false.

(** ** Chains of registrations *)

(** One call of [AddOptionalCommand]: predicate, script, arguments. *)
Definition registration : Type := (Project → bool) * string * list string.

Definition shouldAddOf (r : registration) : Project → bool := r.1.1.
Definition commandOf (r : registration) : Command := newCommand r.1.2 r.2.

(** The calls chained in the given order. *)
Fixpoint registerAll (rs : list registration) (m : model) : model :=
  match rs with
  | [] => m
  | r :: rs' =>
      registerAll rs' (views2.AddOptionalCommand r.1.1 r.1.2 r.2 m)
  end.

(** The predicate looks at a project's name and directory only. *)
Definition ignoresScripts (f : Project → bool) : Prop :=
  ∀ p q, f (appendScript q p) = f p.

(** The commands a project takes from a chain of registrations. *)
Definition taken (rs : list registration) (proj : Project) : list Command :=
  map commandOf (List.filter (λ r, shouldAddOf r proj) rs).

(** The units [qs] are the given commands, in this order. *)
Definition holds (h : list Command) (qs : list ptr) (cs : list Command)
    : Prop :=
  Forall2 (λ q c, h !! q = Some c) qs cs.

(** How a project's scripts are run: by yarn where it has a yarn.lock, by
    npm elsewhere. *)
Definition runScript (fs : os.FS) (proj : Project) (script : string)
    : Command :=
  if helpers.HasYarn fs proj then newCommand "yarn" [script]
  else newCommand "npm" ["run"; script].

(** What [watchScripts] is to register for a project. *)
Definition watched (fs : os.FS) (proj : Project) : list Command :=
  let start := helpers.HasScript fs "start" proj in
  let watchDev := helpers.HasScript fs "watch:dev" proj in
  let dev := helpers.HasScript fs "dev" proj in
  (if start && negb watchDev && negb dev
   then [runScript fs proj "start"] else [])
  ++ (if watchDev then [runScript fs proj "watch:dev"] else [])
  ++ (if dev then [runScript fs proj "dev"] else []).

(** What [install] is to register for a project. *)
Definition installed (fs : os.FS) (proj : Project) : list Command :=
  [if helpers.HasYarn fs proj then newCommand "yarn" []
   else newCommand "npm" ["install"];
   newCommand "composer" ["install"]].

(** A file system in which [/ws/app] has a yarn.lock and a package.json
    with the scripts watch:dev and dev. *)
Definition devApp : os.FS :=
  os.mkFS (λ name, if String.eqb name "/ws/app/yarn.lock" then os.StatOk
                   else os.ErrNotExist)
          (λ name, if String.eqb name "/ws/app/package.json"
                   then Some "app" else None)
          (λ file, if String.eqb file "app"
                   then {[ "watch:dev" := "vite"; "dev" := "vite --open" ]}
                   else ∅).

Definition appRegistry : model :=
  mkModel [mkProject "app" "/ws/app" []] [] ∅ false true true false false.

(** ** Distances in the directory tree *)

(** [Below root dir k n path]: the node [n] at [path] lies [k] directory
    levels below [root], itself at [dir]. *)
Inductive Below : fsnode → string → nat → fsnode → string → Prop :=
  | below_here n dir : Below n dir 0 n dir
  | below_step name readable files dir file k n path :
      file ∈ files →
      Below file (path_Join dir (node_name file)) k n path →
      Below (FsDir name readable files) dir (S k) n path.

(** [os.ReadDir] fails on it: a plain file or an unreadable directory. *)
Definition unreadable (n : fsnode) : Prop :=
  match n with
  | FsDir _ true _ => False
  | _ => True
  end.

(** The walk aborts: it leads to a call on something [os.ReadDir] cannot
    read. *)
Definition Fails (depth : Z) (node : fsnode) (dir : string) (level : Z)
    : Prop :=
  ∃ node' dir' level',
    Reaches depth node dir level node' dir' level' ∧ unreadable node'.

Definition recFails (depth : Z)
    (rec : fsnode → string → Z → Z → list utils.File * option (list utils.File))
    (file : fsnode) : Prop :=
  ∀ dir level,
    (rec file dir depth level).2 = None ↔ Fails depth file dir level.

(** The loop of the earlier [GetAllProjects(dir, level)], with the
    recursive call as [rec]. *)
Definition scanDir0 (rec : fsnode → string → Z → option (list utils.File))
    (dir : string) (level : Z)
    : list fsnode → list utils.File → option (list utils.File) :=
  fix loop (files : list fsnode) (projects : list utils.File) :=
    match files with
    | [] => Some projects
    | file :: rest =>
        match file with
        | FsFile _ => loop rest projects
        | FsDir name _ _ =>
            let projectDir := path_Join dir name in
            if negb (utils.IsProject file) then
              if (level <? 3)%Z
                 && negb (utils.Contains utils.BLACKLIST name) then
                match rec file projectDir (level + 1)%Z with
                | None => None
                | Some found => loop rest (projects ++ found)
                end
              else loop rest projects
            else loop rest (projects ++ [utils.mkFile name projectDir])
        end
    end.

(** Nesting of directories: a file counts 0, a directory one more than its
    deepest entry. *)
Fixpoint height (n : fsnode) : nat :=
  match n with
  | FsFile _ => 0
  | FsDir _ _ entries => S (foldr (λ e acc, max (height e) acc) 0 entries)
  end.

(** Names as [os.ReadDir] reports them: not empty and without a slash. *)
Fixpoint slashFree (s : string) : bool :=
  match s with
  | EmptyString => true
  | String c s' => negb (Ascii.eqb c "/") && slashFree s'
  end.

Definition entryName (s : string) : bool :=
  negb (String.eqb s "") && slashFree s.

Fixpoint wellNamed (n : fsnode) : bool :=
  match n with
  | FsFile _ => true
  | FsDir _ _ entries =>
      forallb (λ e, entryName (node_name e) && wellNamed e) entries
  end.

(** What the earlier walk may return, seen from a call at [level]. *)
Definition Sound0 (node : fsnode) (dir : string) (level : Z) (f : utils.File)
    : Prop :=
  ∃ n k, Below node dir k n (utils.Dir f)
         ∧ utils.IsProject n = true
         ∧ utils.Name f = (if (k =? 0)%nat then path_Base dir else node_name n)
         ∧ ((k ≤ 1)%nat ∨ (level + Z.of_nat k ≤ 4)%Z).

(** ** What a scanner goroutine forwards *)

(** The lines scanned before the first iteration that finds the context
    done. *)
Fixpoint untilDone (scanned : list (bool * string)) : list string :=
  match scanned with
  | [] => []
  | (ctxDone, line) :: rest => if ctxDone then [] else line :: untilDone rest
  end.

Definition plainStyles : render.Styles :=
  render.mkStyles "QK Command Runner  v0.1.0" " | " "v " "x " (λ s, s)
                  (λ s, s) (λ s, s) (λ _, "* ")
                  (λ _ c, Script c +:+ " " +:+ Status c)
                  "2.31s" "1.2s" (λ _, "? toggle help, q quit").

(** One project whose only unit was cancelled, and one without units. *)
Definition exitedAndIdle : model :=
  mkModel [mkProject "a" "/ws/a" [0]; mkProject "b" "/ws/b" []]
          [mkCommand "yarn" ["start"] "exited" true ""]
          ∅ true true true false false.

(** * Properties *)


(** ** The list helpers *)

Lemma Some__spec {T : Type} (ts : list T) (pred : T → bool) :
  utils.Some_ ts pred = true ↔ ∃ t, t ∈ ts ∧ pred t = true.
Proof.
  induction ts as [|a ts IH]; simpl.
  - split; [discriminate|]. intros (t & Hin & _). inversion Hin.
  - destruct (pred a) eqn:Ha.
    + split; [|done]. intros _. exists a. split; [left|done].
    + rewrite IH. split.
      * intros (t & Hin & Ht). exists t. split; [by right|done].
      * intros (t & Hin & Ht). inversion Hin; subst; [congruence|eauto].
Qed.

Lemma All_spec {T : Type} (ts : list T) (pred : T → bool) :
  utils.All ts pred = true ↔ ∀ t, t ∈ ts → pred t = true.
Proof.
  induction ts as [|a ts IH]; simpl.
  - split; [|done]. intros _ t Hin. inversion Hin.
  - destruct (pred a) eqn:Ha; simpl.
    + rewrite IH. split.
      * intros H t Hin. inversion Hin; subst; auto.
      * intros H t Hin. apply H. by right.
    + split; [discriminate|]. intros H. rewrite <- Ha. apply H. left.
Qed.

(** ** The registry aggregates *)

Lemma elem_of_units (m : model) (p : ptr) :
  p ∈ units m ↔ ∃ project, project ∈ projects m ∧ p ∈ Scripts project.
Proof.
  unfold units. induction (projects m) as [|a ps IH]; simpl.
  - split; [intros H; inversion H|]. intros (project & H & _). inversion H.
  - rewrite elem_of_app, IH. split.
    + intros [H|(project & Hin & H)]; [exists a|exists project];
        (split; [|done]); [left|by right].
    + intros (project & Hin & H). apply elem_of_cons in Hin as [->|Hin]; eauto.
Qed.

Lemma anyStatus_spec (m : model) (s : string) :
  anyStatus m s = true ↔ ∃ p, p ∈ units m ∧ status_at (heap m) p = s.
Proof.
  unfold anyStatus. rewrite Some__spec. split.
  - intros (project & Hin & H). apply Some__spec in H as (p & Hp & Heq).
    apply String.eqb_eq in Heq. exists p. split; [|done].
    apply elem_of_units. eauto.
  - intros (p & Hp & Heq). apply elem_of_units in Hp as (project & Hin & Hp).
    exists project. split; [done|]. apply Some__spec. exists p. split; [done|].
    by apply String.eqb_eq.
Qed.

Lemma anyStatus_ext (m m' : model) (s : string) :
  projects m' = projects m → heap m' = heap m → anyStatus m' s = anyStatus m s.
Proof. unfold anyStatus. by intros -> ->. Qed.

Lemma terminal_not_running (s : string) : terminal s → s ≠ "running".
Proof. intros [->|[->| ->]]; discriminate. Qed.

Lemma finishedStatus_cases (err : option exec.error) :
  finishedStatus err = "finished" ∨ finishedStatus err = "failed"
  ∨ finishedStatus err = "exited".
Proof.
  unfold finishedStatus. destruct err as [e|]; [|by left].
  destruct (wasKilledBySignal (Some e)) as [[] ?]; auto.
Qed.

Lemma finishedStatus_terminal (err : option exec.error) :
  terminal (finishedStatus err).
Proof. apply finishedStatus_cases. Qed.

(** ** The [commandFinishedMessage] case *)

Lemma onCommandFinished_spec (m : model) (i j : nat) (err : option exec.error)
    (m' : model) (c : Cmd) :
  onCommandFinished m i j err = Some (m', c) →
  ∃ script,
    target m i j = Some script
    ∧ projects m' = projects m
    ∧ heap m' = alter (set_Status (finishedStatus err)) script (heap m)
    ∧ liveOutput m' = liveOutput m
    ∧ done m' = negb (anyStatus m' "running")
    ∧ c = (if anyStatus m' "running" then CmdNil
           else Batch [doneCmd (negb (anyStatus m' "failed")); stopwatchCmd]).
Proof.
  unfold onCommandFinished, target.
  destruct (projects m !! i) as [project|]; simpl; [|discriminate].
  destruct (Scripts project !! j) as [script|]; simpl; [|discriminate].
  set (h := alter _ script (heap m)).
  set (m1 := set_done true (set_heap h m)).
  assert (Hany : ∀ s b, anyStatus (set_done b m1) s = anyStatus m1 s)
    by (intros; by apply anyStatus_ext).
  destruct (anyStatus m1 "running") eqn:Hrun; intros [= <- <-]; exists script.
  - rewrite Hany, Hrun. done.
  - rewrite Hrun. repeat split; try done; simpl;
      by destruct (anyStatus m1 "failed").
Qed.

Lemma onCommandFinished_is_Some (m : model) (i j : nat) (err : option exec.error) :
  is_Some (onCommandFinished m i j err) ↔ is_Some (target m i j).
Proof.
  unfold onCommandFinished, target.
  destruct (projects m !! i) as [project|]; simpl; [|done].
  destruct (Scripts project !! j) as [script|]; simpl; [|done].
  split; intros _; [done|].
  match goal with |- context [if ?b then _ else _] => destruct b end; [done|].
  simpl. done.
Qed.

Lemma status_at_alter (h : list Command) (script p : ptr) (s : string) :
  status_at (alter (set_Status s) script h) p =
  if decide (p = script) then (if decide (script < length h) then s else "")
  else status_at h p.
Proof.
  unfold status_at. destruct (decide (p = script)) as [->|Hne].
  - rewrite list_lookup_alter_eq. destruct (h !! script) as [c|] eqn:E; simpl.
    + apply lookup_lt_Some in E. by rewrite decide_True.
    + apply lookup_ge_None in E. by rewrite decide_False by lia.
  - rewrite list_lookup_alter_ne by done. done.
Qed.


Lemma onCommandFinished_statusOk (m : model) (i j : nat)
    (err : option exec.error) (m' : model) (c : Cmd) :
  statusOk m → onCommandFinished m i j err = Some (m', c) → statusOk m'.
Proof.
  intros Hok H. pose proof H as Hspec.
  apply onCommandFinished_spec in Hspec as (script & Ht & Hps & Hh & _).
  intros p Hp. assert (Hp' : p ∈ units m).
  { apply elem_of_units. apply elem_of_units in Hp. by rewrite <- Hps. }
  rewrite Hh, status_at_alter. destruct (decide (p = script)) as [->|Hne].
  - destruct (decide (script < length (heap m))) as [Hlt|Hge].
    + right. apply finishedStatus_terminal.
    + specialize (Hok script Hp'). unfold status_at in Hok.
      rewrite lookup_ge_None_2 in Hok by lia.
      destruct Hok as [?|[?|[?|?]]]; discriminate.
  - by apply Hok.
Qed.

(** ** Runs of outcome events

    Both versions of [Update] hand a [commandFinishedMessage] to the same
    code; the lemmas of this section hold for any such [upd]. *)

Section Runs.

Variable upd : model → Msg → option (model * Cmd).
Hypothesis upd_finished : ∀ m i j err,
  upd m (commandFinishedMessage i j err) = onCommandFinished m i j err.

Lemma run_cons_inv (m : model) (msg : Msg) (msgs : list Msg)
    (m'' : model) (cs : list Cmd) :
  run upd m (msg :: msgs) = Some (m'', cs) →
  ∃ m' c cs', upd m msg = Some (m', c) ∧ run upd m' msgs = Some (m'', cs')
              ∧ cs = c :: cs'.
Proof.
  simpl. destruct (upd m msg) as [[m' c]|]; [|discriminate].
  destruct (run upd m' msgs) as [[m3 cs']|] eqn:Hrest; [|discriminate].
  intros [= <- <-]. by exists m', c, cs'.
Qed.






End Runs.

Lemma either_Update_finished (upd : model → Msg → option (model * Cmd)) :
  upd = views.Update ∨ upd = views2.Update →
  ∀ m i j err, upd m (commandFinishedMessage i j err) = onCommandFinished m i j err.
Proof. by intros [-> | ->]. Qed.


Lemma allTerminal_no_running (m : model) :
  allTerminal m → anyStatus m "running" = false.
Proof.
  intros Hall. apply not_true_iff_false. rewrite anyStatus_spec.
  intros (p & Hp & Hr). by apply (terminal_not_running _ (Hall p Hp)).
Qed.

(** ** C1: the success fold *)

(** C1.  When an outcome event leaves every unit terminal, both versions of
    [Update] return the batch holding [done(success)], and [success] is
    true exactly when no unit's status is "failed"; in particular a
    registry of "finished" and "exited" units yields [success = true]. *)
Theorem success_fold (upd : model → Msg → option (model * Cmd))
    (m : model) (i j : nat) (err : option exec.error) (m' : model) (c : Cmd) :
  upd = views.Update ∨ upd = views2.Update →
  upd m (commandFinishedMessage i j err) = Some (m', c) →
  allTerminal m' →
  ∃ success : bool,
    c = Batch [doneCmd success; stopwatchCmd]
    ∧ (success = true ↔ ¬ anyFailed m')
    ∧ ((∀ p, p ∈ units m' → status_at (heap m') p = "finished"
                             ∨ status_at (heap m') p = "exited")
       → success = true).
Proof.
  intros Hupd H Hall. rewrite (either_Update_finished upd Hupd) in H.
  apply onCommandFinished_spec in H as (script & _ & _ & _ & _ & _ & ->).
  rewrite (allTerminal_no_running m' Hall).
  exists (negb (anyStatus m' "failed")). split; [done|].
  assert (Hiff : negb (anyStatus m' "failed") = true ↔ ¬ anyFailed m').
  { rewrite negb_true_iff, <- not_true_iff_false, anyStatus_spec. done. }
  split; [done|]. intros Hfe. apply Hiff. intros (p & Hp & Hf).
  destruct (Hfe p Hp) as [Heq|Heq]; rewrite Heq in Hf; discriminate.
Qed.

(** C1 at a run of one unit whose process is ended by SIGTERM: the unit is
    "exited" and the run succeeds. *)
Lemma success_fold_witness :
  ∃ success : bool,
    Batch [doneCmd true; stopwatchCmd] = Batch [doneCmd success; stopwatchCmd]
    ∧ (success = true ↔ ¬ anyFailed (set_done true (oneUnit "exited")))
    ∧ ((∀ p, p ∈ units (set_done true (oneUnit "exited")) →
             status_at (heap (set_done true (oneUnit "exited"))) p = "finished"
             ∨ status_at (heap (set_done true (oneUnit "exited"))) p = "exited")
       → success = true).
Proof.
  apply (success_fold views.Update (oneUnit "running") 0 0
           (killedBy exec.SIGTERM)).
  - by left.
  - reflexivity.
  - intros p Hp. apply list_elem_of_singleton in Hp. subst p.
    right; right; reflexivity.
Defined.

(** ** C2: completion *)



(** ** C3: classification of an outcome *)

Lemma wasKilledBySignal_spec (err : option exec.error) :
  (wasKilledBySignal err).1 = true ↔ signalKill err.
Proof.
  unfold signalKill. destruct err as [[sys state| |msg]|]; simpl.
  - destruct sys as [w|].
    + destruct (exec.Signaled w) eqn:Hs; simpl.
      * split; [|done]. intros _. exists (Some w), state. split; [done|].
        left. by exists w.
      * split; [done|]. intros (sys & st & [= <- <-] & [(w' & [= <-] & Hw)|[[=] _]]).
        congruence.
    + destruct state as [code|]; simpl.
      * destruct (code =? -1)%Z eqn:Hc; simpl.
        -- apply Z.eqb_eq in Hc. subst code. split; [|done]. intros _.
           exists None, (Some (-1)%Z). split; [done|]. by right.
        -- apply Z.eqb_neq in Hc. split; [done|].
           intros (sys & st & [= <- <-] & [(w' & [=] & _)|[_ [= Hst]]]).
           congruence.
      * split; [done|].
        intros (sys & st & [= <- <-] & [(w' & [=] & _)|[_ [=]]]).
  - split; [done|]. intros (? & ? & [=] & _).
  - split; [done|]. intros (? & ? & [=] & _).
  - split; [done|]. intros (? & ? & [=] & _).
Qed.

Lemma finishedStatus_finished (err : option exec.error) :
  finishedStatus err = "finished" ↔ err = None.
Proof.
  unfold finishedStatus. destruct err as [e|]; [|done].
  destruct (wasKilledBySignal (Some e)) as [[] ?]; split; discriminate.
Qed.

Lemma finishedStatus_exited (err : option exec.error) :
  finishedStatus err = "exited" ↔ signalKill err.
Proof.
  rewrite <- wasKilledBySignal_spec. unfold finishedStatus.
  destruct err as [e|]; [|split; discriminate].
  destruct (wasKilledBySignal (Some e)) as [[] ?]; simpl; split; done.
Qed.

Lemma finishedStatus_failed (err : option exec.error) :
  finishedStatus err = "failed" ↔ err ≠ None ∧ ¬ signalKill err.
Proof.
  rewrite <- wasKilledBySignal_spec. unfold finishedStatus.
  destruct err as [e|]; [|split; [discriminate|intros [[] _]; done]].
  destruct (wasKilledBySignal (Some e)) as [[] ?]; simpl; split;
    try done; intros [_ H]; by destruct H.
Qed.

Lemma finishedStatus_Wait (w : exec.WaitStatus) :
  finishedStatus (exec.Wait w) =
  if exec.Exited w && (exec.ExitStatus w =? 0)%Z then "finished"
  else if exec.Signaled w then "exited" else "failed".
Proof.
  unfold exec.Wait. destruct (exec.Exited w && _); [done|].
  unfold finishedStatus, wasKilledBySignal. simpl.
  by destruct (exec.Signaled w).
Qed.

Lemma onCommandFinished_target (m : model) (i j : nat)
    (err : option exec.error) (m' : model) (c : Cmd) (p : ptr) :
  onCommandFinished m i j err = Some (m', c) →
  target m i j = Some p → p < length (heap m) →
  status_at (heap m') p = finishedStatus err.
Proof.
  intros H Ht Hlt. apply onCommandFinished_spec in H as (script & Ht' & _ & -> & _).
  assert (script = p) as -> by congruence.
  rewrite status_at_alter, decide_True by done. by rewrite decide_True.
Qed.

(** C3 (amended).  For every outcome event, the status written to the
    addressed unit is "finished" exactly when the error is nil, "exited"
    exactly when the error is an exit error whose wait status reports
    termination by a signal (any signal, whoever sent it) or, without a wait
    status, exit code -1, and "failed" for every other error; for a process
    reaped with wait status [w] this is decided from [w] alone. *)
Theorem outcome_classification (upd : model → Msg → option (model * Cmd))
    (m : model) (i j : nat) (err : option exec.error) (m' : model) (c : Cmd)
    (p : ptr) :
  upd = views.Update ∨ upd = views2.Update →
  upd m (commandFinishedMessage i j err) = Some (m', c) →
  target m i j = Some p →
  p < length (heap m) →
  status_at (heap m') p = finishedStatus err
  ∧ (finishedStatus err = "finished" ↔ err = None)
  ∧ (finishedStatus err = "exited" ↔ signalKill err)
  ∧ (finishedStatus err = "failed" ↔ err ≠ None ∧ ¬ signalKill err)
  ∧ (∀ w, err = exec.Wait w →
          finishedStatus err =
          if exec.Exited w && (exec.ExitStatus w =? 0)%Z then "finished"
          else if exec.Signaled w then "exited" else "failed").
Proof.
  intros Hupd H Ht Hlt. rewrite (either_Update_finished upd Hupd) in H.
  split; [by eapply onCommandFinished_target|].
  split; [apply finishedStatus_finished|].
  split; [apply finishedStatus_exited|].
  split; [apply finishedStatus_failed|].
  intros w ->. apply finishedStatus_Wait.
Qed.

(** C3 (amended) at a process that exits with code 2. *)
Lemma outcome_classification_witness :
  status_at (heap (set_done true (oneUnit "failed"))) 0
  = finishedStatus (exec.Wait (exec.exit_status 2))
  ∧ (finishedStatus (exec.Wait (exec.exit_status 2)) = "finished"
     ↔ exec.Wait (exec.exit_status 2) = None)
  ∧ (finishedStatus (exec.Wait (exec.exit_status 2)) = "exited"
     ↔ signalKill (exec.Wait (exec.exit_status 2)))
  ∧ (finishedStatus (exec.Wait (exec.exit_status 2)) = "failed"
     ↔ exec.Wait (exec.exit_status 2) ≠ None
       ∧ ¬ signalKill (exec.Wait (exec.exit_status 2)))
  ∧ (∀ w, exec.Wait (exec.exit_status 2) = exec.Wait w →
          finishedStatus (exec.Wait (exec.exit_status 2)) =
          if exec.Exited w && (exec.ExitStatus w =? 0)%Z then "finished"
          else if exec.Signaled w then "exited" else "failed").
Proof.
  apply (outcome_classification views.Update (oneUnit "running") 0 0
           (exec.Wait (exec.exit_status 2))
           (set_done true (oneUnit "failed"))
           (Batch [doneCmd false; stopwatchCmd]) 0).
  - by left.
  - reflexivity.
  - reflexivity.
  - simpl. lia.
Defined.

(** C3 as worded fails: a process that dies of a segmentation fault, in a
    unit nobody cancelled, is classified "exited" although no signal was
    sent. *)
Lemma exited_without_own_signal : ¬ exitedOnlyByOwnSignal.
Proof.
  intros H.
  destruct (H (runner.mkConf
                 (runner.MReturn (killedBy exec.SIGSEGV)) runner.GSelect
                 runner.WEnd None false
                 (Some (exec.signal_status exec.SIGSEGV)) [] [])
              (killedBy exec.SIGSEGV)) as (w & _ & Hin).
  - exists [runner.exits (exec.signal_status exec.SIGSEGV);
            runner.main_wait; runner.main_watch; runner.main_send;
            runner.main_recv].
    reflexivity.
  - reflexivity.
  - reflexivity.
  - simpl in Hin. inversion Hin.
Qed.

(** ** C4: the supervision protocol *)

Lemma reachable_ind (P : runner.conf → Prop) :
  P runner.init →
  (∀ l c c', P c → runner.fire l c = Some c' → P c') →
  ∀ c, runner.reachable c → P c.
Proof.
  intros Hinit Hstep c [ls Hls]. revert Hinit Hls. generalize runner.init.
  induction ls as [|l ls IH]; intros c0 H0; simpl.
  - by intros [= <-].
  - destruct (runner.fire l c0) as [c1|] eqn:Hf; [|discriminate].
    apply IH. by eapply Hstep.
Qed.

Lemma watchInv_fire (l : runner.label) (c c' : runner.conf) :
  watchInv c → runner.fire l c = Some c' → watchInv c'.
Proof.
  intros Hinv Hf. destruct c as [m g w ch d p s x].
  unfold watchInv in Hinv. simpl in Hinv.
  destruct l; simpl in Hf; fire_inv Hf; injection Hf as <-;
    unfold watchInv; simpl; try done.
  all: try (by destruct w; close_inv).
  all: try (by close_inv).
  all: match goal with |- ?G => idtac "GOAL" G end.
  all: match goal with H : _ |- _ => idtac H end.
Qed.

Lemma waitInv_fire (l : runner.label) (c c' : runner.conf) :
  watchInv c → waitInv c → runner.fire l c = Some c' → waitInv c'.
Proof.
  intros Hw Hinv Hf. destruct c as [m g w ch d p s x].
  unfold waitInv, waited, watchInv in *. simpl in *.
  destruct l; try destruct w; simpl in Hf; try discriminate Hf; fire_inv Hf;
    injection Hf as <-; unfold waitInv, waited; simpl; try done.
  all: try (by destruct m; close_inv).
  all: try (by close_inv).
  all: eexists; (split; [reflexivity|]); unfold exec.WaitContext;
    destruct (exec.Wait _) eqn:?; close_inv.
Qed.

Lemma chanInv_fire (l : runner.label) (c c' : runner.conf) :
  chanInv c → runner.fire l c = Some c' → chanInv c'.
Proof.
  intros Hinv Hf. destruct c as [m g w ch d p s x].
  unfold chanInv in Hinv. simpl in Hinv.
  destruct l; simpl in Hf; fire_inv Hf; injection Hf as <-;
    unfold chanInv; simpl; try done;
    try destruct m; try destruct g; simpl in *; split_hyps; eauto; done.
Qed.

Lemma reachable_watchInv (c : runner.conf) : runner.reachable c → watchInv c.
Proof.
  revert c. apply reachable_ind; [|apply watchInv_fire].
  split; [done|by left].
Qed.

Lemma reachable_waitInv (c : runner.conf) : runner.reachable c → waitInv c.
Proof.
  intros Hr. cut (watchInv c ∧ waitInv c); [by intros [_ H]|].
  revert c Hr. apply reachable_ind.
  - split; [split; [done|by left]|exact I].
  - intros l c c' [Hw Hi] Hf.
    split; [by eapply watchInv_fire|by eapply waitInv_fire].
Qed.

Lemma reachable_chanInv (c : runner.conf) : runner.reachable c → chanInv c.
Proof. revert c. apply reachable_ind; [done|]. apply chanInv_fire. Qed.

(** X3.  What [runCommand] reports.  Whenever it returns, the error in its
    message is what [c.Wait()] returned for the reaped process: the
    process's own result, or, only for a process that exited with status 0
    after the context was cancelled and the kill of os/exec had gone out,
    the context's error.  A process that did not exit with status 0 is
    always reported with its own exit error, cancelled or not. *)
Lemma runCommand_returns_wait_result (c : runner.conf)
    (finalErr : option exec.error) :
  runner.reachable c →
  runner.mpc c = runner.MReturn finalErr →
  ∃ w, runner.proc c = Some w
       ∧ (finalErr = exec.Wait w
          ∨ (exec.Wait w = None ∧ finalErr = Some exec.Canceled
             ∧ runner.ctxDone c = true
             ∧ runner.execSent c = [exec.SIGKILL]))
       ∧ (exec.Wait w ≠ None → finalErr = exec.Wait w).
Proof.
  intros Hr Hm. pose proof (reachable_waitInv c Hr) as Hinv.
  unfold waitInv in Hinv. rewrite Hm in Hinv.
  destruct Hinv as (w & Hp & Hw). exists w. split; [done|]. split; [done|].
  intros Hne. by destruct Hw as [->|(He & _)].
Qed.

(** X4.  The only way the protocol comes to a halt without [runCommand] having
    returned: the function is at its send while the channel holds the
    context's error and the canceller has ended. *)
Lemma stuck_only_behind_canceller (c : runner.conf) :
  runner.reachable c → runner.stuck c →
  (∃ finalErr, runner.mpc c = runner.MReturn finalErr)
  ∨ (∃ errWait, runner.mpc c = runner.MSend errWait)
    ∧ runner.waitChan c = Some (Some exec.Canceled)
    ∧ runner.gpc c = runner.GEnd
    ∧ runner.ctxDone c = true.
Proof.
  intros Hr Hs.
  pose proof (reachable_chanInv c Hr) as Hinv.
  pose proof (reachable_watchInv c Hr) as Hw.
  destruct c as [m g w ch d p s x]. unfold chanInv, watchInv in *.
  simpl in *.
  assert (Hd : d = true).
  { destruct d; [done|]. by pose proof (Hs runner.cancel). }
  assert (Hp : ∃ st, p = Some st).
  { destruct p as [st|]; [by eauto|]. by pose proof (Hs (runner.exits 0%Z)). }
  destruct Hp as [st ->]. subst d. destruct m as [| |e| |e].
  - by pose proof (Hs runner.main_wait).
  - destruct w as [| |err|].
    + by pose proof (Hs runner.main_watch).
    + by pose proof (Hs runner.watch_gone).
    + by pose proof (Hs runner.main_watch).
    + by destruct Hw as (_ & Hw & _).
  - right. destruct ch as [y|]; [|by pose proof (Hs runner.main_send)].
    destruct g; try done. split; [by eauto|]. by split.
  - destruct ch as [y|]; [by pose proof (Hs runner.main_recv)|].
    destruct g; try (by destruct Hinv). by pose proof (Hs runner.canc_forward).
  - left. by eauto.
Qed.

(** Every step of the protocol uses up one of the steps left. *)
Lemma fire_stepsLeft (l : runner.label) (c c' : runner.conf) :
  runner.fire l c = Some c' → stepsLeft c' < stepsLeft c.
Proof.
  intros Hf. destruct c as [m g w ch d p s x].
  destruct l; simpl in Hf; fire_inv Hf; injection Hf as <-;
    unfold stepsLeft; simpl; try lia;
    try destruct m; try destruct g; try destruct w; try destruct d;
    try destruct p; simpl in *; try discriminate; lia.
Qed.

(** X5.  Every execution of the protocol is finite: from any configuration
    at most [stepsLeft] steps can follow, thirteen from the start. *)
Lemma fires_bounded (ls : list runner.label) (c c' : runner.conf) :
  runner.fires ls c = Some c' → (length ls + stepsLeft c' ≤ stepsLeft c)%nat.
Proof.
  revert c. induction ls as [|l ls IH]; intros c; simpl.
  - intros [= <-]. lia.
  - destruct (runner.fire l c) as [c1|] eqn:Hf; [|discriminate].
    intros H. apply IH in H. apply fire_stepsLeft in Hf. lia.
Qed.

(** C4.  After a cancellation, if the canceller goroutine has put
    [ctx.Err()] into the one-slot [waitChan] before [c.Wait()] returns,
    [runCommand] blocks on its own send for ever: both signals have been
    sent, the process is dead, nothing has been returned and no step is
    possible. *)
Theorem cancelled_runCommand_can_block :
  runner.fires lateReap runner.init = Some blocked
  ∧ runner.ctxDone blocked = true
  ∧ runner.sent blocked = [exec.SIGTERM; exec.SIGKILL]
  ∧ runner.returned 0 0 blocked = None
  ∧ runner.stuck blocked.
Proof.
  repeat split. intros l. by destruct l.
Qed.

(** ** C5: spawn failure *)






(** ** C6: the live-output buffer *)

Lemma lastN_length {A : Type} (n : nat) (l : list A) : (length (lastN n l) ≤ n)%nat.
Proof. unfold lastN. rewrite length_drop. lia. Qed.

Lemma lastN_short {A : Type} (n : nat) (l : list A) :
  (length l ≤ n)%nat → lastN n l = l.
Proof. unfold lastN. intros H. by replace (length l - n) with 0 by lia. Qed.

Lemma lastN_app_lastN {A : Type} (n : nat) (l k : list A) :
  lastN n (lastN n l ++ k) = lastN n (l ++ k).
Proof.
  unfold lastN. rewrite !length_app, length_drop.
  destruct (decide (length l ≤ n)%nat) as [Hle|Hgt].
  - replace (length l - n) with 0 by lia. by rewrite Nat.sub_0_r.
  - replace (length l - (length l - n) + length k - n) with (length k) by lia.
    replace (length l + length k - n) with ((length l - n) + length k) by lia.
    rewrite <- drop_drop. by rewrite (drop_app_le l k) by lia.
Qed.

Lemma onCommandOutput_buffer (m : model) (i j : nat) (output key : string) :
  buffer (views2.onCommandOutput m i j output).1 key =
  if String.eqb (views2.outputKey i j) key
  then lastN views2.maxLines (buffer m key ++ [output])
  else buffer m key.
Proof.
  unfold views2.onCommandOutput, buffer. simpl.
  destruct (String.eqb_spec (views2.outputKey i j) key) as [<-|Hne].
  - rewrite lookup_insert_eq. simpl. unfold lastN.
    destruct (views2.maxLines <? _)%nat eqn:Hlt; [done|].
    apply Nat.ltb_ge in Hlt.
    match goal with |- _ = drop ?n _ => replace n with 0 by lia end. done.
  - by rewrite lookup_insert_ne.
Qed.

Lemma onKey_liveOutput (m : model) (k : string) :
  liveOutput (onKey m k).1 = liveOutput m.
Proof.
  unfold onKey. repeat match goal with
                       | |- context [if ?b then _ else _] => destruct b
                       end; done.
Qed.

Lemma views2_Update_buffer (m : model) (msg : Msg) (m' : model) (c : Cmd)
    (key : string) :
  views2.Update m msg = Some (m', c) →
  buffer m' key = lastN views2.maxLines (buffer m key ++ linesFor key [msg])
  ∨ (linesFor key [msg] = [] ∧ buffer m' key = buffer m key).
Proof.
  destruct msg as [k| | |i j err|s|i j output|]; intros H;
    unfold views2.Update in H.
  - right. split; [done|]. injection H as H. unfold buffer.
    by rewrite <- (onKey_liveOutput m k), H.
  - injection H as <- <-. by right.
  - unfold onSpinnerTick in H. injection H as <- <-. by right.
  - apply onCommandFinished_spec in H as (_ & _ & _ & _ & Hlo & _).
    right. unfold buffer. by rewrite Hlo.
  - injection H as <- <-. by right.
  - assert (Heq : views2.onCommandOutput m i j output = (m', c))
      by congruence.
    pose proof (onCommandOutput_buffer m i j output key) as Hb.
    rewrite Heq in Hb. simpl in Hb. rewrite Hb. simpl.
    destruct (String.eqb (views2.outputKey i j) key); [by left|by right].
  - injection H as <- <-. by right.
Qed.

Lemma linesFor_cons (key : string) (msg : Msg) (msgs : list Msg) :
  linesFor key (msg :: msgs) = linesFor key [msg] ++ linesFor key msgs.
Proof.
  destruct msg; simpl; try done.
  by destruct (String.eqb _ key).
Qed.

Lemma run_buffer (msgs : list Msg) (m m' : model) (cs : list Cmd) :
  (∀ k, (length (buffer m k) ≤ views2.maxLines)%nat) →
  run views2.Update m msgs = Some (m', cs) →
  ∀ key, buffer m' key
         = lastN views2.maxLines (buffer m key ++ linesFor key msgs).
Proof.
  revert m cs. induction msgs as [|msg msgs IH]; intros m cs Hcap Hrun key.
  - injection Hrun as <- <-. simpl. rewrite app_nil_r.
    symmetry. by apply lastN_short.
  - apply run_cons_inv in Hrun as (m1 & c & cs' & Hupd & Hrun & ->).
    assert (Hstep := λ k, views2_Update_buffer m msg m1 c k Hupd).
    assert (Hcap1 : ∀ k, (length (buffer m1 k) ≤ views2.maxLines)%nat).
    { intros k. destruct (Hstep k) as [->|[_ ->]]; [apply lastN_length|done]. }
    rewrite (IH m1 cs' Hcap1 Hrun key), linesFor_cons.
    destruct (Hstep key) as [->|[-> ->]]; [|done].
    by rewrite lastN_app_lastN, <- app_assoc.
Qed.

(** Distinct units have distinct keys. *)
Lemma pretty_N_char_no_dash (x : N) : Ascii.eqb (pretty_N_char x) "-" = false.
Proof. unfold pretty_N_char. by repeat case_match. Qed.

Lemma pretty_N_go_dashFree (x : N) (s : string) :
  dashFree s = true → dashFree (pretty_N_go x s) = true.
Proof.
  revert s. induction (N.lt_wf_0 x) as [x _ IH]; intros s Hs.
  destruct (decide (x = 0)%N) as [->|Hx]; [by rewrite pretty_N_go_0|].
  rewrite pretty_N_go_step by lia. apply IH; [apply N.div_lt; lia|].
  simpl. by rewrite pretty_N_char_no_dash, Hs.
Qed.

Lemma pretty_nat_dashFree (n : nat) : dashFree (pretty n) = true.
Proof.
  unfold pretty, pretty_nat, pretty, pretty_N.
  case_decide; [done|]. by apply pretty_N_go_dashFree.
Qed.

Lemma dash_split (a a' b b' : string) :
  dashFree a = true → dashFree a' = true →
  a +:+ "-" +:+ b = a' +:+ "-" +:+ b' → a = a' ∧ b = b'.
Proof.
  revert a'. induction a as [|c a IH]; intros [|c' a'] H H' Heq; simpl in *.
  - by simplify_eq.
  - injection Heq as <- _. simpl in H'. discriminate H'.
  - injection Heq as -> _. simpl in H. discriminate H.
  - injection Heq as -> Heq.
    apply andb_true_iff in H as [_ H]. apply andb_true_iff in H' as [_ H'].
    by destruct (IH a' H H' Heq) as [-> ->].
Qed.

Lemma outputKey_inj (i j i' j' : nat) :
  views2.outputKey i j = views2.outputKey i' j' → i = i' ∧ j = j'.
Proof.
  unfold views2.outputKey. intros H.
  apply dash_split in H as [Hi Hj]; try apply pretty_nat_dashFree.
  split; by apply (inj pretty).
Qed.

Lemma linesFor_outputKey (i j : nat) (msgs : list Msg) :
  linesFor (views2.outputKey i j) msgs = linesOf i j msgs.
Proof.
  induction msgs as [|msg msgs IH]; [done|].
  destruct msg as [| | | | |i' j' output|]; simpl; try done.
  destruct (String.eqb_spec (views2.outputKey i' j') (views2.outputKey i j))
    as [Heq|Hne].
  - apply outputKey_inj in Heq as [-> ->]. by rewrite !Nat.eqb_refl, IH.
  - destruct (Nat.eqb_spec i' i) as [->|]; [|done].
    destruct (Nat.eqb_spec j' j) as [->|]; [by destruct Hne|done].
Qed.

(** The buffer of the event loop.  Starting from buffers within the cap
    (the map is empty at construction), after any sequence of messages the
    buffer that [liveOutput] keeps for a unit holds at most 50 lines,
    namely the last 50 of the lines it held plus those delivered for that
    unit, in order: the oldest are the ones dropped. *)
Lemma live_output_bounded (msgs : list Msg) (m m' : model) (cs : list Cmd)
    (i j : nat) :
  (∀ k, (length (buffer m k) ≤ 50)%nat) →
  run views2.Update m msgs = Some (m', cs) →
  (length (buffer m' (views2.outputKey i j)) ≤ 50)%nat
  ∧ buffer m' (views2.outputKey i j)
    = lastN 50 (buffer m (views2.outputKey i j) ++ linesOf i j msgs).
Proof.
  intros Hcap Hrun.
  rewrite (run_buffer msgs m m' cs Hcap Hrun), linesFor_outputKey.
  split; [apply lastN_length|done].
Qed.

(** At fifty-two lines delivered for unit (0, 0). *)
Lemma live_output_bounded_witness :
  (length (buffer afterManyLines (views2.outputKey 0 0)) ≤ 50)%nat
  ∧ buffer afterManyLines (views2.outputKey 0 0)
    = lastN 50 (buffer (oneUnit "running") (views2.outputKey 0 0)
                ++ linesOf 0 0 manyLines).
Proof.
  apply (live_output_bounded manyLines (oneUnit "running") afterManyLines
           (replicate 52 stopwatchCmd) 0 0).
  - intros k. unfold buffer. simpl. rewrite lookup_empty. simpl. lia.
  - vm_compute. reflexivity.
Defined.

(** The [Output] buffer of the command itself is a different object: the
    scanner goroutines append every forwarded line to it and nothing ever
    trims it. *)
Lemma string_length_app (s t : string) :
  String.length (s +:+ t) = String.length s + String.length t.
Proof. induction s as [|a s IH]; simpl; [done|]. by rewrite IH. Qed.

Lemma append_assoc (s t u : string) : s +:+ t +:+ u = (s +:+ t) +:+ u.
Proof.
  induction s as [|c s IH]; [done|].
  change (String c (s +:+ t +:+ u) = String c ((s +:+ t) +:+ u)).
  by f_equal.
Qed.

Lemma pumpWrites_grows (scanned : list (bool * string)) (c : Command) :
  (String.length (Output c)
   ≤ String.length (Output (runner.pumpWrites scanned c)))%nat.
Proof.
  revert c. induction scanned as [|[d line] rest IH]; intros c; simpl; [done|].
  destruct d; [done|]. etrans; [|apply IH]. simpl.
  rewrite string_length_app. lia.
Qed.

Lemma pumpWrites_live (lines : list string) (c : Command) :
  Output (runner.pumpWrites (scannedLive lines) c)
  = Output c +:+ written lines.
Proof.
  revert c. induction lines as [|line lines IH]; intros c; simpl.
  - induction (Output c) as [|a s IHs]; [done|].
    change (String a s = String a (s +:+ "")). by f_equal.
  - rewrite IH. simpl. by rewrite <- !append_assoc.
Qed.

Lemma written_length (lines : list string) :
  (length lines ≤ String.length (written lines))%nat.
Proof.
  induction lines as [|line lines IH]; simpl; [done|].
  rewrite !string_length_app. simpl. lia.
Qed.

(** C6.  The claim fails for the unit's own buffer.  Every line a scanner
    goroutine forwards is also appended to [command.Output], which nothing
    trims and nothing reads: it holds all the lines the process has
    produced and grows by at least one byte with each of them.  After
    sixty lines [command.Output] holds sixty, while the buffer that
    [liveOutput] keeps for the same unit has been cut to the cap of 50. *)
Theorem command_output_never_trimmed (lines : list string) (c : Command) :
  Output (runner.pumpWrites (scannedLive lines) c)
  = Output c +:+ written lines
  ∧ (String.length (Output c) + length lines
     ≤ String.length (Output (runner.pumpWrites (scannedLive lines) c)))%nat
  ∧ lineCount (Output (runner.pumpWrites (scannedLive sixtyLines)
                         (newCommand "yarn" ["build:prod"]))) = 60
  ∧ ∃ m' cs,
      run views2.Update (oneUnit "running")
          (runner.pump 0 0 (scannedLive sixtyLines)) = Some (m', cs)
      ∧ length (buffer m' (views2.outputKey 0 0)) = 50.
Proof.
  split; [apply pumpWrites_live|]. split.
  - rewrite pumpWrites_live, string_length_app.
    pose proof (written_length lines). lia.
  - split; [by vm_compute|].
    eexists _, _. split; [by vm_compute|]. by vm_compute.
Qed.

(** ** C7: one unit per project *)

Lemma addLoop_spec (shouldAdd : Project → bool) (script : string)
    (args : list string) (ps : list Project) (h : list Command)
    (ps' : list Project) (h' : list Command) :
  views2.addLoop shouldAdd script args ps h = (ps', h') →
  (length h ≤ length h')%nat
  ∧ map Name ps' = map Name ps
  ∧ map Dir ps' = map Dir ps
  ∧ (∀ p, p ∈ scriptsOf ps' → p ∈ scriptsOf ps ∨ (length h ≤ p < length h')%nat)
  ∧ (∀ p, p ∈ scriptsOf ps → p ∈ scriptsOf ps')
  ∧ (NoDup (scriptsOf ps) → (∀ p, p ∈ scriptsOf ps → p < length h) →
     NoDup (scriptsOf ps')).
Proof.
  revert h ps' h'. induction ps as [|proj rest IH]; intros h ps' h'; simpl.
  - intros [= <- <-]. repeat split; try done. by left.
  - destruct (shouldAdd proj).
    + destruct (views2.addLoop _ _ _ rest _) as [rest' h1] eqn:Hrest.
      intros [= <- <-].
      apply IH in Hrest as (Hlen & Hn & Hd & Hin & Hold & Hnd).
      rewrite length_app in Hlen, Hin. simpl in Hlen, Hin.
      unfold scriptsOf in *. simpl.
      split; [lia|]. split; [by f_equal|]. split; [by f_equal|].
      split; [|split].
      * intros p. rewrite !elem_of_app, list_elem_of_singleton.
        intros [[Hp| ->]|Hp]; [by left; left|right; lia|].
        destruct (Hin p Hp) as [?|?]; [by left; right|right; lia].
      * intros p. rewrite !elem_of_app. intros [Hp|Hp]; [by left; left|].
        right. by apply Hold.
      * intros Hnodup Hlt. apply NoDup_app in Hnodup as (Hnd1 & Hdisj & Hnd2).
        apply NoDup_app. split; [|split].
        -- apply NoDup_app. split; [done|]. split; [|apply NoDup_singleton].
           intros p Hp. rewrite list_elem_of_singleton. intros ->.
           assert (length h < length h); [|lia].
           apply Hlt. rewrite elem_of_app. by left.
        -- intros p. rewrite elem_of_app, list_elem_of_singleton.
           intros [Hp| ->] Hp'.
           ++ destruct (Hin p Hp') as [Hr|Hr]; [by apply (Hdisj p)|].
              assert (p < length h); [|lia].
              apply Hlt. rewrite elem_of_app. by left.
           ++ destruct (Hin _ Hp') as [Hr|Hr]; [|lia].
              assert (length h < length h); [|lia].
              apply Hlt. rewrite elem_of_app. by right.
        -- apply Hnd; [done|]. intros p Hp. rewrite length_app. simpl.
           assert (p < length h); [|lia]. apply Hlt. rewrite elem_of_app. by right.
    + destruct (views2.addLoop _ _ _ rest _) as [rest' h1] eqn:Hrest.
      intros [= <- <-].
      apply IH in Hrest as (Hlen & Hn & Hd & Hin & Hold & Hnd).
      unfold scriptsOf in *. simpl.
      split; [lia|]. split; [by f_equal|]. split; [by f_equal|].
      split; [|split].
      * intros p. rewrite !elem_of_app. intros [Hp|Hp]; [by left; left|].
        destruct (Hin p Hp) as [?|?]; [by left; right|by right].
      * intros p. rewrite !elem_of_app. intros [Hp|Hp]; [by left|].
        right. by apply Hold.
      * intros Hnodup Hlt. apply NoDup_app in Hnodup as (Hnd1 & Hdisj & Hnd2).
        apply NoDup_app. split; [done|]. split.
        -- intros p Hp Hp'. destruct (Hin p Hp') as [Hr|Hr]; [by apply (Hdisj p)|].
           assert (p < length h); [|lia]. apply Hlt. rewrite elem_of_app. by left.
        -- apply Hnd; [done|]. intros p Hp. apply Hlt. rewrite elem_of_app. by right.
Qed.

(** In the later version every registration keeps the units of all projects
    pairwise distinct: no pointer occurs twice, within or across projects. *)
Lemma views2_units_distinct (shouldAdd : Project → bool) (script : string)
    (args : list string) (m : model) :
  wfHeap m → NoDup (units m) →
  NoDup (units (views2.AddOptionalCommand shouldAdd script args m))
  ∧ NoDup (units (views2.AddCommand script args m))
  ∧ wfHeap (views2.AddOptionalCommand shouldAdd script args m)
  ∧ wfHeap (views2.AddCommand script args m).
Proof.
  intros Hwf Hnd. unfold views2.AddOptionalCommand, views2.AddCommand.
  destruct (views2.addLoop shouldAdd _ _ _ _) as [ps1 h1] eqn:H1.
  destruct (views2.addLoop (λ _, true) _ _ _ _) as [ps2 h2] eqn:H2.
  apply addLoop_spec in H1 as (Hl1 & _ & _ & Hin1 & _ & Hnd1).
  apply addLoop_spec in H2 as (Hl2 & _ & _ & Hin2 & _ & Hnd2).
  unfold wfHeap, units in *. simpl. repeat split; auto.
  - intros p Hp. destruct (Hin1 p Hp) as [H|H]; [|lia].
    specialize (Hwf p H). lia.
  - intros p Hp. destruct (Hin2 p Hp) as [H|H]; [|lia].
    specialize (Hwf p H). lia.
Qed.

(** No message changes any project's list of units. *)
Lemma Update_keeps_projects (upd : model → Msg → option (model * Cmd))
    (m : model) (msg : Msg) (m' : model) (c : Cmd) :
  upd = views.Update ∨ upd = views2.Update →
  upd m msg = Some (m', c) → projects m' = projects m.
Proof.
  assert (Hk : ∀ k, projects (onKey m k).1 = projects m).
  { intros k. unfold onKey.
    repeat match goal with
           | |- context [if ?b then _ else _] => destruct b
           end; done. }
  intros [-> | ->]; destruct msg; intros H;
    unfold views.Update, views2.Update, onSpinnerTick, views2.onCommandOutput in H;
    try (injection H as <- <-; done);
    try (apply onCommandFinished_spec in H as (_ & _ & Hps & _); done);
    injection H as H; by rewrite <- (Hk k), H.
Qed.

(** C7.  In src/views/commandRunner.go one [Command] is allocated per
    registration and its pointer appended to every project: with two
    projects both lists hold the same unit, and the outcome of project 0's
    process alone marks project 1's unit finished and ends the run.  The
    later version allocates one unit per project on the same input. *)
Theorem views_AddCommand_shares_unit :
  let m := views.AddCommand "yarn" ["build:prod"] twoProjects in
  let m2 := views2.AddCommand "yarn" ["build:prod"] twoProjects in
  map Scripts (projects m) = [[0]; [0]]
  ∧ length (heap m) = 1
  ∧ ¬ NoDup (units m)
  ∧ (∃ m', views.Update m (commandFinishedMessage 0 0 None)
           = Some (m', Batch [doneCmd true; stopwatchCmd])
           ∧ target m' 1 0 = Some 0
           ∧ status_at (heap m') 0 = "finished"
           ∧ done m' = true)
  ∧ map Scripts (projects m2) = [[0]; [1]]
  ∧ NoDup (units m2).
Proof.
  simpl. repeat split.
  - intros H. apply NoDup_cons in H as [H _]. apply H. left.
  - eexists. repeat split; reflexivity.
  - unfold units. simpl. apply NoDup_cons. split.
    + rewrite list_elem_of_singleton. done.
    + apply NoDup_singleton.
Qed.

Lemma status_at_app (h : list Command) (c : Command) (p : ptr) :
  status_at (h ++ [c]) p =
  if decide (p = length h) then Status c else status_at h p.
Proof.
  unfold status_at. destruct (decide (p = length h)) as [->|Hne].
  - by rewrite list_lookup_middle.
  - destruct (decide (p < length h)) as [Hlt|Hge].
    + by rewrite lookup_app_l.
    + by rewrite !lookup_ge_None_2 by (rewrite ?length_app; simpl; lia).
Qed.

Lemma addLoop_heap (shouldAdd : Project → bool) (script : string)
    (args : list string) (ps : list Project) (h : list Command)
    (ps' : list Project) (h' : list Command) :
  views2.addLoop shouldAdd script args ps h = (ps', h') →
  ∃ k, h' = h ++ replicate k (newCommand script args).
Proof.
  revert h ps' h'. induction ps as [|proj rest IH]; intros h ps' h'; simpl.
  - intros [= <- <-]. exists 0. by rewrite app_nil_r.
  - destruct (shouldAdd proj);
      destruct (views2.addLoop _ _ _ rest _) as [rest' h1] eqn:Hrest;
      intros [= <- <-]; apply IH in Hrest as [k ->].
    + exists (S k). by rewrite <- app_assoc.
    + by exists k.
Qed.

Lemma status_at_replicate (h : list Command) (k : nat) (c : Command) (p : ptr) :
  length h ≤ p < length (h ++ replicate k c) →
  status_at (h ++ replicate k c) p = Status c.
Proof.
  rewrite length_app, length_replicate. intros Hp. unfold status_at.
  rewrite lookup_app_r by lia. rewrite lookup_replicate_2 by lia. done.
Qed.

Lemma status_at_old (h : list Command) (k : nat) (c : Command) (p : ptr) :
  p < length h → status_at (h ++ replicate k c) p = status_at h p.
Proof. intros Hp. unfold status_at. by rewrite lookup_app_l. Qed.

Lemma views_AddCommand_ok (script : string) (args : list string) (m : model) :
  wfHeap m → statusOk m →
  wfHeap (views.AddCommand script args m)
  ∧ statusOk (views.AddCommand script args m).
Proof.
  intros Hwf Hok.
  assert (Hin : ∀ p, p ∈ units (views.AddCommand script args m) →
                     p ∈ units m ∨ p = length (heap m)).
  { intros p. unfold units, views.AddCommand. simpl.
    induction (projects m) as [|proj rest IH]; simpl; [intros H; inversion H|].
    rewrite !elem_of_app, list_elem_of_singleton. intros [[H|H]|H]; auto.
    destruct (IH H); auto. }
  split; intros p Hp; destruct (Hin p Hp) as [Hold| ->].
  - specialize (Hwf p Hold). simpl. rewrite length_app. simpl. lia.
  - simpl. rewrite length_app. simpl. lia.
  - simpl. rewrite status_at_app. specialize (Hwf p Hold).
    rewrite decide_False by lia. by apply Hok.
  - simpl. rewrite status_at_app, decide_True by done. by left.
Qed.

Lemma views2_AddOptionalCommand_ok (shouldAdd : Project → bool)
    (script : string) (args : list string) (m : model) :
  wfHeap m → statusOk m →
  wfHeap (views2.AddOptionalCommand shouldAdd script args m)
  ∧ statusOk (views2.AddOptionalCommand shouldAdd script args m).
Proof.
  intros Hwf Hok. unfold views2.AddOptionalCommand.
  destruct (views2.addLoop shouldAdd _ _ _ _) as [ps h] eqn:H.
  pose proof (addLoop_heap _ _ _ _ _ _ _ H) as [k ->].
  apply addLoop_spec in H as (Hl & _ & _ & Hin & _).
  unfold wfHeap, statusOk, units in *. simpl.
  split; intros p Hp; destruct (Hin p Hp) as [Hold|Hnew].
  - specialize (Hwf p Hold). lia.
  - lia.
  - rewrite status_at_old by auto. by apply Hok.
  - rewrite status_at_replicate by done. by left.
Qed.

Lemma views2_AddCommand_eq (script : string) (args : list string) (m : model) :
  views2.AddCommand script args m
  = views2.AddOptionalCommand (λ _, true) script args m.
Proof. done. Qed.

(** ** C8: which streams reach the event loop *)

Lemma Interleave_elem_of {A : Type} (l1 l2 l : list A) (x : A) :
  runner.Interleave l1 l2 l → x ∈ l ↔ x ∈ l1 ∨ x ∈ l2.
Proof.
  induction 1 as [|y l1 l2 l _ IH|y l1 l2 l _ IH].
  - split; [intros H; inversion H|]. intros [H|H]; inversion H.
  - rewrite !elem_of_cons, IH. tauto.
  - rewrite !elem_of_cons, IH. tauto.
Qed.

Lemma pump_all (i j : nat) (scanned : list (bool * string)) :
  Forall (λ s, s.1 = false) scanned →
  runner.pump i j scanned = map (λ s, commandOutputMessage i j s.2) scanned.
Proof.
  induction 1 as [|[d line] rest Hd _ IH]; simpl; [done|].
  simpl in Hd. subst d. by rewrite IH.
Qed.

(** In the later version, as long as the unit's context is not done, every
    line scanned on either stream reaches the event loop. *)
Lemma views2_forwards_both_streams (i j : nat) (out err : list (bool * string))
    (msgs : list Msg) (line : string) :
  Forall (λ s, s.1 = false) out → Forall (λ s, s.1 = false) err →
  runner.delivered runner.wiring2 i j out err msgs →
  line ∈ map snd out ∨ line ∈ map snd err →
  commandOutputMessage i j line ∈ msgs.
Proof.
  intros Ho He Hd Hin. unfold runner.delivered in Hd. simpl in Hd.
  rewrite (pump_all i j out Ho), (pump_all i j err He) in Hd.
  apply (Interleave_elem_of _ _ _ (commandOutputMessage i j line)) in Hd.
  apply Hd. rewrite !list_elem_of_In, !in_map_iff.
  rewrite !list_elem_of_In, !in_map_iff in Hin.
  destruct Hin as [(s & <- & Hs)|(s & <- & Hs)]; [left|right]; by exists s.
Qed.

(** C8.  src/views/commandRunner.go sets [c.Stderr = nil] and never scans
    the pipe it opens on standard output: for a child that writes one line
    on each stream nothing is forwarded, and the empty sequence is what the
    event loop is delivered.  The later version forwards both lines. *)
Theorem views_runCommand_forwards_nothing :
  runner.forwarded (runner.wStdout runner.wiring1) 0 0 someStdout = []
  ∧ runner.forwarded (runner.wStderr runner.wiring1) 0 0 someStderr = []
  ∧ runner.delivered runner.wiring1 0 0 someStdout someStderr []
  ∧ runner.forwarded (runner.wStdout runner.wiring2) 0 0 someStdout
    = [commandOutputMessage 0 0 "Done in 2.31s."]
  ∧ runner.forwarded (runner.wStderr runner.wiring2) 0 0 someStderr
    = [commandOutputMessage 0 0 "warning: package.json: No license field"].
Proof.
  repeat split. constructor.
Qed.

(** ** C9: aborts during set-up *)

Lemma concat_imap_nil {A B : Type} (f : nat → A → list B) (l : list A) :
  (∀ i x, x ∈ l → f i x = []) → concat (imap f l) = [].
Proof.
  revert f. induction l as [|a l IH]; intros f H; simpl; [done|].
  rewrite (H 0 a) by left. simpl. apply IH. intros i x Hx. apply H. by right.
Qed.

Lemma Init_no_units (m : model) : units m = [] → Init m = [].
Proof.
  unfold units, Init. intros H. apply concat_imap_nil. intros i proj Hin.
  assert (Hs : Scripts proj = []); [|by rewrite Hs].
  induction (projects m) as [|a rest IH]; [inversion Hin|].
  simpl in H. apply app_eq_nil in H as [Ha Hr].
  apply elem_of_cons in Hin as [->|Hin]; auto.
Qed.

Lemma units_newProjects (found : list utils.File) (h : list Command)
    (lo : gmap string (list string)) (b1 b2 b3 b4 b5 : bool) :
  units (mkModel (newProjects found) h lo b1 b2 b3 b4 b5) = [].
Proof. unfold units. simpl. by induction found. Qed.

(** C9 as worded fails: with a project present, an unreadable directory
    still ends the program from within discovery. *)
Lemma abort_with_a_project : ¬ abortOnlyWithoutProjects.
Proof.
  intros H. destruct (H lockedEnv) as (wd & _ & Hd); [reflexivity|].
  vm_compute in Hd. discriminate.
Qed.

(** C9 (amended).  In the later [CreateCommandRunner], when discovery
    returns no project the message "Error: no projects found!" is printed
    once and the program exits with status 1, so no registry exists and no
    unit is ever started; set-up also aborts when the working directory
    cannot be obtained (panic) and when discovery cannot read a directory
    (log.Fatal), and in no other case; a registry that is returned has at
    least one project and, as yet, no unit. *)
Theorem setup_aborts (env : Env) (setup : model → model) :
  (∀ wd, Getwd env = Some wd →
         utils0.GetAllProjects (tree env) wd 0 = Some [] →
         views2.CreateCommandRunner env = OsExit 1 [views2.noProjects]
         ∧ start views2.CreateCommandRunner setup env
           = OsExit 1 [views2.noProjects])
  ∧ (aborts (views2.CreateCommandRunner env) = true
     ↔ Getwd env = None
       ∨ ∃ wd, Getwd env = Some wd
               ∧ (utils0.GetAllProjects (tree env) wd 0 = None
                  ∨ utils0.GetAllProjects (tree env) wd 0 = Some []))
  ∧ (∀ m, views2.CreateCommandRunner env = Returns m →
          projects m ≠ [] ∧ units m = [] ∧ Init m = [] ∧ done m = false).
Proof.
  split; [|split].
  - intros wd Hwd Hd. unfold start, views2.CreateCommandRunner.
    by rewrite Hwd, Hd.
  - unfold views2.CreateCommandRunner.
    destruct (Getwd env) as [wd|]; [|split; [by left|done]].
    destruct (utils0.GetAllProjects (tree env) wd 0)
      as [[|f found]|] eqn:Hd; simpl.
    + split; [|done]. intros _. right. exists wd. auto.
    + split; [done|].
      intros [[=]|(wd' & [= <-] & [H|H])]; rewrite Hd in H; discriminate.
    + split; [|done]. intros _. right. exists wd. auto.
  - intros m. unfold views2.CreateCommandRunner.
    destruct (Getwd env) as [wd|]; [|done].
    destruct (utils0.GetAllProjects (tree env) wd 0)
      as [[|f found]|]; simpl; try done.
    intros [= <-]. simpl. split; [done|].
    split; [apply (units_newProjects (f :: found))|]. split; [|done].
    apply Init_no_units, (units_newProjects (f :: found)).
Qed.

(** C9 (amended) at a workspace without projects. *)
Lemma setup_aborts_witness :
  views2.CreateCommandRunner emptyEnv = OsExit 1 [views2.noProjects]
  ∧ start views2.CreateCommandRunner (views2.AddCommand "yarn" []) emptyEnv
    = OsExit 1 [views2.noProjects].
Proof.
  apply (proj1 (setup_aborts emptyEnv (views2.AddCommand "yarn" [])) "/ws");
    reflexivity.
Defined.

(** X17.  The earlier [CreateCommandRunner] has no such check: without projects
    it returns an empty registry, nothing is started and, as no outcome
    event can arrive, completion is never announced. *)
Lemma views_CreateCommandRunner_no_projects (env : Env) (wd : string)
    (script : string) (args : list string) :
  Getwd env = Some wd →
  utils0.GetAllProjects (tree env) wd 0 = Some [] →
  ∃ m, views.CreateCommandRunner env = Returns m
       ∧ projects m = []
       ∧ Init (views.AddCommand script args m) = []
       ∧ ∀ i j err, views.Update (views.AddCommand script args m)
                      (commandFinishedMessage i j err) = None.
Proof.
  intros Hwd Hd. unfold views.CreateCommandRunner. rewrite Hwd, Hd.
  eexists. split; [done|]. by repeat split.
Qed.

(** ** Registries handed to the event loop *)

Lemma CreateCommandRunner_no_units (env : Env) (m : model) :
  views.CreateCommandRunner env = Returns m
  ∨ views2.CreateCommandRunner env = Returns m →
  units m = [].
Proof.
  unfold views.CreateCommandRunner, views2.CreateCommandRunner.
  destruct (Getwd env) as [wd|]; [|by intros [|]].
  destruct (utils0.GetAllProjects (tree env) wd 0) as [found|]; [|by intros [|]].
  intros [[= <-]|H]; [apply units_newProjects|].
  destruct (length found =? 0)%nat; [done|]. injection H as <-.
  apply units_newProjects.
Qed.

(** Every registry handed to the event loop assigns allocated units whose
    status is "running". *)
Lemma Setup_ok (m : model) : Setup m → wfHeap m ∧ statusOk m.
Proof.
  induction 1 as [env m H|env m H|script args m _ [Hwf Hok]
                  |script args m _ [Hwf Hok]|f script args m _ [Hwf Hok]].
  - assert (Hu : units m = []) by (eapply CreateCommandRunner_no_units; eauto).
    unfold wfHeap, statusOk. rewrite Hu. split; intros p Hp; inversion Hp.
  - assert (Hu : units m = []) by (eapply CreateCommandRunner_no_units; eauto).
    unfold wfHeap, statusOk. rewrite Hu. split; intros p Hp; inversion Hp.
  - by apply views_AddCommand_ok.
  - rewrite views2_AddCommand_eq. by apply views2_AddOptionalCommand_ok.
  - by apply views2_AddOptionalCommand_ok.
Qed.

(** In the later version the units of all projects are pairwise distinct
    in every registry handed to the event loop. *)
Lemma Setup2_distinct (m : model) : Setup2 m → wfHeap m ∧ NoDup (units m).
Proof.
  induction 1 as [env m H|script args m _ [Hwf Hnd]|f script args m _ [Hwf Hnd]].
  - assert (Hu : units m = []) by (eapply CreateCommandRunner_no_units; eauto).
    unfold wfHeap. rewrite Hu. split; [|constructor]. intros p Hp; inversion Hp.
  - destruct (views2_units_distinct (λ _, true) script args m Hwf Hnd)
      as (_ & Hd & _ & Hw). done.
  - destruct (views2_units_distinct f script args m Hwf Hnd)
      as (Hd & _ & Hw & _). done.
Qed.

Lemma status_at_cancel (h : list Command) (c p : ptr) :
  status_at (alter set_Cancelled c h) p = status_at h p.
Proof.
  unfold status_at. destruct (decide (c = p)) as [->|Hne].
  - rewrite list_lookup_alter_eq. by destruct (h !! p).
  - by rewrite list_lookup_alter_ne.
Qed.

Lemma CancelScripts_status (m : model) (p : ptr) :
  status_at (heap (CancelScripts m)) p = status_at (heap m) p.
Proof.
  unfold CancelScripts. simpl. generalize (heap m).
  induction (projects m) as [|proj rest IH]; intros h; simpl; [done|].
  rewrite IH. generalize h. clear.
  induction (Scripts proj) as [|c cs IH]; intros h; simpl; [done|].
  by rewrite IH, status_at_cancel.
Qed.

(** Whatever the message, the event loop keeps every status among the four
    the code writes. *)
Lemma Update_statusOk (upd : model → Msg → option (model * Cmd))
    (m : model) (msg : Msg) (m' : model) (c : Cmd) :
  upd = views.Update ∨ upd = views2.Update →
  statusOk m → upd m msg = Some (m', c) → statusOk m'.
Proof.
  intros Hupd Hok H.
  destruct msg as [k| | |i j err|s|i j output|];
    try (rewrite (either_Update_finished upd Hupd) in H;
         by eapply onCommandFinished_statusOk).
  all: assert (Hsame : projects m' = projects m
                       ∧ ∀ p, status_at (heap m') p = status_at (heap m) p);
    [|destruct Hsame as [Hps Hst]; intros p Hp; rewrite !Hst; apply Hok;
      apply elem_of_units; apply elem_of_units in Hp; by rewrite <- Hps].
  - assert (Heq : onKey m k = (m', c))
      by (destruct Hupd as [-> | ->]; simpl in H; congruence).
    unfold onKey in Heq.
    repeat match type of Heq with
           | (if ?b then _ else _) = _ => destruct b
           end; injection Heq as <- <-; split; try done.
    intros p. apply CancelScripts_status.
  - destruct Hupd as [-> | ->]; injection H as <- <-; done.
  - destruct Hupd as [-> | ->]; injection H as <- <-; done.
  - destruct Hupd as [-> | ->]; injection H as <- <-; split; try done;
      intros p; apply CancelScripts_status.
  - destruct Hupd as [-> | ->]; injection H as <- <-; done.
  - destruct Hupd as [-> | ->]; injection H as <- <-; done.
Qed.

Lemma run_statusOk (upd : model → Msg → option (model * Cmd))
    (msgs : list Msg) (m m' : model) (cs : list Cmd) :
  upd = views.Update ∨ upd = views2.Update →
  statusOk m → run upd m msgs = Some (m', cs) → statusOk m'.
Proof.
  intros Hupd. revert m cs. induction msgs as [|msg msgs IH]; intros m cs Hok.
  - by intros [= <- <-].
  - intros Hrun. apply run_cons_inv in Hrun as (m1 & c & cs' & H1 & Hrun & ->).
    eapply IH; [|done]. by eapply Update_statusOk.
Qed.

(** ** C10: what project discovery returns *)

Lemma IsProject_manifests (n : fsnode) :
  utils.IsProject n = true ↔
  ∃ name readable entries,
    n = FsDir name readable entries
    ∧ utils.FileExists entries "composer.json" = true
    ∧ utils.FileExists entries "package.json" = true.
Proof.
  destruct n as [name|name readable entries]; simpl.
  - split; [done|]. by intros (? & ? & ? & [=] & _).
  - rewrite andb_true_iff. split.
    + intros [H1 H2]. by exists name, readable, entries.
    + by intros (? & ? & ? & [= <- <- <-] & H1 & H2).
Qed.

Lemma scanDir_cons_file (depth : Z) rec dir level name rest acc :
  utils.scanDir rec dir depth level (FsFile name :: rest) acc
  = utils.scanDir rec dir depth level rest acc.
Proof. done. Qed.

Lemma scanDir_cons_dir (depth : Z) rec dir level name readable entries rest acc :
  utils.scanDir rec dir depth level (FsDir name readable entries :: rest) acc
  = let file := FsDir name readable entries in
    let projectDir := path_Join dir name in
    if negb (utils.IsProject file)
       && ((depth =? -1)%Z || (level <=? depth)%Z) then
      if negb (utils.Contains utils.BLACKLIST name) then
        let '(log1, sub) := rec file projectDir depth (level + 1)%Z in
        match sub with
        | None => (utils.mkFile name projectDir :: log1, None)
        | Some found =>
            let '(log2, r) :=
              utils.scanDir rec dir depth level rest (acc ++ found) in
            (utils.mkFile name projectDir :: log1 ++ log2, r)
        end
      else utils.scanDir rec dir depth level rest acc
    else if negb (depth =? -1)%Z && (level >=? depth)%Z then
      utils.scanDir rec dir depth level rest acc
    else utils.scanDir rec dir depth level rest
           (acc ++ [utils.mkFile name projectDir]).
Proof. done. Qed.

(** The three ways the loop treats a directory entry, as propositions. *)
Lemma entry_cases (depth level : Z) (file : fsnode) :
  let c1 := negb (utils.IsProject file)
            && ((depth =? -1)%Z || (level <=? depth)%Z) in
  let c2 := negb (depth =? -1)%Z && (level >=? depth)%Z in
  (c1 = true ↔ utils.IsProject file = false ∧ (depth = -1 ∨ level ≤ depth)%Z)
  ∧ (c1 = false → c2 = false →
     utils.IsProject file = true ∧ (depth = -1 ∨ level < depth)%Z)
  ∧ (c2 = true → ¬ (depth = -1 ∨ level < depth)%Z).
Proof.
  simpl. rewrite Z.geb_leb.
  destruct (utils.IsProject file); simpl;
    destruct (Z.eqb_spec depth (-1)); simpl;
    destruct (Z.leb_spec level depth); simpl;
    destruct (Z.leb_spec depth level); simpl;
    repeat split; try done; try lia; intros; try lia; try tauto.
  all: try (destruct H; [done|lia]).
Qed.

Lemma exists_cons {A : Type} (P : A → Prop) (a : A) (l : list A) :
  (∃ x, x ∈ a :: l ∧ P x) ↔ P a ∨ ∃ x, x ∈ l ∧ P x.
Proof.
  split.
  - intros (x & Hin & Hx). apply elem_of_cons in Hin as [->|Hin]; eauto.
  - intros [Ha|(x & Hin & Hx)]; [exists a|exists x]; (split; [|done]);
      [left|by right].
Qed.

Lemma scanDir_spec (depth : Z)
    (rec : fsnode → string → Z → Z → list utils.File * option (list utils.File))
    (dir : string) (level : Z) (files : list fsnode) :
  Forall (recSpec depth rec) files →
  ∀ acc log ps,
    utils.scanDir rec dir depth level files acc = (log, Some ps) →
    ∀ f, f ∈ ps ↔
         f ∈ acc
         ∨ (∃ file, file ∈ files ∧ listsOne depth level dir file f)
         ∨ (∃ file, file ∈ files ∧ descendsOne depth level dir file f).
Proof.
  induction 1 as [|file rest Hfile _ IH]; intros acc log ps Hs f.
  - injection Hs as <- <-. split; [by left|].
    intros [H|[(x & Hin & _)|(x & Hin & _)]]; [done|inversion Hin..].
  - rewrite !exists_cons. destruct file as [name|name readable entries].
    + rewrite scanDir_cons_file in Hs. rewrite (IH _ _ _ Hs f).
      unfold listsOne, descendsOne, descends. simpl.
      split; [tauto|]. intros [H|[[H|H]|[H|H]]]; try tauto.
      * by destruct H.
      * by destruct H as [[(? & ? & ? & [=]) _] _].
    + rewrite scanDir_cons_dir in Hs. cbv zeta in Hs.
      destruct (entry_cases depth level (FsDir name readable entries))
        as (Hc1 & Hc12 & Hc2).
      unfold listsOne, descendsOne, descends.
      change (node_name (FsDir name readable entries)) with name.
      destruct (negb (utils.IsProject (FsDir name readable entries))
                && ((depth =? -1)%Z || (level <=? depth)%Z)) eqn:E1.
      * destruct Hc1 as [Hc1 _]. destruct (Hc1 eq_refl) as [Hnp Hd].
        destruct (utils.Contains utils.BLACKLIST name) eqn:Hb;
          simpl in Hs.
        -- rewrite (IH _ _ _ Hs f). rewrite Hnp. split; [tauto|].
           intros [H|[[H|H]|[H|H]]]; try tauto.
           ++ by destruct H.
           ++ destruct H as [(_ & _ & _ & [=]) _].
        -- destruct (rec _ _ _ _) as [log1 [found|]] eqn:Hrec; [|discriminate].
           destruct (utils.scanDir rec dir depth level rest (acc ++ found))
             as [log2 r] eqn:Hrest.
           injection Hs as <- ->.
           rewrite (IH _ _ _ Hrest f), elem_of_app.
           rewrite (Hfile _ _ _ _ Hrec f). rewrite Hnp. split.
           ++ intros [[H|H]|[H|H]]; try tauto.
              right. right. left. split; [|done]. split; [by eauto|done].
           ++ intros [H|[[H|H]|[H|H]]]; try tauto. by destruct H.
      * destruct (negb (depth =? -1)%Z && (level >=? depth)%Z) eqn:E2.
        -- rewrite (IH _ _ _ Hs f). specialize (Hc2 eq_refl).
           split; [tauto|]. intros [H|[[H|H]|[H|H]]]; try tauto.
           destruct H as [(_ & Hnp & Hd & _) _].
           pose proof (proj2 Hc1 (conj Hnp Hd)) as Ht. discriminate Ht.
        -- destruct (Hc12 eq_refl eq_refl) as [Hp Hd].
           rewrite (IH _ _ _ Hs f), elem_of_app, list_elem_of_singleton.
           rewrite Hp. split.
           ++ intros [[H|H]|[H|H]]; tauto.
           ++ intros [H|[[H|H]|[H|H]]]; try tauto.
              destruct H as [(_ & [=] & _) _].
Qed.

Lemma GetAllProjects_dir (name : string) (files : list fsnode) (dir : string)
    (depth level : Z) :
  utils.GetAllProjects (FsDir name true files) dir depth level
  = utils.scanDir utils.GetAllProjects dir depth level files
      (if utils.IsProject (FsDir name true files)
       then [utils.mkFile (path_Base dir) dir] else []).
Proof. done. Qed.

Lemma GetAllProjects_Found (depth : Z) (node : fsnode) :
  recSpec depth utils.GetAllProjects node.
Proof.
  induction node as [name|name readable entries IH] using fsnode_nested_ind;
    intros dir level log ps Hg f; [discriminate|].
  destruct readable; [|discriminate]. rewrite GetAllProjects_dir in Hg.
  rewrite (scanDir_spec depth _ dir level entries IH _ _ _ Hg f).
  unfold Found. split.
  - intros [Hin|[(file & Hin & Hl)|(file & Hin & Hd & Hf)]].
    + left. destruct (utils.IsProject (FsDir name true entries));
        [|inversion Hin]. apply list_elem_of_singleton in Hin. by subst.
    + right. exists name, entries, dir, level. split; [constructor|].
      by exists file.
    + right. destruct Hf as [[Hp _]|(n' & fs & d' & l' & Hr & Hl)].
      * destruct Hd as (_ & Hnp & _). congruence.
      * exists n', fs, d', l'. split; [|done]. by eapply reach_down.
  - intros [[Hp ->]|(n' & fs & d' & l' & Hr & Hl)].
    + left. rewrite Hp. left.
    + right. inversion Hr; subst.
      * left. done.
      * right. exists file. split; [done|]. split; [done|].
        right. by exists n', fs, d', l'.
Qed.

Lemma At_child (root : fsnode) (dir : string) (name : string) (readable : bool)
    (files : list fsnode) (path : string) (file : fsnode) :
  At root dir (FsDir name readable files) path →
  file ∈ files →
  At root dir file (path_Join path (node_name file)).
Proof.
  intros H. remember (FsDir name readable files) as n eqn:Hn.
  induction H as [n dir|name' r' files' dir file' n path Hin _ IH];
    intros Hf; subst.
  - eapply at_below; [done|constructor].
  - eapply at_below; [done|]. by apply IH.
Qed.

Lemma Reaches_At (depth : Z) (node : fsnode) (dir : string) (level : Z)
    (node' : fsnode) (dir' : string) (level' : Z) :
  Reaches depth node dir level node' dir' level' → At node dir node' dir'.
Proof.
  induction 1; [constructor|]. by eapply at_below.
Qed.

Lemma Found_At (depth : Z) (node : fsnode) (dir : string) (level : Z) (f : utils.File) :
  Found depth node dir level f →
  ∃ n, At node dir n (utils.Dir f) ∧ utils.IsProject n = true.
Proof.
  intros [[Hp ->]|(name & files & dir' & level' & Hr & file & Hin & Hp & _ & ->)].
  - exists node. split; [constructor|done].
  - exists file. split; [|done]. simpl.
    eapply At_child; [|done]. by eapply Reaches_At.
Qed.

Lemma scanDir_log (depth : Z)
    (rec : fsnode → string → Z → Z → list utils.File * option (list utils.File))
    (dir : string) (level : Z) (files : list fsnode) :
  Forall (λ file, ∀ d l log r, rec file d depth l = (log, r) →
                               Forall notBlacklisted log) files →
  ∀ acc log r,
    utils.scanDir rec dir depth level files acc = (log, r) →
    Forall notBlacklisted log.
Proof.
  induction 1 as [|file rest Hfile _ IH]; intros acc log r Hs.
  - injection Hs as <- <-. constructor.
  - destruct file as [name|name readable entries].
    + rewrite scanDir_cons_file in Hs. eauto.
    + rewrite scanDir_cons_dir in Hs. cbv zeta in Hs.
      destruct (negb _ && _); [|destruct (negb _ && _); eauto].
      destruct (utils.Contains utils.BLACKLIST name) eqn:Hb;
        simpl in Hs; [eauto|].
      destruct (rec _ _ _ _) as [log1 [found|]] eqn:Hrec.
      * destruct (utils.scanDir rec dir depth level rest (acc ++ found))
          as [log2 r2] eqn:Hrest.
        injection Hs as <- <-. constructor; [done|].
        apply Forall_app. split; eauto.
      * injection Hs as <- <-. constructor; [done|]. eauto.
Qed.

Lemma GetAllProjects_log (depth : Z) (node : fsnode) (dir : string) (level : Z)
    (log : list utils.File) (r : option (list utils.File)) :
  utils.GetAllProjects node dir depth level = (log, r) →
  Forall notBlacklisted log.
Proof.
  revert dir level log r.
  induction node as [name|name readable entries IH] using fsnode_nested_ind;
    intros dir level log r Hg.
  - injection Hg as <- <-. constructor.
  - destruct readable; [|injection Hg as <- <-; constructor].
    rewrite GetAllProjects_dir in Hg. by eapply scanDir_log.
Qed.

(** C10 as worded fails: the package below [vendor] holds both manifests
    and is not returned. *)
Lemma project_below_vendor_not_discovered : ¬ discoveredIffManifests.
Proof.
  intros H.
  destruct (H workspace "/ws" 3%Z 0%Z
              [utils.mkFile "docs" "/ws/docs"] [utils.mkFile "app" "/ws/app"]
              (FsDir "lib" true manifests) "/ws/vendor/lib") as [Hfound _].
  - reflexivity.
  - eapply at_below; [right; right; left|].
    eapply at_below; [left|]. constructor.
  - destruct (Hfound eq_refl) as (f & Hin & Hpath).
    apply list_elem_of_singleton in Hin. subst f. discriminate Hpath.
Qed.

(** C10 (amended).  Every directory that discovery returns holds both a
    composer.json and a package.json, so a directory with only one of them
    is never returned; the directories returned are exactly the starting
    directory when it is a project and the project directories listed in
    a directory that the walk reads, which it does for the starting
    directory and for sub-directories that are not projects, not
    blacklisted and within the depth bound; no blacklisted directory is
    ever descended into, so projects below one are not returned. *)
Theorem discovery_returns_projects (root : fsnode) (dir : string)
    (depth level : Z) (log : list utils.File) (r : option (list utils.File)) :
  utils.GetAllProjects root dir depth level = (log, r) →
  (∀ f, f ∈ log →
        utils.Contains utils.BLACKLIST (utils.Name f) = false)
  ∧ ∀ ps, r = Some ps →
      (∀ f, f ∈ ps →
            ∃ n name readable entries,
              At root dir n (utils.Dir f)
              ∧ n = FsDir name readable entries
              ∧ utils.FileExists entries "composer.json" = true
              ∧ utils.FileExists entries "package.json" = true)
      ∧ (∀ f, f ∈ ps ↔ Found depth root dir level f).
Proof.
  intros Hg. split.
  - intros f Hin. pose proof (GetAllProjects_log _ _ _ _ _ _ Hg) as Hlog.
    rewrite Forall_forall in Hlog. by apply Hlog.
  - intros ps ->. pose proof (GetAllProjects_Found depth root _ _ _ _ Hg) as Hf.
    split; [|done]. intros f Hin. apply Hf, Found_At in Hin as (n & Hat & Hp).
    apply IsProject_manifests in Hp as (name & readable & entries & -> & H1 & H2).
    by exists (FsDir name readable entries), name, readable, entries.
Qed.

(** C10 (amended) at that workspace, depth 3. *)
Lemma discovery_returns_projects_witness :
  (∀ f, f ∈ [utils.mkFile "docs" "/ws/docs"] →
        utils.Contains utils.BLACKLIST (utils.Name f) = false)
  ∧ ∀ ps, Some [utils.mkFile "app" "/ws/app"] = Some ps →
      (∀ f, f ∈ ps →
            ∃ n name readable entries,
              At workspace "/ws" n (utils.Dir f)
              ∧ n = FsDir name readable entries
              ∧ utils.FileExists entries "composer.json" = true
              ∧ utils.FileExists entries "package.json" = true)
      ∧ (∀ f, f ∈ ps ↔ Found 3 workspace "/ws" 0 f).
Proof.
  apply (discovery_returns_projects workspace "/ws" 3%Z 0%Z). reflexivity.
Defined.

(** * Further properties *)

(** ** The list helpers, continued *)


Lemma All_Not_Some {T : Type} (ts : list T) (pred : T → bool) :
  utils.All ts (utils.Not pred) = negb (utils.Some_ ts pred).
Proof.
  induction ts as [|t ts IH]; simpl; [done|].
  unfold utils.Not at 1. rewrite negb_involutive.
  by destruct (pred t).
Qed.

Lemma Some_Not_All {T : Type} (ts : list T) (pred : T → bool) :
  utils.Some_ ts (utils.Not pred) = negb (utils.All ts pred).
Proof.
  induction ts as [|t ts IH]; simpl; [done|].
  unfold utils.Not at 1. by destruct (pred t).
Qed.

(** X1.  The helpers over slices and predicates.  [All] and [Some] are
    the universal and the existential test, dual to each other through
    [Not]; on the empty slice [All] answers true and [Some] false.  [And]
    accepts a thing exactly when every predicate does, so with no
    predicate it accepts everything and a predicate together with its
    [Not] accepts nothing; [Not] twice is the predicate itself. *)
Theorem All_Some_And_Not {T : Type} (ts : list T) (preds : list (T → bool))
    (pred : T → bool) (thing : T) :
  (utils.All ts pred = true ↔ ∀ t, t ∈ ts → pred t = true)
  ∧ (utils.Some_ ts pred = true ↔ ∃ t, t ∈ ts ∧ pred t = true)
  ∧ utils.Some_ ts pred = negb (utils.All ts (utils.Not pred))
  ∧ utils.All ts pred = negb (utils.Some_ ts (utils.Not pred))
  ∧ utils.All [] pred = true
  ∧ utils.Some_ [] pred = false
  ∧ (utils.And preds thing = true ↔ ∀ p, p ∈ preds → p thing = true)
  ∧ utils.And [] thing = true
  ∧ utils.And [pred; utils.Not pred] thing = false
  ∧ utils.Not (utils.Not pred) thing = pred thing.
Proof.
  split; [apply All_spec|]. split; [apply Some__spec|].
  split; [by rewrite All_Not_Some, negb_involutive|].
  split; [by rewrite Some_Not_All, negb_involutive|].
  split; [done|]. split; [done|].
  split; [apply (All_spec preds (λ p, p thing))|].
  split; [done|]. split.
  - unfold utils.And, utils.Not. simpl. by destruct (pred thing).
  - unfold utils.Not. apply negb_involutive.
Qed.

(** ** What [wasKilledBySignal] answers *)

Lemma land_mask_small (sig : Z) :
  (0 ≤ sig < 128)%Z → Z.land sig exec.mask = sig.
Proof.
  intros H. unfold exec.mask. change 127%Z with (Z.ones 7).
  rewrite Z.land_ones by lia. apply Z.mod_small. lia.
Qed.

Lemma land_mask_range (w : Z) : (0 ≤ Z.land w exec.mask < 128)%Z.
Proof.
  unfold exec.mask. change 127%Z with (Z.ones 7).
  rewrite Z.land_ones by lia. apply Z.mod_pos_bound. lia.
Qed.

Lemma exit_status_low_bits (code : Z) :
  Z.land (exec.exit_status code) exec.mask = 0%Z.
Proof.
  unfold exec.exit_status, exec.mask, exec.shift.
  apply Z.bits_inj'. intros n Hn.
  rewrite Z.land_spec, Z.bits_0.
  destruct (Z.ltb_spec n 8).
  - rewrite Z.shiftl_spec_low by lia. done.
  - replace (Z.testbit 127 n) with false; [by rewrite andb_false_r|].
    change 127%Z with (Z.ones 7). symmetry. apply Z.ones_spec_high. lia.
Qed.

Lemma Signal_range (w : exec.WaitStatus) :
  exec.Signaled w = true → (1 ≤ exec.Signal w ≤ 126)%Z.
Proof.
  intros E. unfold exec.Signal. rewrite E.
  pose proof (land_mask_range w).
  unfold exec.Signaled, exec.stopped, exec.exited in E.
  destruct (Z.eqb_spec (Z.land w exec.mask) 127); [done|].
  destruct (Z.eqb_spec (Z.land w exec.mask) 0); [done|]. lia.
Qed.

(** X2.  What [wasKilledBySignal] answers.  The signal it returns is 0
    unless it reports a kill; for a process ended by signal [sig] (1..126)
    it answers [(true, sig)]; for a process that called [exit], whatever the
    code, it answers [(false, 0)]. *)
Theorem wasKilledBySignal_answers (err : option exec.error) (sig code : Z) :
  (1 ≤ sig ≤ 126)%Z →
  wasKilledBySignal (exec.Wait (exec.signal_status sig)) = (true, sig)
  ∧ wasKilledBySignal (exec.Wait (exec.exit_status code)) = (false, 0%Z)
  ∧ ((wasKilledBySignal err).1 = false → (wasKilledBySignal err).2 = 0%Z)
  ∧ (0 ≤ (wasKilledBySignal err).2 ≤ 126)%Z.
Proof.
  intros Hsig.
  assert (Hs : Z.land (exec.signal_status sig) exec.mask = sig).
  { unfold exec.signal_status. rewrite !land_mask_small; try lia.
    rewrite land_mask_small; lia. }
  split; [|split; [|split]].
  - unfold exec.Wait, exec.Exited, exec.ExitStatus, exec.Exited.
    rewrite Hs. unfold exec.exited.
    destruct (Z.eqb_spec sig 0); [lia|]. simpl.
    unfold exec.Signaled, exec.Signal, exec.Signaled. rewrite Hs.
    unfold exec.stopped, exec.exited.
    destruct (Z.eqb_spec sig 127); [lia|].
    destruct (Z.eqb_spec sig 0); [lia|]. done.
  - unfold exec.Wait, exec.Exited, exec.ExitStatus, exec.Exited.
    rewrite exit_status_low_bits. simpl.
    destruct (_ =? 0)%Z; simpl; [done|].
    unfold exec.Signaled. rewrite exit_status_low_bits. done.
  - destruct err as [[[w|] [st|]| |]|]; simpl; try done.
    + by destruct (exec.Signaled w).
    + by destruct (exec.Signaled w).
    + by destruct (st =? -1)%Z.
  - destruct err as [[[w|] [st|]| |]|]; simpl; try lia.
    + destruct (exec.Signaled w) eqn:E; simpl; [|lia].
      pose proof (Signal_range w E). lia.
    + destruct (exec.Signaled w) eqn:E; simpl; [|lia].
      pose proof (Signal_range w E). lia.
    + destruct (st =? -1)%Z; simpl; lia.
Qed.

(** X2 at SIGTERM, exit code 137 and a cancellation error. *)
Lemma wasKilledBySignal_answers_witness :
  wasKilledBySignal (exec.Wait (exec.signal_status exec.SIGTERM))
  = (true, exec.SIGTERM)
  ∧ wasKilledBySignal (exec.Wait (exec.exit_status 137)) = (false, 0%Z)
  ∧ ((wasKilledBySignal (Some exec.Canceled)).1 = false →
     (wasKilledBySignal (Some exec.Canceled)).2 = 0%Z)
  ∧ (0 ≤ (wasKilledBySignal (Some exec.Canceled)).2 ≤ 126)%Z.
Proof.
  apply (wasKilledBySignal_answers (Some exec.Canceled) exec.SIGTERM 137).
  unfold exec.SIGTERM. lia.
Defined.

(** ** The supervision protocol, continued *)

Lemma sentInv_fire (l : runner.label) (c c' : runner.conf) :
  sentInv c → runner.fire l c = Some c' → sentInv c'.
Proof.
  intros Hinv Hf. destruct c as [m g w ch d p s x].
  unfold sentInv in Hinv. simpl in Hinv.
  destruct l; simpl in Hf; fire_inv Hf; injection Hf as <-;
    unfold sentInv; simpl; try done;
    try destruct g; simpl in *; split_hyps; eauto.
Qed.

Lemma reachable_sentInv (c : runner.conf) : runner.reachable c → sentInv c.
Proof. revert c. apply reachable_ind; [done|]. apply sentInv_fire. Qed.

Lemma reachable_endInv (c : runner.conf) : runner.reachable c → endInv c.
Proof.
  intros Hr.
  cut (chanInv c ∧ sentInv c ∧ endInv c); [by intros (_ & _ & H)|].
  revert c Hr. apply reachable_ind.
  { repeat split; try done. }
  intros l c c' (Hc & Hs & He) Hf.
  split; [by eapply chanInv_fire|]. split; [by eapply sentInv_fire|].
  destruct c as [m g w ch d p s x]. unfold chanInv, sentInv, endInv in *.
  simpl in *.
  destruct l; simpl in Hf; fire_inv Hf; injection Hf as <-; simpl;
    intros Hg; try discriminate Hg; split_hyps; eauto;
    try (destruct He as [He|[He|[e' He]]]; [done|..]; eauto; try discriminate He);
    try (destruct m; try done; eauto).
Qed.

(** X6.  The signals a unit's process is sent.  [runCommand] itself signals
    the process group: SIGTERM, then SIGKILL, each at most once and never
    SIGKILL without SIGTERM before it.  Beside that os/exec sends SIGKILL
    to the process itself, at most once.  Nothing is sent before the
    unit's context is cancelled.  The two senders are not ordered: the
    SIGKILL of os/exec can go out before any SIGTERM has. *)
Theorem runCommand_signals (c : runner.conf) :
  (runner.reachable c →
   (runner.sent c = [] ∨ runner.sent c = [exec.SIGTERM]
    ∨ runner.sent c = [exec.SIGTERM; exec.SIGKILL])
   ∧ (runner.execSent c = [] ∨ runner.execSent c = [exec.SIGKILL])
   ∧ (runner.sent c ≠ [] ∨ runner.execSent c ≠ [] →
      runner.ctxDone c = true))
  ∧ (∃ c0, runner.fires killedFirst runner.init = Some c0
           ∧ runner.sent c0 = []
           ∧ runner.execSent c0 = [exec.SIGKILL]).
Proof.
  split; [|by eexists].
  intros Hr. pose proof (reachable_sentInv c Hr) as Hs.
  pose proof (reachable_watchInv c Hr) as Hw.
  destruct c as [m g w ch d p s x]. unfold sentInv, watchInv in *.
  simpl in *.
  assert (Hx : (x = [] ∨ x = [exec.SIGKILL]) ∧ (x ≠ [] → d = true)).
  { destruct w; split_hyps; split; eauto; done. }
  assert (Hsent : (s = [] ∨ s = [exec.SIGTERM]
                   ∨ s = [exec.SIGTERM; exec.SIGKILL])
                  ∧ (s ≠ [] → d = true)).
  { destruct g; split_hyps; split; eauto; done. }
  destruct Hx as [Hx Hxd], Hsent as [Hsent Hsd].
  split; [done|]. split; [done|]. intros [H|H]; auto.
Qed.

(** X6 for a cancelled unit whose process is reaped in time. *)
Lemma runCommand_signals_witness :
  (runner.sent promptEnd = [] ∨ runner.sent promptEnd = [exec.SIGTERM]
   ∨ runner.sent promptEnd = [exec.SIGTERM; exec.SIGKILL])
  ∧ (runner.execSent promptEnd = []
     ∨ runner.execSent promptEnd = [exec.SIGKILL])
  ∧ (runner.sent promptEnd ≠ [] ∨ runner.execSent promptEnd ≠ [] →
     runner.ctxDone promptEnd = true).
Proof.
  apply (proj1 (runCommand_signals promptEnd)). by exists promptReap.
Defined.

(** X7.  A unit that is never cancelled cannot block.  When no goroutine
    and not the process can take a step, [runCommand] has returned the
    result of [c.Wait()] and no signal has been sent, neither by
    [runCommand] nor by os/exec. *)
Theorem uncancelled_runCommand_returns (c : runner.conf) :
  runner.reachable c →
  runner.ctxDone c = false →
  quiet c →
  ∃ w, runner.proc c = Some w
       ∧ runner.mpc c = runner.MReturn (exec.Wait w)
       ∧ runner.sent c = []
       ∧ runner.execSent c = [].
Proof.
  intros Hr Hd Hq.
  pose proof (reachable_chanInv c Hr) as Hc.
  pose proof (reachable_waitInv c Hr) as Hw.
  pose proof (reachable_sentInv c Hr) as Hs.
  pose proof (reachable_endInv c Hr) as He.
  pose proof (reachable_watchInv c Hr) as Hx.
  destruct c as [m g w ch d p s x].
  unfold chanInv, waitInv, waited, sentInv, endInv, watchInv in *.
  simpl in *. subst d.
  destruct p as [st|]; [|by pose proof (Hq (runner.exits 0%Z) ltac:(done))].
  exists st. split; [done|].
  destruct m as [| |e| |e].
  - by pose proof (Hq runner.main_wait ltac:(done)).
  - destruct w; split_hyps; try done.
    by pose proof (Hq runner.main_watch ltac:(done)).
  - destruct ch as [y|]; [|by pose proof (Hq runner.main_send ltac:(done))].
    destruct g; try done.
    destruct (He eq_refl) as [?|[?|[? ?]]]; done.
  - destruct ch as [y|]; [by pose proof (Hq runner.main_recv ltac:(done))|].
    destruct g; try (by destruct Hc).
    by pose proof (Hq runner.canc_forward ltac:(done)).
  - destruct Hw as (w' & [= <-] & [->|(_ & _ & ? & _)]); [|done].
    split; [done|]. split.
    + destruct g; split_hyps; done.
    + destruct w; split_hyps; done.
Qed.

(** X7 for a process that exits with code 3. *)
Lemma uncancelled_runCommand_returns_witness :
  ∃ w, runner.proc plainEnd = Some w
       ∧ runner.mpc plainEnd = runner.MReturn (exec.Wait w)
       ∧ runner.sent plainEnd = []
       ∧ runner.execSent plainEnd = [].
Proof.
  apply (uncancelled_runCommand_returns plainEnd).
  - by exists plainRun.
  - reflexivity.
  - intros l Hl. by destruct l.
Defined.

(** X8.  [runCommand] can return while its canceller goroutine is still
    waiting in [select] (the function received its own send back).  When
    the unit's context is cancelled afterwards, the canceller sends SIGTERM
    and SIGKILL to the group of a process that was reaped long before;
    os/exec, whose watcher has ended, sends nothing. *)
Theorem late_cancel_signals_reaped_process (c : runner.conf)
    (finalErr : option exec.error) :
  runner.reachable c →
  runner.mpc c = runner.MReturn finalErr →
  runner.gpc c = runner.GSelect →
  runner.ctxDone c = false →
  ∃ w c', runner.proc c = Some w
          ∧ finalErr = exec.Wait w
          ∧ runner.sent c = []
          ∧ runner.fires lateCancel c = Some c'
          ∧ runner.mpc c' = runner.MReturn finalErr
          ∧ runner.proc c' = Some w
          ∧ runner.sent c' = [exec.SIGTERM; exec.SIGKILL]
          ∧ runner.execSent c' = [].
Proof.
  intros Hr Hm Hg Hd.
  pose proof (reachable_waitInv c Hr) as Hw.
  pose proof (reachable_sentInv c Hr) as Hs.
  pose proof (reachable_watchInv c Hr) as Hx.
  destruct c as [m g w ch d p s x].
  unfold waitInv, waited, sentInv, watchInv in *. simpl in *.
  subst m g d s. destruct Hw as (st & -> & [->|(_ & _ & ? & _)]); [|done].
  assert (x = []) as ->.
  { destruct w; split_hyps; done. }
  exists st. eexists. repeat split; reflexivity.
Qed.

(** X8 for a process that exited with code 0. *)
Lemma late_cancel_signals_reaped_process_witness :
  ∃ w c', runner.proc (leftWaiting (exec.exit_status 0)) = Some w
          ∧ exec.Wait (exec.exit_status 0) = exec.Wait w
          ∧ runner.sent (leftWaiting (exec.exit_status 0)) = []
          ∧ runner.fires lateCancel (leftWaiting (exec.exit_status 0)) = Some c'
          ∧ runner.mpc c' = runner.MReturn (exec.Wait (exec.exit_status 0))
          ∧ runner.proc c' = Some w
          ∧ runner.sent c' = [exec.SIGTERM; exec.SIGKILL]
          ∧ runner.execSent c' = [].
Proof.
  apply (late_cancel_signals_reaped_process
           (leftWaiting (exec.exit_status 0)) (exec.Wait (exec.exit_status 0))).
  - by exists (ownReceive (exec.exit_status 0)).
  - reflexivity.
  - reflexivity.
  - reflexivity.
Defined.

(** X4 at the blocked configuration. *)
Lemma stuck_only_behind_canceller_witness :
  (∃ finalErr, runner.mpc blocked = runner.MReturn finalErr)
  ∨ (∃ errWait, runner.mpc blocked = runner.MSend errWait)
    ∧ runner.waitChan blocked = Some (Some exec.Canceled)
    ∧ runner.gpc blocked = runner.GEnd
    ∧ runner.ctxDone blocked = true.
Proof.
  apply (stuck_only_behind_canceller blocked).
  - by exists lateReap.
  - intros l. by destruct l.
Defined.

(** X5 on the seven steps of an uncancelled unit. *)
Lemma fires_bounded_witness :
  (length plainRun + stepsLeft plainEnd ≤ stepsLeft runner.init)%nat.
Proof.
  apply (fires_bounded plainRun runner.init plainEnd). reflexivity.
Defined.

(** X3 for a unit cancelled just as its process exits with status 0: the
    context's error is reported, and the unit shows as "failed". *)
Lemma runCommand_returns_wait_result_witness :
  ∃ w, runner.proc lostRaceEnd = Some w
       ∧ (Some exec.Canceled = exec.Wait w
          ∨ (exec.Wait w = None ∧ Some exec.Canceled = Some exec.Canceled
             ∧ runner.ctxDone lostRaceEnd = true
             ∧ runner.execSent lostRaceEnd = [exec.SIGKILL]))
       ∧ (exec.Wait w ≠ None → Some exec.Canceled = exec.Wait w).
Proof.
  apply (runCommand_returns_wait_result lostRaceEnd (Some exec.Canceled)).
  - by exists lostRace.
  - reflexivity.
Defined.

(** ** [Init] *)

Lemma elem_of_concat {A : Type} (x : A) (ls : list (list A)) :
  x ∈ concat ls ↔ ∃ l, x ∈ l ∧ l ∈ ls.
Proof.
  induction ls as [|l ls IH]; simpl.
  - split; [intros H; inversion H|]. intros (l & _ & H). inversion H.
  - rewrite elem_of_app, IH. split.
    + intros [H|(l' & H1 & H2)]; [exists l|exists l']; (split; [done|]);
        [left|by right].
    + intros (l' & H1 & H2). apply elem_of_cons in H2 as [->|H2]; eauto.
Qed.

Lemma imap_command (i : nat) (dir : string) (g : nat → nat)
    (scripts : list ptr) :
  map command (imap (λ j script, mkTask i (g j) script dir) scripts) = scripts.
Proof.
  revert g. induction scripts as [|s scripts IH]; intros g; simpl; [done|].
  f_equal. apply (IH (g ∘ S)).
Qed.

Lemma Init_commands_from (g : nat → nat) (ps : list Project) :
  map command
      (concat (imap (λ i proj,
                       imap (λ j script, mkTask (g i) j script (Dir proj))
                            (Scripts proj)) ps))
  = concat (map Scripts ps).
Proof.
  revert g. induction ps as [|p ps IH]; intros g; simpl; [done|].
  rewrite map_app. f_equal; [apply (imap_command _ _ id)|apply (IH (g ∘ S))].
Qed.

Lemma elem_of_Init (m : model) (t : Task) :
  t ∈ Init m ↔
  ∃ proj, projects m !! projIndex t = Some proj
          ∧ Scripts proj !! scriptIndex t = Some (command t)
          ∧ workdir t = Dir proj.
Proof.
  unfold Init. rewrite elem_of_concat. split.
  - intros (ts & Ht & Hts).
    apply elem_of_lookup_imap in Hts as (i & proj & -> & Hi).
    apply elem_of_lookup_imap in Ht as (j & script & -> & Hj).
    exists proj. simpl. done.
  - intros (proj & Hi & Hj & Hd).
    exists (imap (λ j script, mkTask (projIndex t) j script (Dir proj))
                 (Scripts proj)).
    split.
    + apply elem_of_lookup_imap. exists (scriptIndex t), (command t).
      split; [|done]. destruct t; simpl in *. by subst.
    + apply elem_of_lookup_imap. by exists (projIndex t), proj.
Qed.

Lemma Init_target (m : model) (t : Task) :
  t ∈ Init m → target m (projIndex t) (scriptIndex t) = Some (command t).
Proof.
  intros Ht. apply elem_of_Init in Ht as (proj & Hi & Hj & _).
  unfold target. by rewrite Hi.
Qed.

(** X9.  [Init] starts exactly one [runCommand] per registered unit: the
    task with indices [(i, j)] is the one for unit [j] of project [i], it
    holds that unit's pointer and runs in the project's directory; the
    tasks come in registry order, one for every unit. *)
Theorem Init_one_task_per_unit (m : model) :
  (∀ t, t ∈ Init m ↔
        ∃ proj, projects m !! projIndex t = Some proj
                ∧ Scripts proj !! scriptIndex t = Some (command t)
                ∧ workdir t = Dir proj)
  ∧ map command (Init m) = units m
  ∧ length (Init m) = length (units m)
  ∧ (∀ t, t ∈ Init m →
          target m (projIndex t) (scriptIndex t) = Some (command t)).
Proof.
  assert (H2 : map command (Init m) = units m).
  { unfold Init, units. apply (Init_commands_from id). }
  split; [apply elem_of_Init|]. split; [done|]. split.
  - by rewrite <- H2, length_map.
  - apply Init_target.
Qed.

(** ** Messages of any kind *)

Lemma onKey_cases (m : model) (k : string) :
  (Matches k keys_Quit = true
   ∧ Matches k keys_Scripts = false ∧ Matches k keys_Timer = false
   ∧ Matches k keys_Debug = false ∧ Matches k keys_Help = false
   ∧ onKey m k = (CancelScripts m, AfterWait Quit))
  ∨ (∃ m', onKey m k = (m', stopwatchCmd)
           ∧ projects m' = projects m ∧ heap m' = heap m
           ∧ liveOutput m' = liveOutput m ∧ done m' = done m).
Proof.
  unfold onKey.
  destruct (Matches k keys_Scripts) eqn:E1; [right; by eexists|].
  destruct (Matches k keys_Timer) eqn:E2; [right; by eexists|].
  destruct (Matches k keys_Debug) eqn:E3; [right; by eexists|].
  destruct (Matches k keys_Help) eqn:E4; [right; by eexists|].
  destruct (Matches k keys_Quit) eqn:E5; [by left|right; by eexists].
Qed.

Lemma heap_length_cancel (m : model) :
  length (heap (CancelScripts m)) = length (heap m).
Proof.
  unfold CancelScripts. simpl. generalize (heap m).
  induction (projects m) as [|proj rest IH]; intros h; simpl; [done|].
  rewrite IH. generalize h. clear.
  induction (Scripts proj) as [|c cs IH]; intros h; simpl; [done|].
  by rewrite IH, length_alter.
Qed.

(** What one step of either [Update] does to the registry. *)
Lemma Update_step (upd : model → Msg → option (model * Cmd))
    (m : model) (msg : Msg) (m' : model) (c : Cmd) :
  upd = views.Update ∨ upd = views2.Update →
  upd m msg = Some (m', c) →
  projects m' = projects m
  ∧ length (heap m') = length (heap m)
  ∧ ((∀ p, status_at (heap m') p = status_at (heap m) p)
     ∨ ∃ i j err script,
         msg = commandFinishedMessage i j err
         ∧ target m i j = Some script
         ∧ heap m' = alter (set_Status (finishedStatus err)) script (heap m)).
Proof.
  intros Hupd H.
  destruct msg as [k| | |i j err|s|i j output|].
  - assert (Heq : onKey m k = (m', c))
      by (destruct Hupd as [-> | ->]; simpl in H; congruence).
    destruct (onKey_cases m k) as [(_ & _ & _ & _ & _ & Hq)|(m1 & Hq & ? & Hh & _)];
      rewrite Hq in Heq; injection Heq as <- <-.
    + split; [done|]. split; [apply heap_length_cancel|].
      left. apply CancelScripts_status.
    + split; [done|]. rewrite Hh. split; [done|]. by left.
  - destruct Hupd as [-> | ->]; injection H as <- <-; repeat split; by left.
  - destruct Hupd as [-> | ->]; injection H as <- <-; repeat split; by left.
  - rewrite (either_Update_finished upd Hupd) in H.
    apply onCommandFinished_spec in H as (script & Ht & Hps & Hh & _).
    split; [done|]. split; [by rewrite Hh, length_alter|].
    right. by exists i, j, err, script.
  - destruct Hupd as [-> | ->]; injection H as <- <-;
      (split; [done|]); (split; [apply heap_length_cancel|]);
      left; apply CancelScripts_status.
  - destruct Hupd as [-> | ->]; injection H as <- <-; repeat split; by left.
  - destruct Hupd as [-> | ->]; injection H as <- <-; repeat split; by left.
Qed.

Lemma Update_is_Some (upd : model → Msg → option (model * Cmd))
    (m : model) (msg : Msg) :
  upd = views.Update ∨ upd = views2.Update →
  is_Some (upd m msg) ↔ addressed m msg.
Proof.
  intros Hupd. destruct msg as [k| | |i j err|s|i j output|]; simpl;
    try (rewrite (either_Update_finished upd Hupd);
         apply onCommandFinished_is_Some);
    destruct Hupd as [-> | ->]; simpl; split; intros _; done.
Qed.

Lemma addressed_ext (m m' : model) (msg : Msg) :
  projects m' = projects m → addressed m' msg ↔ addressed m msg.
Proof.
  intros Hps. destruct msg; simpl; try done.
  unfold target. by rewrite Hps.
Qed.

(** X10.  The event loop panics exactly on an outcome event whose indices
    name no registered unit.  A sequence of messages is processed to its
    end if and only if every outcome event in it addresses a unit of the
    registry; every task that [Init] starts addresses one. *)
Theorem Update_panics_iff_unregistered
    (upd : model → Msg → option (model * Cmd)) (m : model) (msgs : list Msg) :
  upd = views.Update ∨ upd = views2.Update →
  (is_Some (run upd m msgs) ↔ Forall (addressed m) msgs)
  ∧ (∀ t err, t ∈ Init m →
       addressed m (commandFinishedMessage (projIndex t) (scriptIndex t) err)).
Proof.
  intros Hupd. split.
  - revert m. induction msgs as [|msg msgs IH]; intros m; simpl.
    + split; [by constructor|done].
    + rewrite Forall_cons. rewrite <- (Update_is_Some upd m msg Hupd).
      destruct (upd m msg) as [[m' c]|] eqn:H1.
      * pose proof (Update_step upd m msg m' c Hupd H1) as (Hps & _).
        assert (Hfa : Forall (addressed m) msgs ↔ Forall (addressed m') msgs).
        { apply Forall_iff. intros x. symmetry. by apply addressed_ext. }
        rewrite Hfa, <- IH.
        destruct (run upd m' msgs) as [[m'' cs]|]; split; intros H;
          try done; try (by destruct H as [? ?]);
          try (by destruct H as [_ [? ?]]).
      * split; intros H; [by destruct H|]. by destruct H as [[? ?] _].
  - intros t err Ht. simpl.
    by rewrite (Init_target m t Ht).
Qed.

(** X10 for two projects with one unit each and an event for a third project. *)
Lemma Update_panics_iff_unregistered_witness :
  (is_Some (run views2.Update twoRegistered strayOutcome)
   ↔ Forall (addressed twoRegistered) strayOutcome)
  ∧ (∀ t err, t ∈ Init twoRegistered →
       addressed twoRegistered
         (commandFinishedMessage (projIndex t) (scriptIndex t) err)).
Proof.
  apply (Update_panics_iff_unregistered views2.Update twoRegistered strayOutcome).
  by right.
Defined.

(** ** Statuses over a run *)

Lemma Update_running (upd : model → Msg → option (model * Cmd))
    (m : model) (msg : Msg) (m' : model) (c : Cmd) (p : ptr) :
  upd = views.Update ∨ upd = views2.Update →
  upd m msg = Some (m', c) →
  (status_at (heap m') p = "running" → status_at (heap m) p = "running")
  ∧ (terminal (status_at (heap m) p) → terminal (status_at (heap m') p)).
Proof.
  intros Hupd H.
  destruct (Update_step upd m msg m' c Hupd H)
    as (_ & _ & [Hst|(i & j & err & script & -> & Ht & Hh)]).
  - by rewrite Hst.
  - rewrite Hh, status_at_alter.
    destruct (decide (p = script)) as [->|]; [|done].
    destruct (decide (script < length (heap m))) as [Hlt|Hge].
    + split; [|intros _; apply finishedStatus_terminal].
      intros Heq.
      by destruct (terminal_not_running _ (finishedStatus_terminal err)).
    + split; [done|]. unfold status_at.
      rewrite lookup_ge_None_2 by lia. by intros [?|[?|?]].
Qed.

(** X11.  No message ever sets a unit back to "running".  Over any run of
    either event loop a unit that shows "running" afterwards showed it
    before, a unit with a terminal status keeps a terminal status, and once
    no unit is running this stays so. *)
Theorem running_units_only_decrease
    (upd : model → Msg → option (model * Cmd)) (msgs : list Msg)
    (m m' : model) (cs : list Cmd) :
  upd = views.Update ∨ upd = views2.Update →
  run upd m msgs = Some (m', cs) →
  (∀ p, status_at (heap m') p = "running" → status_at (heap m) p = "running")
  ∧ (∀ p, terminal (status_at (heap m) p) → terminal (status_at (heap m') p))
  ∧ (anyStatus m "running" = false → anyStatus m' "running" = false)
  ∧ (allTerminal m → allTerminal m').
Proof.
  intros Hupd Hrun.
  assert (H : projects m' = projects m
              ∧ (∀ p, status_at (heap m') p = "running"
                      → status_at (heap m) p = "running")
              ∧ (∀ p, terminal (status_at (heap m) p)
                      → terminal (status_at (heap m') p))).
  { revert m cs Hrun. induction msgs as [|msg msgs IH]; intros m cs.
    - by intros [= <- <-].
    - intros Hrun. apply run_cons_inv in Hrun as (m1 & c & cs' & H1 & Hrun & ->).
      destruct (IH _ _ Hrun) as (Hps & Hr & Ht).
      pose proof (Update_step upd m msg m1 c Hupd H1) as (Hps1 & _).
      split; [congruence|]. split; intros p Hp.
      + apply (Update_running upd m msg m1 c p Hupd H1). by apply Hr.
      + apply Ht. by apply (Update_running upd m msg m1 c p Hupd H1). }
  destruct H as (Hps & Hr & Ht). split; [done|]. split; [done|]. split.
  - intros Hno. destruct (anyStatus m' "running") eqn:E; [|done].
    apply anyStatus_spec in E as (p & Hp & Hs).
    assert (Hany : anyStatus m "running" = true); [|congruence].
    apply anyStatus_spec. exists p. split; [|by apply Hr].
    apply elem_of_units. apply elem_of_units in Hp. by rewrite <- Hps.
  - intros Hall p Hp. apply Ht, Hall.
    apply elem_of_units. apply elem_of_units in Hp. by rewrite <- Hps.
Qed.

(** X11 over two outcome events. *)
Lemma running_units_only_decrease_witness :
  (∀ p, status_at (heap twoUnits_after) p = "running"
        → status_at (heap twoUnits) p = "running")
  ∧ (∀ p, terminal (status_at (heap twoUnits) p)
          → terminal (status_at (heap twoUnits_after) p))
  ∧ (anyStatus twoUnits "running" = false
     → anyStatus twoUnits_after "running" = false)
  ∧ (allTerminal twoUnits → allTerminal twoUnits_after).
Proof.
  apply (running_units_only_decrease views2.Update
           [commandFinishedMessage 1 0 (exec.Wait (exec.exit_status 1));
            commandFinishedMessage 0 0 None]
           twoUnits twoUnits_after
           [CmdNil; Batch [doneCmd false; stopwatchCmd]]).
  - by right.
  - reflexivity.
Defined.

(** ** [CancelScripts] *)

Lemma set_Cancelled_idemp (c : Command) :
  set_Cancelled (set_Cancelled c) = set_Cancelled c.
Proof. done. Qed.

Lemma cancel_list_lookup (l : list ptr) (h : list Command) (p : ptr) :
  foldl (λ h' c, alter set_Cancelled c h') h l !! p
  = (if bool_decide (p ∈ l) then set_Cancelled else id) <$> (h !! p).
Proof.
  revert h. induction l as [|q l IH]; intros h; simpl.
  - by destruct (h !! p).
  - rewrite IH. destruct (decide (p = q)) as [->|Hne].
    + rewrite list_lookup_alter_eq.
      rewrite (bool_decide_eq_true_2 (q ∈ q :: l)) by left.
      destruct (h !! q) as [c|]; simpl; [|done].
      by destruct (bool_decide (q ∈ l)).
    + rewrite list_lookup_alter_ne by done.
      assert (Hiff : p ∈ q :: l ↔ p ∈ l).
      { rewrite elem_of_cons. split; [by intros [?|?]|by right]. }
      by rewrite (bool_decide_ext _ _ Hiff).
Qed.

Lemma cancel_all_lookup (ps : list Project) (h : list Command) (p : ptr) :
  foldl (λ h p, foldl (λ h' c, alter set_Cancelled c h') h (Scripts p)) h ps !! p
  = (if bool_decide (p ∈ scriptsOf ps) then set_Cancelled else id) <$> (h !! p).
Proof.
  revert h. induction ps as [|proj ps IH]; intros h; simpl.
  - by destruct (h !! p).
  - rewrite IH, cancel_list_lookup. unfold scriptsOf. simpl.
    destruct (h !! p) as [c|]; simpl; [|done]. f_equal.
    destruct (decide (p ∈ Scripts proj)) as [Hin|Hnin].
    + rewrite (bool_decide_eq_true_2 _ Hin).
      rewrite (bool_decide_eq_true_2 (p ∈ Scripts proj ++ _));
        [|apply elem_of_app; by left].
      by destruct (bool_decide _).
    + rewrite (bool_decide_eq_false_2 _ Hnin).
      assert (Hiff : p ∈ Scripts proj ++ concat (map Scripts ps)
                     ↔ p ∈ concat (map Scripts ps)).
      { rewrite elem_of_app. split; [by intros [?|?]|by right]. }
      by rewrite (bool_decide_ext _ _ Hiff).
Qed.

(** X12.  [CancelScripts] cancels the context of every unit a project
    holds and touches nothing else: statuses, scripts, arguments and
    captured output stay as they are, cells no project points to are left
    alone, and cancelling twice is cancelling once. *)
Theorem CancelScripts_cancels_every_unit (m : model) :
  projects (CancelScripts m) = projects m
  ∧ liveOutput (CancelScripts m) = liveOutput m
  ∧ done (CancelScripts m) = done m
  ∧ (∀ p, heap (CancelScripts m) !! p
          = (if bool_decide (p ∈ units m) then set_Cancelled else id)
              <$> (heap m !! p))
  ∧ (∀ p c, p ∈ units m → heap (CancelScripts m) !! p = Some c →
            Cancelled c = true)
  ∧ (∀ p, status_at (heap (CancelScripts m)) p = status_at (heap m) p)
  ∧ CancelScripts (CancelScripts m) = CancelScripts m.
Proof.
  assert (Hl : ∀ m p, heap (CancelScripts m) !! p
          = (if bool_decide (p ∈ units m) then set_Cancelled else id)
              <$> (heap m !! p)).
  { intros m0 p. unfold CancelScripts. simpl. apply cancel_all_lookup. }
  split; [done|]. split; [done|]. split; [done|]. split; [apply Hl|].
  split; [|split; [apply CancelScripts_status|]].
  - intros p c Hp. rewrite Hl, (bool_decide_eq_true_2 _ Hp).
    destruct (heap m !! p); simpl; [|done]. by intros [= <-].
  - assert (Hh : heap (CancelScripts (CancelScripts m)) = heap (CancelScripts m)).
    { apply list_eq. intros p. rewrite (Hl (CancelScripts m)), (Hl m).
      change (units (CancelScripts m)) with (units m).
      destruct (heap m !! p) as [c|]; simpl; [|done].
      by destruct (bool_decide (p ∈ units m)). }
    unfold CancelScripts, set_heap in Hh |- *. simpl in *. by f_equal.
Qed.

(** ** Keys *)

Lemma Matches_single (k x : string) : Matches k [x] = String.eqb k x.
Proof. unfold Matches. simpl. apply orb_false_r. Qed.

Lemma Matches_elem_of (k : string) (binding : list string) :
  Matches k binding = true ↔ k ∈ binding.
Proof.
  unfold Matches. rewrite existsb_exists. split.
  - intros (x & Hin & Heq). apply String.eqb_eq in Heq as ->.
    by apply list_elem_of_In.
  - intros Hin. exists k. split; [by apply list_elem_of_In|apply String.eqb_refl].
Qed.

(** X13.  What a key press does.  On a quit key (q, esc, ctrl+c) [Update]
    cancels every unit and then waits for all of them ([m.cmdWg.Wait()])
    before it returns [tea.Quit]; a quit key is the only message on which
    a call of [Update] waits.  The [programDoneMessage] cancels every unit
    and quits at once, whatever its success flag.  Any other key leaves
    projects, units and live output untouched and never quits; each of s,
    t, d and ? flips one display flag, so pressing it twice restores the
    model; every other key changes nothing. *)
Theorem keys_quit_or_toggle (upd : model → Msg → option (model * Cmd))
    (m : model) (k : string) (success : bool) :
  upd = views.Update ∨ upd = views2.Update →
  upd m (programDoneMessage success) = Some (CancelScripts m, Quit)
  ∧ (k ∈ keys_Quit →
     upd m (KeyMsg k) = Some (CancelScripts m, AfterWait Quit))
  ∧ (∀ msg m' c, upd m msg = Some (m', c) →
       (waits c = true ↔ ∃ k', msg = KeyMsg k' ∧ k' ∈ keys_Quit))
  ∧ (k ∉ keys_Quit →
     ∃ m', upd m (KeyMsg k) = Some (m', stopwatchCmd)
           ∧ projects m' = projects m ∧ heap m' = heap m
           ∧ liveOutput m' = liveOutput m ∧ done m' = done m)
  ∧ (k ∈ toggleKeys →
     ∃ m', upd m (KeyMsg k) = Some (m', stopwatchCmd)
           ∧ m' ≠ m
           ∧ upd m' (KeyMsg k) = Some (m, stopwatchCmd))
  ∧ (k ∉ toggleKeys → k ∉ keys_Quit →
     upd m (KeyMsg k) = Some (m, stopwatchCmd)).
Proof.
  intros Hupd.
  assert (Hk : ∀ m k, upd m (KeyMsg k) = Some (onKey m k))
    by (by destruct Hupd as [-> | ->]).
  split; [by destruct Hupd as [-> | ->]|].
  split; [|split; [|split; [|split]]].
  - intros Hq. rewrite Hk. f_equal.
    unfold keys_Quit in Hq. rewrite !elem_of_cons in Hq.
    destruct Hq as [->|[->|[->|Hq]]]; [done..|inversion Hq].
  - intros msg m' c H.
    destruct msg as [k'| | |i j err|s|i j output|].
    + rewrite Hk in H. injection H as H.
      destruct (onKey_cases m k') as [(Hm & _ & _ & _ & _ & Hq)|(m1 & Hq & _)];
        rewrite Hq in H; injection H as <- <-; simpl.
      * split; [|done]. intros _. exists k'. split; [done|].
        by apply Matches_elem_of.
      * split; [done|]. intros (k2 & [= <-] & Hin).
        unfold keys_Quit in Hin. rewrite !elem_of_cons in Hin.
        destruct Hin as [->|[->|[->|Hin]]]; [..|inversion Hin];
          unfold onKey in Hq; simpl in Hq; discriminate Hq.
    + assert (c = stopwatchCmd) as ->
        by (destruct Hupd as [-> | ->]; by injection H as <- <-).
      split; [done|]. by intros (k2 & [=] & _).
    + assert (c = (onSpinnerTick m).2) as ->
        by (destruct Hupd as [-> | ->]; by injection H as <- <-).
      split; [done|]. by intros (k2 & [=] & _).
    + assert (Hfin : onCommandFinished m i j err = Some (m', c))
        by (by destruct Hupd as [-> | ->]).
      split; [|by intros (k2 & [=] & _)].
      unfold onCommandFinished in Hfin.
      destruct (projects m !! i) as [proj|]; [|done]. simpl in Hfin.
      destruct (Scripts proj !! j) as [script|]; [|done]. simpl in Hfin.
      repeat match type of Hfin with
             | (if ?b then _ else _) = _ => destruct b
             end; by injection Hfin as <- <-.
    + assert (c = Quit) as ->
        by (destruct Hupd as [-> | ->]; by injection H as <- <-).
      split; [done|]. by intros (k2 & [=] & _).
    + assert (c = stopwatchCmd) as ->.
      { destruct Hupd as [-> | ->]; injection H as <- <-; [done|].
        reflexivity. }
      split; [done|]. by intros (k2 & [=] & _).
    + assert (c = stopwatchCmd) as ->
        by (destruct Hupd as [-> | ->]; by injection H as <- <-).
      split; [done|]. by intros (k2 & [=] & _).
  - intros Hq. rewrite Hk.
    destruct (onKey_cases m k) as [(Hm & _)|(m' & -> & H)].
    + by apply Matches_elem_of in Hm.
    + by exists m'.
  - intros Ht. unfold toggleKeys in Ht. rewrite !elem_of_cons in Ht.
    rewrite !Hk. destruct m as [ps h lo d sw ss so ha].
    destruct Ht as [->|[->|[->|[->|Ht]]]]; [..|inversion Ht];
      eexists; (split; [reflexivity|]); unfold onKey; simpl;
      (split; [intros [= Hneg]; by destruct ss, sw, so, ha|]);
      rewrite Hk; unfold onKey; simpl;
      unfold set_showScripts, set_showStopwatch, set_showStdout,
        set_helpShowAll; simpl; by rewrite negb_involutive.
  - intros Ht Hq. rewrite Hk. unfold onKey.
    assert (Hs : Matches k keys_Scripts = false).
    { unfold keys_Scripts. rewrite Matches_single. apply String.eqb_neq.
      intros ->. apply Ht. unfold toggleKeys. by repeat constructor. }
    assert (Htm : Matches k keys_Timer = false).
    { unfold keys_Timer. rewrite Matches_single. apply String.eqb_neq.
      intros ->. apply Ht. unfold toggleKeys. by repeat constructor. }
    assert (Hd : Matches k keys_Debug = false).
    { unfold keys_Debug. rewrite Matches_single. apply String.eqb_neq.
      intros ->. apply Ht. unfold toggleKeys. by repeat constructor. }
    assert (Hh : Matches k keys_Help = false).
    { unfold keys_Help. rewrite Matches_single. apply String.eqb_neq.
      intros ->. apply Ht. unfold toggleKeys. by repeat constructor. }
    assert (Hqq : Matches k keys_Quit = false).
    { destruct (Matches k keys_Quit) eqn:E; [|done].
      by apply Matches_elem_of in E. }
    by rewrite Hs, Htm, Hd, Hh, Hqq.
Qed.

(** X13 for the esc key. *)
Lemma keys_quit_or_toggle_witness :
  views2.Update twoUnits (programDoneMessage false)
  = Some (CancelScripts twoUnits, Quit)
  ∧ ("esc" ∈ keys_Quit →
     views2.Update twoUnits (KeyMsg "esc")
     = Some (CancelScripts twoUnits, AfterWait Quit))
  ∧ (∀ msg m' c, views2.Update twoUnits msg = Some (m', c) →
       (waits c = true ↔ ∃ k', msg = KeyMsg k' ∧ k' ∈ keys_Quit))
  ∧ ("esc" ∉ keys_Quit →
     ∃ m', views2.Update twoUnits (KeyMsg "esc") = Some (m', stopwatchCmd)
           ∧ projects m' = projects twoUnits ∧ heap m' = heap twoUnits
           ∧ liveOutput m' = liveOutput twoUnits ∧ done m' = done twoUnits)
  ∧ ("esc" ∈ toggleKeys →
     ∃ m', views2.Update twoUnits (KeyMsg "esc") = Some (m', stopwatchCmd)
           ∧ m' ≠ twoUnits
           ∧ views2.Update m' (KeyMsg "esc") = Some (twoUnits, stopwatchCmd))
  ∧ ("esc" ∉ toggleKeys → "esc" ∉ keys_Quit →
     views2.Update twoUnits (KeyMsg "esc") = Some (twoUnits, stopwatchCmd)).
Proof.
  apply (keys_quit_or_toggle views2.Update twoUnits "esc" false). by right.
Defined.

(** ** The shared unit of the earlier [AddCommand] *)

Lemma units_shared (cmd : ptr) (p1 p2 : Project) (rest : list Project) :
  ¬ NoDup (concat (map Scripts (map (appendScript cmd) (p1 :: p2 :: rest)))).
Proof.
  simpl. intros Hnd. apply NoDup_app in Hnd as (_ & Hdisj & _).
  apply (Hdisj cmd).
  - apply elem_of_app. right. by left.
  - apply elem_of_app. left. apply elem_of_app. right. by left.
Qed.

(** X14.  The earlier [AddCommand] (src/views/commandRunner.go) hands the
    one unit it allocates to every project.  With a single project this
    cannot be told from the later version; with two or more the registry
    always holds an aliased unit. *)
Theorem views_AddCommand_shares_among_all (script : string)
    (args : list string) (m : model) :
  heap (views.AddCommand script args m) = heap m ++ [newCommand script args]
  ∧ (∀ i proj, projects m !! i = Some proj →
       projects (views.AddCommand script args m) !! i
       = Some (appendScript (length (heap m)) proj))
  ∧ (∀ proj, proj ∈ projects (views.AddCommand script args m) →
       last (Scripts proj) = Some (length (heap m)))
  ∧ ((2 ≤ length (projects m))%nat →
     ¬ NoDup (units (views.AddCommand script args m)))
  ∧ (length (projects m) = 1%nat →
     views.AddCommand script args m = views2.AddCommand script args m).
Proof.
  split; [done|]. split; [|split; [|split]].
  - intros i proj Hi. unfold views.AddCommand. simpl.
    by rewrite list_lookup_fmap, Hi.
  - intros proj. unfold views.AddCommand. simpl.
    rewrite list_elem_of_fmap. intros (p0 & -> & _). simpl. apply last_snoc.
  - intros Hlen. unfold units, views.AddCommand. simpl.
    destruct (projects m) as [|p1 [|p2 rest]]; simpl in Hlen; [lia..|].
    apply units_shared.
  - intros Hlen. destruct m as [ps h lo d sw ss so ha]. simpl in Hlen.
    destruct ps as [|p1 [|p2 rest]]; simpl in Hlen; try lia. done.
Qed.

(** X14 for two projects. *)
Lemma views_AddCommand_shares_among_all_witness :
  (2 ≤ length (projects twoProjects))%nat
  ∧ ¬ NoDup (units (views.AddCommand "yarn" ["build:prod"] twoProjects)).
Proof.
  split; [simpl; lia|].
  apply (views_AddCommand_shares_among_all "yarn" ["build:prod"] twoProjects).
  simpl. lia.
Defined.

(** ** The registry over a run *)

Lemma Update_scripts (upd : model → Msg → option (model * Cmd))
    (m : model) (msg : Msg) (m' : model) (c : Cmd) (p : ptr) :
  upd = views.Update ∨ upd = views2.Update →
  upd m msg = Some (m', c) →
  Script <$> (heap m' !! p) = Script <$> (heap m !! p)
  ∧ Args <$> (heap m' !! p) = Args <$> (heap m !! p).
Proof.
  intros Hupd H.
  assert (Hc : ∀ m,
             Script <$> (heap (CancelScripts m) !! p) = Script <$> (heap m !! p)
             ∧ Args <$> (heap (CancelScripts m) !! p) = Args <$> (heap m !! p)).
  { intros m0. unfold CancelScripts. simpl. rewrite cancel_all_lookup.
    destruct (heap m0 !! p); simpl; [|done]. by destruct (bool_decide _). }
  destruct msg as [k| | |i j err|s|i j output|].
  - assert (Heq : onKey m k = (m', c))
      by (destruct Hupd as [-> | ->]; simpl in H; congruence).
    destruct (onKey_cases m k) as [(_ & _ & _ & _ & _ & Hq)|(m1 & Hq & ? & Hh & _)];
      rewrite Hq in Heq; injection Heq as <- <-; [apply Hc|by rewrite Hh].
  - destruct Hupd as [-> | ->]; by injection H as <- <-.
  - destruct Hupd as [-> | ->]; by injection H as <- <-.
  - rewrite (either_Update_finished upd Hupd) in H.
    apply onCommandFinished_spec in H as (script & _ & _ & -> & _).
    destruct (decide (p = script)) as [->|Hne].
    + rewrite list_lookup_alter_eq. by destruct (heap m !! script).
    + by rewrite list_lookup_alter_ne.
  - destruct Hupd as [-> | ->]; injection H as <- <-; apply Hc.
  - destruct Hupd as [-> | ->]; by injection H as <- <-.
  - destruct Hupd as [-> | ->]; by injection H as <- <-.
Qed.

(** X15.  What the event loop never changes.  Over any run that starts
    from a registry built by set-up, every project keeps its list of
    units, no unit is allocated or freed, what a unit runs (script and
    arguments) stays as registered, and every unit's status is one of
    "running", "finished", "failed" and "exited". *)
Theorem registry_fixed_after_setup
    (upd : model → Msg → option (model * Cmd)) (msgs : list Msg)
    (m m' : model) (cs : list Cmd) :
  upd = views.Update ∨ upd = views2.Update →
  Setup m →
  run upd m msgs = Some (m', cs) →
  projects m' = projects m
  ∧ length (heap m') = length (heap m)
  ∧ (∀ p, Script <$> (heap m' !! p) = Script <$> (heap m !! p)
          ∧ Args <$> (heap m' !! p) = Args <$> (heap m !! p))
  ∧ wfHeap m'
  ∧ statusOk m'.
Proof.
  intros Hupd Hsetup Hrun.
  destruct (Setup_ok m Hsetup) as [Hwf Hok].
  assert (H : projects m' = projects m
              ∧ length (heap m') = length (heap m)
              ∧ (∀ p, Script <$> (heap m' !! p) = Script <$> (heap m !! p)
                      ∧ Args <$> (heap m' !! p) = Args <$> (heap m !! p))).
  { clear Hwf Hok Hsetup. revert m cs Hrun.
    induction msgs as [|msg msgs IH]; intros m cs.
    - by intros [= <- <-].
    - intros Hrun. apply run_cons_inv in Hrun as (m1 & c & cs' & H1 & Hrun & ->).
      destruct (IH _ _ Hrun) as (Hps & Hl & Hs).
      pose proof (Update_step upd m msg m1 c Hupd H1) as (Hps1 & Hl1 & _).
      split; [congruence|]. split; [congruence|]. intros p.
      destruct (Hs p) as [-> ->].
      apply (Update_scripts upd m msg m1 c p Hupd H1). }
  destruct H as (Hps & Hl & Hs).
  split; [done|]. split; [done|]. split; [done|]. split.
  - intros p Hp. rewrite Hl. apply Hwf.
    apply elem_of_units. apply elem_of_units in Hp. by rewrite <- Hps.
  - by eapply run_statusOk.
Qed.

(** X15 for the registry of [qk yarn] in the example workspace. *)
Lemma registry_fixed_after_setup_witness :
  projects wsFinished = projects wsRegistry
  ∧ length (heap wsFinished) = length (heap wsRegistry)
  ∧ (∀ p, Script <$> (heap wsFinished !! p) = Script <$> (heap wsRegistry !! p)
          ∧ Args <$> (heap wsFinished !! p) = Args <$> (heap wsRegistry !! p))
  ∧ wfHeap wsFinished
  ∧ statusOk wsFinished.
Proof.
  apply (registry_fixed_after_setup views2.Update
           [commandFinishedMessage 0 0 None] wsRegistry wsFinished
           [Batch [doneCmd true; stopwatchCmd]]).
  - by right.
  - apply setup_add2. by apply (setup_new2 wsEnv).
  - reflexivity.
Defined.

Lemma NoDup_concat_lookup {A : Type} (ls : list (list A)) (i i' j j' : nat)
    (l l' : list A) (x : A) :
  NoDup (concat ls) →
  ls !! i = Some l → l !! j = Some x →
  ls !! i' = Some l' → l' !! j' = Some x →
  i = i' ∧ j = j'.
Proof.
  revert i i'. induction ls as [|l0 ls IH]; intros i i' Hnd Hi Hj Hi' Hj';
    [done|].
  simpl in Hnd. apply NoDup_app in Hnd as (Hnd0 & Hdisj & Hnd1).
  assert (Hin : ∀ k l1 n,
             ls !! k = Some l1 → l1 !! n = Some x → x ∈ concat ls).
  { intros k l1 n Hk Hn. apply elem_of_concat. exists l1.
    split; [by eapply list_elem_of_lookup_2|by eapply list_elem_of_lookup_2]. }
  destruct i as [|i], i' as [|i']; simpl in *.
  - injection Hi as <-. injection Hi' as <-. split; [done|].
    by apply (NoDup_lookup l0 j j' x).
  - injection Hi as <-. exfalso. apply (Hdisj x).
    + by eapply list_elem_of_lookup_2.
    + by eapply Hin.
  - injection Hi' as <-. exfalso. apply (Hdisj x).
    + by eapply list_elem_of_lookup_2.
    + by eapply Hin.
  - destruct (IH i i' Hnd1 Hi Hj Hi' Hj') as [-> ->]. done.
Qed.

(** X16.  In the later version an outcome event addresses exactly one
    unit.  Over any run from a registry built by its set-up functions, two
    index pairs that name the same unit are the same pair; so two
    different pairs name different units, and an outcome event for one of
    them leaves the status of the other as it is. *)
Theorem outcome_addresses_one_unit (msgs : list Msg) (m m' : model)
    (cs : list Cmd) (i j i' j' : nat) (p p' : ptr) :
  Setup2 m →
  run views2.Update m msgs = Some (m', cs) →
  target m' i j = Some p →
  target m' i' j' = Some p' →
  (p = p' → i = i' ∧ j = j')
  ∧ ((i, j) ≠ (i', j') →
     p ≠ p'
     ∧ ∀ err m'' c,
         views2.Update m' (commandFinishedMessage i j err) = Some (m'', c) →
         status_at (heap m'') p' = status_at (heap m') p').
Proof.
  intros Hsetup Hrun Ht Ht'.
  destruct (Setup2_distinct m Hsetup) as [_ Hnd].
  assert (Hps : projects m' = projects m).
  { clear Hsetup Hnd Ht Ht'. revert m cs Hrun.
    induction msgs as [|msg msgs IH]; intros m cs.
    - by intros [= <- <-].
    - intros Hrun. apply run_cons_inv in Hrun as (m1 & c & cs' & H1 & Hrun & ->).
      rewrite (IH _ _ Hrun).
      by apply (Update_keeps_projects views2.Update m msg m1 c); [right|]. }
  assert (Hsame : p = p' → i = i' ∧ j = j').
  { intros <-. unfold target in Ht, Ht'. rewrite Hps in Ht, Ht'.
    destruct (projects m !! i) as [proj|] eqn:Hi; [|done].
    destruct (projects m !! i') as [proj'|] eqn:Hi'; [|done].
    simpl in Ht, Ht'.
    apply (NoDup_concat_lookup (map Scripts (projects m)) i i' j j'
             (Scripts proj) (Scripts proj') p); try done.
    - by rewrite list_lookup_fmap, Hi.
    - by rewrite list_lookup_fmap, Hi'. }
  split; [done|]. intros Hne.
  assert (Hpp : p ≠ p').
  { intros Heq. destruct (Hsame Heq) as [-> ->]. by apply Hne. }
  split; [done|]. intros err m'' c Hupd.
  change (onCommandFinished m' i j err = Some (m'', c)) in Hupd.
  apply onCommandFinished_spec in Hupd as (script & Hs & _ & -> & _).
  assert (script = p) as -> by congruence.
  rewrite status_at_alter. by rewrite decide_False by done.
Qed.

(** X16 for [qk composer install] in a workspace with two projects, after
    the second project's unit has finished: an outcome event for the
    first project's unit leaves the second as it is. *)
Lemma outcome_addresses_one_unit_witness :
  (0 = 1 → 0 = 1 ∧ 0 = 0)
  ∧ ((0, 0) ≠ (1, 0) →
     0 ≠ 1
     ∧ ∀ err m'' c,
         views2.Update twoAppsSiteDone (commandFinishedMessage 0 0 err)
         = Some (m'', c) →
         status_at (heap m'') 1 = status_at (heap twoAppsSiteDone) 1).
Proof.
  apply (outcome_addresses_one_unit [commandFinishedMessage 1 0 None]
           twoAppsRegistry twoAppsSiteDone [CmdNil] 0 0 1 0 0 1).
  - apply setup2_add. by apply (setup2_new twoApps).
  - reflexivity.
  - reflexivity.
  - reflexivity.
Defined.

(** X17 for a workspace without projects. *)
Lemma views_CreateCommandRunner_no_projects_witness :
  ∃ m, views.CreateCommandRunner emptyEnv = Returns m
       ∧ projects m = []
       ∧ Init (views.AddCommand "yarn" [] m) = []
       ∧ ∀ i j err, views.Update (views.AddCommand "yarn" [] m)
                      (commandFinishedMessage i j err) = None.
Proof.
  apply (views_CreateCommandRunner_no_projects emptyEnv "/ws" "yarn" []);
    reflexivity.
Defined.

(** ** [AddOptionalCommand] *)

Lemma addLoop_lookup (shouldAdd : Project → bool) (script : string)
    (args : list string) (ps : list Project) (h : list Command)
    (ps' : list Project) (h' : list Command) :
  views2.addLoop shouldAdd script args ps h = (ps', h') →
  length ps' = length ps
  ∧ h' = h ++ replicate (accepted shouldAdd ps) (newCommand script args)
  ∧ ∀ i proj, ps !! i = Some proj →
      ps' !! i = Some (if shouldAdd proj
                       then appendScript
                              (length h + accepted shouldAdd (take i ps)) proj
                       else proj).
Proof.
  revert h ps' h'. induction ps as [|p ps IH]; intros h ps' h'; simpl.
  - intros [= <- <-]. split; [done|]. split; [by rewrite app_nil_r|]. done.
  - unfold accepted. simpl. destruct (shouldAdd p) eqn:Hp;
      destruct (views2.addLoop _ _ _ ps _) as [rest' h1] eqn:Hrest;
      intros [= <- <-]; apply IH in Hrest as (Hlen & -> & Hlk); simpl.
    + split; [by rewrite Hlen|]. split; [by rewrite <- app_assoc|].
      intros [|i] proj; simpl.
      * intros [= <-]. rewrite Hp. do 2 f_equal. unfold accepted. simpl. lia.
      * intros Hi. rewrite (Hlk i proj Hi). rewrite Hp.
        destruct (shouldAdd proj); [|done]. do 2 f_equal.
        unfold accepted. rewrite length_app. simpl. lia.
    + split; [by rewrite Hlen|]. split; [done|].
      intros [|i] proj; simpl.
      * intros [= <-]. by rewrite Hp.
      * intros Hi. rewrite (Hlk i proj Hi). rewrite Hp. done.
Qed.

Lemma AddOptionalCommand_length (shouldAdd : Project → bool)
    (script : string) (args : list string) (m : model) :
  length (projects (views2.AddOptionalCommand shouldAdd script args m))
  = length (projects m).
Proof.
  unfold views2.AddOptionalCommand.
  destruct (views2.addLoop shouldAdd _ _ _ _) as [ps h] eqn:H.
  by apply addLoop_lookup in H as (Hlen & _).
Qed.

(** X18.  [AddOptionalCommand] gives one freshly allocated unit, with
    status "running", to every project its predicate accepts, appended
    after the units the project has, and leaves every other project and
    every existing unit as it is. *)
Theorem AddOptionalCommand_adds_where_accepted (shouldAdd : Project → bool)
    (script : string) (args : list string) (m : model) :
  length (projects (views2.AddOptionalCommand shouldAdd script args m))
  = length (projects m)
  ∧ heap (views2.AddOptionalCommand shouldAdd script args m)
    = heap m ++ replicate (accepted shouldAdd (projects m))
                          (newCommand script args)
  ∧ (∀ i proj, projects m !! i = Some proj →
       projects (views2.AddOptionalCommand shouldAdd script args m) !! i
       = Some (if shouldAdd proj
               then appendScript
                      (length (heap m)
                       + accepted shouldAdd (take i (projects m))) proj
               else proj))
  ∧ liveOutput (views2.AddOptionalCommand shouldAdd script args m)
    = liveOutput m
  ∧ views2.AddCommand script args m
    = views2.AddOptionalCommand (λ _, true) script args m.
Proof.
  unfold views2.AddOptionalCommand.
  destruct (views2.addLoop shouldAdd _ _ _ _) as [ps h] eqn:H.
  apply addLoop_lookup in H as (Hlen & -> & Hlk). simpl.
  repeat split; done.
Qed.

Lemma accepted_take_lt (f : Project → bool) (ps : list Project) (i : nat)
    (proj : Project) :
  ps !! i = Some proj → f proj = true →
  (accepted f (take i ps) < accepted f ps)%nat.
Proof.
  unfold accepted. revert i. induction ps as [|p ps IH]; intros [|i]; simpl;
    try done.
  - intros [= ->] ->. simpl. lia.
  - intros Hi Hf. specialize (IH i Hi Hf). destruct (f p); simpl; lia.
Qed.

(** A predicate and its negation: every project takes exactly one of the
    two commands. *)
Lemma complementary_pair (f : Project → bool) (s1 s2 : string)
    (a1 a2 : list string) (m : model) (i : nat) (proj : Project) :
  (∀ p q, f (appendScript q p) = f p) →
  projects m !! i = Some proj →
  ∃ q, projects (views2.AddOptionalCommand (utils.Not f) s2 a2
                   (views2.AddOptionalCommand f s1 a1 m)) !! i
       = Some (appendScript q proj)
       ∧ heap (views2.AddOptionalCommand (utils.Not f) s2 a2
                 (views2.AddOptionalCommand f s1 a1 m)) !! q
         = Some (if f proj then newCommand s1 a1 else newCommand s2 a2).
Proof.
  intros Hf Hi.
  set (m1 := views2.AddOptionalCommand f s1 a1 m).
  assert (H1 : ∃ ps h, views2.addLoop f s1 a1 (projects m) (heap m) = (ps, h)
                       ∧ projects m1 = ps ∧ heap m1 = h).
  { unfold m1, views2.AddOptionalCommand.
    destruct (views2.addLoop f _ _ _ _) as [ps h]. by exists ps, h. }
  destruct H1 as (ps1 & h1 & Hl1 & Hps1 & Hh1).
  apply addLoop_lookup in Hl1 as (Hlen1 & Hheap1 & Hlk1).
  set (m2 := views2.AddOptionalCommand (utils.Not f) s2 a2 m1).
  assert (H2 : ∃ ps h,
             views2.addLoop (utils.Not f) s2 a2 (projects m1) (heap m1) = (ps, h)
             ∧ projects m2 = ps ∧ heap m2 = h).
  { unfold m2, views2.AddOptionalCommand.
    destruct (views2.addLoop (utils.Not f) _ _ _ _) as [ps h].
    by exists ps, h. }
  destruct H2 as (ps2 & h2 & Hl2 & Hps2 & Hh2).
  apply addLoop_lookup in Hl2 as (Hlen2 & Hheap2 & Hlk2).
  rewrite Hps2, Hh2. rewrite Hps1 in Hlk2, Hlen2, Hheap2.
  rewrite Hh1 in Hlk2, Hheap2.
  specialize (Hlk1 i proj Hi).
  specialize (Hlk2 i _ Hlk1). rewrite Hlk2, Hheap2, Hheap1.
  unfold utils.Not. destruct (f proj) eqn:Hfp.
  - rewrite Hf, Hfp. simpl. eexists. split; [done|].
    pose proof (accepted_take_lt f (projects m) i proj Hi Hfp).
    rewrite lookup_app_l by (rewrite length_app, length_replicate; lia).
    rewrite lookup_app_r by lia.
    apply lookup_replicate_2. lia.
  - rewrite Hfp. simpl. eexists. split; [done|].
    assert (Hlt : (accepted (λ thing, negb (f thing)) (take i ps1)
                   < accepted (λ thing, negb (f thing)) ps1)%nat).
    { apply (accepted_take_lt _ ps1 i proj Hlk1). by rewrite Hfp. }
    rewrite lookup_app_r by lia. apply lookup_replicate_2. lia.
Qed.

Lemma CreateCommandRunner_Returns (env : Env) (m : model) :
  views2.CreateCommandRunner env = Returns m →
  ∃ found, discovered env found
           ∧ projects m = newProjects found ∧ heap m = []
           ∧ liveOutput m = ∅ ∧ done m = false.
Proof.
  unfold views2.CreateCommandRunner, discovered.
  destruct (Getwd env) as [wd|] eqn:Hwd; [|done].
  destruct (utils0.GetAllProjects (tree env) wd 0) as [found|] eqn:Hf; [|done].
  destruct found as [|f found]; simpl; [done|]. intros [= <-].
  exists (f :: found). split; [by exists wd|]. simpl. done.
Qed.

Lemma andThen_Returns {A B : Type} (o : Outcome A) (f : A → B) (b : B) :
  andThen o f = Returns b → ∃ a, o = Returns a ∧ b = f a.
Proof. destruct o; simpl; try done. intros [= <-]. by eexists. Qed.

Lemma oneEach_pair (fs : os.FS) (found : list utils.File) (m : model)
    (yarnArgs npmArgs : list string) :
  projects m = newProjects found → heap m = [] →
  oneEach fs found
    (views2.AddOptionalCommand (utils.Not (helpers.HasYarn fs)) "npm" npmArgs
       (views2.AddOptionalCommand (helpers.HasYarn fs) "yarn" yarnArgs m))
    yarnArgs npmArgs.
Proof.
  intros Hps Hh. split.
  - rewrite !AddOptionalCommand_length, Hps. unfold newProjects.
    by rewrite length_map.
  - intros i f Hi.
    assert (Hp : projects m !! i
                 = Some (mkProject (utils.Name f) (utils.Dir f) [])).
    { rewrite Hps. unfold newProjects. by rewrite list_lookup_fmap, Hi. }
    destruct (complementary_pair (helpers.HasYarn fs) "yarn" "npm"
                yarnArgs npmArgs m i _ ltac:(done) Hp) as (q & Hq & Hc).
    exists q. split; [exact Hq|exact Hc].
Qed.

Lemma length_units_singletons (ps : list Project) :
  (∀ proj, proj ∈ ps → length (Scripts proj) = 1%nat) →
  length (concat (map Scripts ps)) = length ps.
Proof.
  induction ps as [|p ps IH]; intros H; simpl; [done|].
  rewrite length_app, IH, (H p) by (intros; try apply H; by constructor).
  done.
Qed.

Lemma oneEach_Init (fs : os.FS) (found : list utils.File) (m : model)
    (yarnArgs npmArgs : list string) :
  oneEach fs found m yarnArgs npmArgs → length (Init m) = length found.
Proof.
  intros [Hlen Hlk].
  assert (Hmap : map command (Init m) = units m).
  { unfold Init, units. apply (Init_commands_from id). }
  rewrite <- (length_map command), Hmap, <- Hlen.
  apply length_units_singletons. intros proj Hin.
  apply list_elem_of_lookup in Hin as [i Hi].
  assert (Hlt : (i < length found)%nat).
  { rewrite <- Hlen. by eapply lookup_lt_Some. }
  apply lookup_lt_is_Some in Hlt as [f Hf].
  destruct (Hlk i f Hf) as (p & Hp & _).
  rewrite Hp in Hi. by injection Hi as <-.
Qed.

(** X19.  [build] and [watch] of the later version register exactly one
    command per discovered project: yarn where [os.Stat] finds a yarn.lock
    in the project's directory, npm everywhere else (also where the lookup
    fails with an error), never both and never none; [Init] then starts
    one process per project. *)
Theorem build_and_watch_one_unit_each
    (run : os.FS → Env → Outcome model) (yarnArgs npmArgs : list string)
    (fs : os.FS) (env : Env) (m : model) :
  (run = cmd.build ∧ yarnArgs = ["build:prod"]
   ∧ npmArgs = ["run"; "build:prod"])
  ∨ (run = cmd.watch ∧ yarnArgs = ["start"] ∧ npmArgs = ["run"; "start"]) →
  run fs env = Returns m →
  ∃ found, discovered env found
           ∧ oneEach fs found m yarnArgs npmArgs
           ∧ length (Init m) = length found.
Proof.
  intros Hrun H.
  assert (Hm : ∃ m0,
             views2.CreateCommandRunner env = Returns m0
             ∧ m = views2.AddOptionalCommand
                     (utils.Not (helpers.HasYarn fs)) "npm" npmArgs
                     (views2.AddOptionalCommand
                        (helpers.HasYarn fs) "yarn" yarnArgs m0)).
  { destruct Hrun as [(-> & -> & ->)|(-> & -> & ->)];
      by apply andThen_Returns in H. }
  destruct Hm as (m0 & Hm0 & ->).
  apply CreateCommandRunner_Returns in Hm0 as (found & Hd & Hps & Hh & _).
  exists found. split; [done|].
  pose proof (oneEach_pair fs found m0 yarnArgs npmArgs Hps Hh) as Hone.
  split; [done|]. by eapply oneEach_Init.
Qed.

(** X19 for [build] in a workspace with two projects, one of them with a yarn.lock. *)
Lemma build_and_watch_one_unit_each_witness :
  ∃ found, discovered twoApps found
    ∧ oneEach yarnInApp found twoAppsBuilt ["build:prod"] ["run"; "build:prod"]
    ∧ length (Init twoAppsBuilt) = length found.
Proof.
  apply (build_and_watch_one_unit_each cmd.build ["build:prod"]
           ["run"; "build:prod"] yarnInApp twoApps).
  - by left.
  - reflexivity.
Defined.

(** ** [composer] *)

Lemma concat_imap_singleton {A B : Type} (g : nat → A → B) (l : list A) :
  concat (imap (λ i x, [g i x]) l) = imap g l.
Proof.
  revert g. induction l as [|x l IH]; intros g; simpl; [done|].
  f_equal. apply (IH (g ∘ S)).
Qed.

Lemma addLoop_all (script : string) (args : list string)
    (found : list utils.File) (h : list Command) :
  views2.addLoop (λ _, true) script args (newProjects found) h
  = (imap (λ i f, mkProject (utils.Name f) (utils.Dir f) [length h + i]) found,
     h ++ replicate (length found) (newCommand script args)).
Proof.
  revert h. induction found as [|f found IH]; intros h; simpl.
  - by rewrite app_nil_r.
  - rewrite IH. unfold appendScript. simpl. rewrite Nat.add_0_r.
    rewrite <- app_assoc. simpl. do 2 f_equal.
    apply imap_ext. intros i x _. simpl. rewrite length_app. simpl.
    do 2 f_equal. lia.
Qed.

Lemma Init_imap (g k : nat → nat) (found : list utils.File) :
  concat (imap (λ i proj,
                  imap (λ j script, mkTask (g i) j script (Dir proj))
                       (Scripts proj))
               (imap (λ i f, mkProject (utils.Name f) (utils.Dir f) [k i])
                     found))
  = imap (λ i f, mkTask (g i) 0 (k i) (utils.Dir f)) found.
Proof.
  revert g k. induction found as [|f found IH]; intros g k; simpl; [done|].
  f_equal. apply (IH (g ∘ S) (k ∘ S)).
Qed.

(** X20.  [qk composer ARGS] and [qk npm ARGS].  Without arguments the
    command prints "Provide a command..." and exits with status 1 before it
    looks at the working directory; otherwise it registers one unit per
    discovered project, and [Init] starts them in discovery order, each in
    its project's directory. *)
Theorem composer_one_task_per_project
    (run : list string → Env → Outcome model) (name : string)
    (args : list string) (env : Env) :
  (run = cmd.composer ∧ name = "composer") ∨ (run = cmd.npm ∧ name = "npm") →
  (args = [] → run args env = OsExit 1 [cmd.provide])
  ∧ (∀ m, run args env = Returns m →
       args ≠ []
       ∧ ∃ found, discovered env found
           ∧ heap m = replicate (length found) (newCommand name args)
           ∧ Init m = imap (λ i f, mkTask i 0 i (utils.Dir f)) found).
Proof.
  intros Hrun.
  assert (Heq : run args env
                = if (length args =? 0)%nat then OsExit 1 [cmd.provide]
                  else andThen (views2.CreateCommandRunner env)
                               (views2.AddCommand name args))
    by (by destruct Hrun as [[-> ->]|[-> ->]]).
  rewrite Heq. clear Heq Hrun.
  split; [by intros ->|].
  intros m. destruct args as [|a args]; [done|]. simpl.
  intros H. split; [done|].
  apply andThen_Returns in H as (m0 & Hm0 & ->).
  apply CreateCommandRunner_Returns in Hm0 as (found & Hd & Hps & Hh & _).
  exists found. split; [done|].
  unfold views2.AddCommand. rewrite Hps, Hh, addLoop_all. simpl.
  split; [done|]. unfold Init. simpl. apply (Init_imap id id).
Qed.

(** X20 for [qk composer install] in a workspace with two projects. *)
Lemma composer_one_task_per_project_witness :
  ["install"] ≠ []
  ∧ ∃ found, discovered twoApps found
      ∧ heap twoAppsComposer
        = replicate (length found) (newCommand "composer" ["install"])
      ∧ Init twoAppsComposer
        = imap (λ i f, mkTask i 0 i (utils.Dir f)) found.
Proof.
  apply (proj2 (composer_one_task_per_project cmd.composer "composer"
                  ["install"] twoApps ltac:(by left))).
  reflexivity.
Defined.

(** ** Chains of registrations *)

Lemma AddOptionalCommand_lookup (f : Project → bool) (s : string)
    (a : list string) (m : model) (i : nat) (proj : Project) :
  projects m !! i = Some proj →
  (∀ q c, heap m !! q = Some c →
          heap (views2.AddOptionalCommand f s a m) !! q = Some c)
  ∧ if f proj
    then ∃ q, projects (views2.AddOptionalCommand f s a m) !! i
              = Some (appendScript q proj)
              ∧ heap (views2.AddOptionalCommand f s a m) !! q
                = Some (newCommand s a)
    else projects (views2.AddOptionalCommand f s a m) !! i = Some proj.
Proof.
  intros Hi. unfold views2.AddOptionalCommand.
  destruct (views2.addLoop f _ _ _ _) as [ps h] eqn:H.
  apply addLoop_lookup in H as (Hlen & -> & Hlk). simpl.
  split.
  - intros q c Hq. rewrite lookup_app_l; [done|]. by eapply lookup_lt_Some.
  - specialize (Hlk i proj Hi). destruct (f proj) eqn:Hf; [|done].
    eexists. split; [done|].
    pose proof (accepted_take_lt f (projects m) i proj Hi Hf).
    rewrite lookup_app_r by lia. apply lookup_replicate_2. lia.
Qed.

Lemma taken_cons (f : Project → bool) (s : string) (a : list string)
    (rs : list registration) (proj : Project) :
  taken ((f, s, a) :: rs) proj
  = if f proj then newCommand s a :: taken rs proj else taken rs proj.
Proof. unfold taken, shouldAddOf. simpl. by destruct (f proj). Qed.

Lemma registerAll_lookup (rs : list registration) (m : model) (i : nat)
    (proj : Project) :
  Forall (λ r, ignoresScripts (shouldAddOf r)) rs →
  projects m !! i = Some proj →
  (∀ q c, heap m !! q = Some c → heap (registerAll rs m) !! q = Some c)
  ∧ ∃ qs, projects (registerAll rs m) !! i
          = Some (mkProject (Name proj) (Dir proj) (Scripts proj ++ qs))
          ∧ holds (heap (registerAll rs m)) qs (taken rs proj).
Proof.
  intros Hinv. revert m proj.
  induction Hinv as [|[[f s] a] rs Hf Hrs IH]; intros m proj Hi; simpl.
  - split; [done|]. exists []. rewrite app_nil_r. split; [by destruct proj|].
    constructor.
  - destruct (AddOptionalCommand_lookup f s a m i proj Hi) as [Hold Hnew].
    rewrite taken_cons. destruct (f proj) eqn:Hfp.
    + destruct Hnew as (q & Hq & Hc).
      destruct (IH _ _ Hq) as (Hold1 & qs & Hps & Hqs).
      split; [by intros q0 c0 H0; apply Hold1, Hold|].
      exists (q :: qs). split.
      * rewrite Hps. simpl. by rewrite <- app_assoc.
      * constructor; [by apply Hold1|].
        assert (Hsame : taken rs (appendScript q proj) = taken rs proj).
        { unfold taken. f_equal. apply filter_ext_in.
          intros r Hr. apply (proj1 (List.Forall_forall _ _) Hrs r Hr). }
        by rewrite <- Hsame.
    + destruct (IH _ _ Hnew) as (Hold1 & qs & Hps & Hqs).
      split; [by intros q0 c0 H0; apply Hold1, Hold|].
      by exists qs.
Qed.

Lemma HasYarn_ignoresScripts (fs : os.FS) : ignoresScripts (helpers.HasYarn fs).
Proof. done. Qed.

Lemma HasScript_ignoresScripts (fs : os.FS) (script : string) :
  ignoresScripts (helpers.HasScript fs script).
Proof. done. Qed.

Lemma Not_ignoresScripts (f : Project → bool) :
  ignoresScripts f → ignoresScripts (utils.Not f).
Proof. intros H p q. unfold utils.Not. by rewrite H. Qed.

Lemma And_ignoresScripts (fs : list (Project → bool)) :
  Forall ignoresScripts fs → ignoresScripts (utils.And fs).
Proof.
  intros H p q. unfold utils.And.
  induction H as [|f fs Hf _ IH]; simpl; [done|]. by rewrite Hf, IH.
Qed.

(** X21.  The registrations of [install] and of the later [watch], for any
    registry and any project of it.  [install] appends two units: the
    package manager's install (yarn where the project has a yarn.lock, npm
    elsewhere), then [composer install].  [watch] appends [start] only to a
    project that has neither a watch:dev nor a dev script, and one unit for
    each of watch:dev and dev that the project has, so a project with both
    gets two and a project with none of the three scripts gets no unit at
    all; the package manager is chosen as for [install].  Units already
    registered stay as they are. *)
Theorem install_and_watch_registrations (fs : os.FS) (m : model) (i : nat)
    (proj : Project) :
  projects m !! i = Some proj →
  (∃ qs, projects (cmd.install fs m) !! i
         = Some (mkProject (Name proj) (Dir proj) (Scripts proj ++ qs))
         ∧ holds (heap (cmd.install fs m)) qs (installed fs proj))
  ∧ (∃ qs, projects (cmd.watchScripts fs m) !! i
           = Some (mkProject (Name proj) (Dir proj) (Scripts proj ++ qs))
           ∧ holds (heap (cmd.watchScripts fs m)) qs (watched fs proj))
  ∧ (∀ q c, heap m !! q = Some c →
            heap (cmd.install fs m) !! q = Some c
            ∧ heap (cmd.watchScripts fs m) !! q = Some c).
Proof.
  intros Hi.
  set (hasYarn := helpers.HasYarn fs).
  set (hasScript := helpers.HasScript fs).
  set (rsI := [(hasYarn, "yarn", []); (utils.Not hasYarn, "npm", ["install"]);
               ((λ _, true), "composer", ["install"])] : list registration).
  set (rsW :=
         [(utils.And [hasYarn; hasScript "start";
                      utils.Not (hasScript "watch:dev");
                      utils.Not (hasScript "dev")], "yarn", ["start"]);
          (utils.And [utils.Not hasYarn; hasScript "start";
                      utils.Not (hasScript "watch:dev");
                      utils.Not (hasScript "dev")], "npm", ["run"; "start"]);
          (utils.And [hasYarn; hasScript "watch:dev"], "yarn", ["watch:dev"]);
          (utils.And [utils.Not hasYarn; hasScript "watch:dev"],
           "npm", ["run"; "watch:dev"]);
          (utils.And [hasYarn; hasScript "dev"], "yarn", ["dev"]);
          (utils.And [utils.Not hasYarn; hasScript "dev"],
           "npm", ["run"; "dev"])]
         : list registration).
  assert (HeqI : cmd.install fs m = registerAll rsI m) by done.
  assert (HeqW : cmd.watchScripts fs m = registerAll rsW m) by done.
  assert (HY : ignoresScripts hasYarn) by apply HasYarn_ignoresScripts.
  assert (HS : ∀ s, ignoresScripts (hasScript s))
    by (intros; apply HasScript_ignoresScripts).
  assert (HinvI : Forall (λ r, ignoresScripts (shouldAddOf r)) rsI).
  { repeat constructor; unfold shouldAddOf; simpl; try done;
      by apply Not_ignoresScripts. }
  assert (HinvW : Forall (λ r, ignoresScripts (shouldAddOf r)) rsW).
  { repeat (apply List.Forall_cons || apply List.Forall_nil);
      unfold shouldAddOf; simpl; apply And_ignoresScripts;
      repeat (apply List.Forall_cons || apply List.Forall_nil);
      try apply Not_ignoresScripts; done. }
  destruct (registerAll_lookup rsI m i proj HinvI Hi) as (HoldI & qsI & HpI & HhI).
  destruct (registerAll_lookup rsW m i proj HinvW Hi) as (HoldW & qsW & HpW & HhW).
  rewrite HeqI, HeqW. split; [|split].
  - exists qsI. split; [done|].
    replace (installed fs proj) with (taken rsI proj); [done|].
    unfold taken, installed, rsI, shouldAddOf, commandOf, utils.Not. simpl.
    fold hasYarn. by destruct (hasYarn proj).
  - exists qsW. split; [done|].
    replace (watched fs proj) with (taken rsW proj); [done|].
    unfold taken, watched, runScript, rsW, shouldAddOf, commandOf, utils.And,
      utils.Not. simpl. fold hasYarn hasScript.
    by destruct (hasYarn proj), (hasScript "start" proj),
         (hasScript "watch:dev" proj), (hasScript "dev" proj).
  - intros q c Hq. split; [by apply HoldI|by apply HoldW].
Qed.

(** X21 for a project with the scripts watch:dev and dev. *)
Lemma install_and_watch_registrations_witness :
  (∃ qs, projects (cmd.install devApp appRegistry) !! 0
         = Some (mkProject "app" "/ws/app" ([] ++ qs))
         ∧ holds (heap (cmd.install devApp appRegistry)) qs
                 (installed devApp (mkProject "app" "/ws/app" [])))
  ∧ (∃ qs, projects (cmd.watchScripts devApp appRegistry) !! 0
           = Some (mkProject "app" "/ws/app" ([] ++ qs))
           ∧ holds (heap (cmd.watchScripts devApp appRegistry)) qs
                   (watched devApp (mkProject "app" "/ws/app" [])))
  ∧ (∀ q c, heap appRegistry !! q = Some c →
            heap (cmd.install devApp appRegistry) !! q = Some c
            ∧ heap (cmd.watchScripts devApp appRegistry) !! q = Some c).
Proof.
  apply (install_and_watch_registrations devApp appRegistry 0
           (mkProject "app" "/ws/app" [])).
  reflexivity.
Defined.

(** ** Distances *)

Lemma Below_snoc (root : fsnode) (dir : string) (k : nat) (name : string)
    (readable : bool) (files : list fsnode) (path : string) (file : fsnode) :
  Below root dir k (FsDir name readable files) path →
  file ∈ files →
  Below root dir (S k) file (path_Join path (node_name file)).
Proof.
  intros H. remember (FsDir name readable files) as n eqn:Hn.
  induction H as [n dir|name' r' files' dir file' k n path Hin _ IH];
    intros Hf; subst.
  - eapply below_step; [done|constructor].
  - eapply below_step; [done|]. by apply IH.
Qed.

Lemma Below_At (root : fsnode) (dir : string) (k : nat) (n : fsnode)
    (path : string) :
  Below root dir k n path → At root dir n path.
Proof. induction 1; [constructor|]. by eapply at_below. Qed.

Lemma Reaches_Below (depth : Z) (node : fsnode) (dir : string) (level : Z)
    (node' : fsnode) (dir' : string) (level' : Z) :
  Reaches depth node dir level node' dir' level' →
  ∃ k, Below node dir k node' dir'
       ∧ level' = (level + Z.of_nat k)%Z
       ∧ (k = 0%nat ∨ depth = (-1)%Z ∨ (level' ≤ depth + 1)%Z).
Proof.
  induction 1 as [node dir level|name files dir level file node' dir' level'
                    Hin Hd _ (k & Hb & Hl & Hk)].
  - exists 0%nat. split; [constructor|]. split; [lia|by left].
  - exists (S k). split; [by eapply below_step|]. split; [lia|].
    right. destruct Hd as (_ & _ & Hdepth & _).
    destruct Hk as [->|[?|?]]; [|by left|by right].
    destruct Hdepth; [by left|right; lia].
Qed.

(** X22.  The depth bound.  With a bound [depth >= 0], every project that
    [GetAllProjects(dir, depth, level)] returns other than [dir] itself lies
    at most [depth - level] directory levels below [dir]; started at level
    0 with depth 0 it can return [dir] alone. *)
Theorem GetAllProjects_depth_bound (root : fsnode) (dir : string)
    (depth level : Z) (log ps : list utils.File) (f : utils.File) :
  (0 ≤ depth)%Z →
  utils.GetAllProjects root dir depth level = (log, Some ps) →
  f ∈ ps →
  ∃ n k, Below root dir k n (utils.Dir f)
         ∧ utils.IsProject n = true
         ∧ (k = 0%nat ∨ (level + Z.of_nat k ≤ depth)%Z).
Proof.
  intros Hdepth Hg Hin.
  apply (GetAllProjects_Found depth root _ _ _ _ Hg) in Hin.
  destruct Hin as [[Hp ->]|(name & files & dir' & level' & Hr
                            & file & Hfile & Hp & Hd & ->)].
  - exists root, 0%nat. split; [constructor|]. split; [done|by left].
  - apply Reaches_Below in Hr as (k & Hb & -> & _).
    exists file, (S k). split; [by eapply Below_snoc|]. split; [done|].
    right. lia.
Qed.

(** X22 at the example workspace with depth 1. *)
Lemma GetAllProjects_depth_bound_witness :
  ∃ n k, Below workspace "/ws" k n "/ws/app"
         ∧ utils.IsProject n = true
         ∧ (k = 0%nat ∨ (0 + Z.of_nat k ≤ 1)%Z).
Proof.
  apply (GetAllProjects_depth_bound workspace "/ws" 1 0
           [utils.mkFile "docs" "/ws/docs"] [utils.mkFile "app" "/ws/app"]
           (utils.mkFile "app" "/ws/app")).
  - lia.
  - reflexivity.
  - by left.
Defined.

(** ** When the walk aborts *)

Lemma scanDir_fails (depth : Z)
    (rec : fsnode → string → Z → Z → list utils.File * option (list utils.File))
    (dir : string) (level : Z) (files : list fsnode) :
  Forall (recFails depth rec) files →
  ∀ acc,
    (utils.scanDir rec dir depth level files acc).2 = None
    ↔ ∃ file, file ∈ files
              ∧ descends depth level file
              ∧ Fails depth file (path_Join dir (node_name file)) (level + 1)%Z.
Proof.
  induction 1 as [|file rest Hfile _ IH]; intros acc.
  - simpl. split; [done|]. intros (x & Hin & _). inversion Hin.
  - rewrite exists_cons. destruct file as [name|name readable entries].
    + rewrite scanDir_cons_file, IH. split; [tauto|].
      intros [[[(? & ? & ? & [=]) _] _]|H]; done.
    + rewrite scanDir_cons_dir. cbv zeta.
      destruct (entry_cases depth level (FsDir name readable entries))
        as (Hc1 & Hc12 & Hc2).
      unfold descends.
      change (node_name (FsDir name readable entries)) with name.
      destruct (negb (utils.IsProject (FsDir name readable entries))
                && ((depth =? -1)%Z || (level <=? depth)%Z)) eqn:E1.
      * destruct Hc1 as [Hc1 _]. destruct (Hc1 eq_refl) as [Hnp Hd].
        destruct (utils.Contains utils.BLACKLIST name) eqn:Hb; simpl.
        -- rewrite IH. split; [tauto|]. intros [H|H]; [|done].
           by destruct H as [(_ & _ & _ & [=]) _].
        -- specialize (Hfile (path_Join dir name) (level + 1)%Z).
           destruct (rec _ _ _ _) as [log1 [found|]] eqn:Hrec; simpl in *.
           ++ destruct (utils.scanDir rec dir depth level rest (acc ++ found))
                as [log2 r] eqn:Hrest. simpl.
              specialize (IH (acc ++ found)). rewrite Hrest in IH. simpl in IH.
              rewrite IH. split; [tauto|]. intros [H|H]; [|done].
              destruct H as (_ & Hf). apply Hfile in Hf. done.
           ++ split; [|done]. intros _. left.
              split; [|by apply Hfile]. split; [by eauto|]. done.
      * destruct (negb (depth =? -1)%Z && (level >=? depth)%Z) eqn:E2.
        -- rewrite IH. split; [tauto|]. intros [H|H]; [|done].
           destruct H as [(_ & Hnp & Hd & _) _].
           pose proof (proj2 Hc1 (conj Hnp Hd)) as Ht. discriminate Ht.
        -- destruct (Hc12 eq_refl eq_refl) as [Hp Hd].
           rewrite IH. split; [tauto|]. intros [H|H]; [|done].
           destruct H as [(_ & Hnp & _) _]. congruence.
Qed.

Lemma GetAllProjects_recFails (depth : Z) (node : fsnode) :
  recFails depth utils.GetAllProjects node.
Proof.
  induction node as [name|name readable entries IH] using fsnode_nested_ind;
    intros dir level.
  - simpl. split; [|done]. intros _. eexists _, _, _.
    split; [constructor|done].
  - destruct readable.
    + rewrite GetAllProjects_dir, (scanDir_fails depth _ dir level entries IH).
      unfold Fails. split.
      * intros (file & Hin & Hd & n' & d' & l' & Hr & Hu).
        exists n', d', l'. split; [|done]. by eapply reach_down.
      * intros (n' & d' & l' & Hr & Hu). inversion Hr; subst; [done|].
        exists file. split; [done|]. split; [done|]. by exists n', d', l'.
    + simpl. split; [|done]. intros _. eexists _, _, _.
      split; [constructor|done].
Qed.

(** X23.  When discovery ends the program.  [GetAllProjects] runs into
    [log.Fatal] exactly when the walk reaches something [os.ReadDir] cannot
    read: the starting directory, or a sub-directory it descends into.  It
    descends while [level <= depth] but lists projects only while
    [level < depth], so with a depth bound the directories one level below
    the deepest project it can return are still read, and an unreadable one
    there ends the run. *)
Theorem GetAllProjects_fatal_iff (root : fsnode) (dir : string)
    (depth level : Z) :
  ((utils.GetAllProjects root dir depth level).2 = None
   ↔ Fails depth root dir level)
  ∧ (∀ node' dir' level',
       Reaches depth root dir level node' dir' level' →
       ∃ k, Below root dir k node' dir'
            ∧ level' = (level + Z.of_nat k)%Z
            ∧ (k = 0%nat ∨ depth = (-1)%Z ∨ (level' ≤ depth + 1)%Z))
  ∧ (∀ name files file,
       root = FsDir name true files →
       file ∈ files →
       utils.IsProject file = false →
       utils.Contains utils.BLACKLIST (node_name file) = false →
       (depth = -1 ∨ level ≤ depth)%Z →
       (∃ n r es, file = FsDir n r es) →
       unreadable file →
       (utils.GetAllProjects root dir depth level).2 = None).
Proof.
  split; [apply GetAllProjects_recFails|]. split; [apply Reaches_Below|].
  intros name files file -> Hin Hnp Hb Hd Hdir Hu.
  apply GetAllProjects_recFails.
  exists file, (path_Join dir (node_name file)), (level + 1)%Z.
  split; [|done]. eapply reach_down; [done| |constructor].
  by repeat split.
Qed.

(** X23 for an unreadable directory below the depth bound 0. *)
Lemma GetAllProjects_fatal_iff_witness :
  (utils.GetAllProjects
     (FsDir "ws" true [FsDir "private" false []]) "/ws" 0 0).2 = None.
Proof.
  apply (proj2 (proj2 (GetAllProjects_fatal_iff
                         (FsDir "ws" true [FsDir "private" false []])
                         "/ws" 0 0))
           "ws" [FsDir "private" false []] (FsDir "private" false []));
    try done.
  - by left.
  - right. lia.
  - by eexists _, _, _.
Defined.

(** ** The earlier walk *)

Lemma GetAllProjects0_dir (name : string) (files : list fsnode) (dir : string)
    (level : Z) :
  utils0.GetAllProjects (FsDir name true files) dir level
  = scanDir0 utils0.GetAllProjects dir level files
      (if utils.IsProject (FsDir name true files)
       then [utils.mkFile (path_Base dir) dir] else []).
Proof. done. Qed.

Lemma scanDir0_cons_file rec dir level name rest acc :
  scanDir0 rec dir level (FsFile name :: rest) acc
  = scanDir0 rec dir level rest acc.
Proof. done. Qed.

Lemma scanDir0_cons_dir rec dir level name readable entries rest acc :
  scanDir0 rec dir level (FsDir name readable entries :: rest) acc
  = let file := FsDir name readable entries in
    let projectDir := path_Join dir name in
    if negb (utils.IsProject file) then
      if (level <? 3)%Z && negb (utils.Contains utils.BLACKLIST name) then
        match rec file projectDir (level + 1)%Z with
        | None => None
        | Some found => scanDir0 rec dir level rest (acc ++ found)
        end
      else scanDir0 rec dir level rest acc
    else scanDir0 rec dir level rest (acc ++ [utils.mkFile name projectDir]).
Proof. done. Qed.

Lemma scanDir0_sound
    (rec : fsnode → string → Z → option (list utils.File))
    (dir : string) (level : Z) (files : list fsnode) :
  Forall (λ file, ∀ d l ps f, rec file d l = Some ps → f ∈ ps →
                              Sound0 file d l f) files →
  ∀ acc ps f,
    scanDir0 rec dir level files acc = Some ps →
    f ∈ ps →
    f ∈ acc
    ∨ ∃ file, file ∈ files
        ∧ ((utils.IsProject file = true
            ∧ f = utils.mkFile (node_name file) (path_Join dir (node_name file)))
           ∨ ((level < 3)%Z
              ∧ utils.IsProject file = false
              ∧ utils.Contains utils.BLACKLIST (node_name file) = false
              ∧ Sound0 file (path_Join dir (node_name file)) (level + 1)%Z f)).
Proof.
  induction 1 as [|file rest Hfile _ IH]; intros acc ps f Hs Hin.
  - injection Hs as <-. by left.
  - assert (Hrest : ∀ acc', scanDir0 rec dir level rest acc' = Some ps →
              f ∈ acc' ∨ ∃ file0, file0 ∈ file :: rest
                ∧ ((utils.IsProject file0 = true
                    ∧ f = utils.mkFile (node_name file0)
                                       (path_Join dir (node_name file0)))
                   ∨ ((level < 3)%Z
                      ∧ utils.IsProject file0 = false
                      ∧ utils.Contains utils.BLACKLIST (node_name file0) = false
                      ∧ Sound0 file0 (path_Join dir (node_name file0))
                               (level + 1)%Z f))).
    { intros acc' Hs'. destruct (IH _ _ _ Hs' Hin) as [?|(x & Hx & H)];
        [by left|right]. exists x. split; [by right|done]. }
    destruct file as [name|name readable entries].
    + rewrite scanDir0_cons_file in Hs. by apply Hrest.
    + rewrite scanDir0_cons_dir in Hs. cbv zeta in Hs.
      destruct (utils.IsProject (FsDir name readable entries)) eqn:Hp.
      * simpl in Hs. destruct (Hrest _ Hs) as [Ha|?]; [|by right].
        apply elem_of_app in Ha as [?|Ha]; [by left|].
        apply list_elem_of_singleton in Ha as ->. right.
        exists (FsDir name readable entries). split; [by left|]. by left.
      * destruct (utils.Contains utils.BLACKLIST name) eqn:Hb;
          destruct (Z.ltb_spec level 3); simpl in Hs;
          try (by apply Hrest).
        destruct (rec _ _ _) as [found|] eqn:Hrec; [|done].
        destruct (Hrest _ Hs) as [Ha|?]; [|by right].
        apply elem_of_app in Ha as [?|Ha]; [by left|]. right.
        exists (FsDir name readable entries). split; [by left|]. right.
        split; [done|]. split; [done|]. split; [done|]. by eapply Hfile.
Qed.

Lemma GetAllProjects0_sound (node : fsnode) (dir : string) (level : Z)
    (ps : list utils.File) (f : utils.File) :
  utils0.GetAllProjects node dir level = Some ps → f ∈ ps →
  Sound0 node dir level f.
Proof.
  revert dir level ps f.
  induction node as [name|name readable entries IH] using fsnode_nested_ind;
    intros dir level ps f Hg Hin; [done|].
  destruct readable; [|done]. rewrite GetAllProjects0_dir in Hg.
  destruct (scanDir0_sound _ dir level entries IH _ _ f Hg Hin)
    as [Ha|(file & Hfile
           & [[Hp ->]|(Hl & Hnp & Hb & n & k & Hbelow & Hp & Hn & Hk)])].
  - destruct (utils.IsProject (FsDir name true entries)) eqn:Hp;
      [|inversion Ha]. apply list_elem_of_singleton in Ha as ->.
    exists (FsDir name true entries), 0%nat. simpl.
    split; [constructor|]. split; [done|]. split; [done|]. left. lia.
  - exists file, 1%nat. simpl. split.
    + eapply below_step; [done|constructor].
    + split; [done|]. split; [done|]. left. lia.
  - exists n, (S k). split; [by eapply below_step|]. split; [done|].
    destruct k as [|k].
    + inversion Hbelow; subst. congruence.
    + split; [done|]. right. destruct Hk as [Hk|Hk]; lia.
Qed.

(** X24.  What the registry is built from.  Every project in the registry
    that [CreateCommandRunner] returns (either version) is a directory
    holding both manifests, at most four levels below the working
    directory; it carries that directory's path and name and starts with
    no unit. *)
Theorem registry_projects_are_manifest_dirs (env : Env) (m : model)
    (proj : Project) :
  views.CreateCommandRunner env = Returns m
  ∨ views2.CreateCommandRunner env = Returns m →
  proj ∈ projects m →
  ∃ wd n k,
    Getwd env = Some wd
    ∧ Below (tree env) wd k n (Dir proj)
    ∧ utils.IsProject n = true
    ∧ (k ≤ 4)%nat
    ∧ Name proj = (if (k =? 0)%nat then path_Base wd else node_name n)
    ∧ Scripts proj = [].
Proof.
  intros Hc Hin.
  assert (H : ∃ wd found, Getwd env = Some wd
                ∧ utils0.GetAllProjects (tree env) wd 0 = Some found
                ∧ projects m = newProjects found).
  { unfold views.CreateCommandRunner, views2.CreateCommandRunner in Hc.
    destruct (Getwd env) as [wd|]; [|by destruct Hc].
    destruct (utils0.GetAllProjects (tree env) wd 0) as [found|] eqn:Hf;
      [|by destruct Hc].
    exists wd, found. split; [done|]. split; [done|].
    destruct Hc as [[= <-]|Hc]; [done|].
    destruct (length found =? 0)%nat; [done|]. by injection Hc as <-. }
  destruct H as (wd & found & Hwd & Hf & Hps).
  rewrite Hps in Hin. unfold newProjects in Hin.
  apply list_elem_of_fmap in Hin as (f & -> & Hin).
  destruct (GetAllProjects0_sound _ _ _ _ _ Hf Hin)
    as (n & k & Hb & Hp & Hn & Hk).
  exists wd, n, k. simpl. repeat split; try done. lia.
Qed.

(** X24 at the example workspace. *)
Lemma registry_projects_are_manifest_dirs_witness :
  ∃ wd n k,
    Getwd wsEnv = Some wd
    ∧ Below (tree wsEnv) wd k n "/ws/app"
    ∧ utils.IsProject n = true
    ∧ (k ≤ 4)%nat
    ∧ "app" = (if (k =? 0)%nat then path_Base wd else node_name n)
    ∧ @nil nat = [].
Proof.
  apply (registry_projects_are_manifest_dirs wsEnv
           (mkModel (newProjects [utils.mkFile "app" "/ws/app"]) [] ∅ false
                    true true false false)
           (mkProject "app" "/ws/app" [])).
  - by right.
  - by left.
Defined.

(** ** The two walks compared *)

Lemma height_entry (name : string) (readable : bool) (entries : list fsnode)
    (file : fsnode) :
  file ∈ entries →
  (S (height file) ≤ height (FsDir name readable entries))%nat.
Proof.
  simpl. induction entries as [|e es IH]; intros Hin; [inversion Hin|].
  simpl. apply elem_of_cons in Hin as [->|Hin]; [lia|].
  specialize (IH Hin). lia.
Qed.

Lemma scanDir_agree
    (dir : string) (level : Z) (files : list fsnode) :
  Forall (λ file, ∀ d l, (Z.of_nat (height file) + l ≤ 4)%Z →
            utils0.GetAllProjects file d l
            = (utils.GetAllProjects file d (-1) l).2) files →
  Forall (λ file, (Z.of_nat (height file) + level + 1 ≤ 4)%Z) files →
  ∀ acc,
    scanDir0 utils0.GetAllProjects dir level files acc
    = (utils.scanDir utils.GetAllProjects dir (-1) level files acc).2.
Proof.
  induction 1 as [|file rest Hfile _ IH]; intros Hh acc; [done|].
  apply Forall_cons in Hh as [Hh Hrest]. specialize (IH Hrest).
  destruct file as [name|name readable entries].
  - by rewrite scanDir0_cons_file, scanDir_cons_file.
  - rewrite scanDir0_cons_dir, scanDir_cons_dir. cbv zeta.
    assert (Hl : (level <? 3)%Z = true).
    { apply Z.ltb_lt. simpl in Hh. lia. }
    rewrite Hl. change ((-1 =? -1)%Z) with true.
    destruct (utils.IsProject (FsDir name readable entries)) eqn:Hp;
      destruct (utils.Contains utils.BLACKLIST name) eqn:Hb;
      cbn [negb andb orb]; try apply IH.
    rewrite Hfile by lia.
    destruct (utils.GetAllProjects _ _ _ _) as [log1 [found|]];
      cbn [snd]; [|done].
    rewrite IH.
    by destruct (utils.scanDir _ _ _ _ _ _) as [log2 r].
Qed.

(** X25.  The two versions of [GetAllProjects] compared.  On a directory
    tree whose nesting, counted from the call's level, stays within four,
    the earlier [GetAllProjects(dir, level)] returns what the later
    [GetAllProjects(dir, depth, level)] returns with [depth = -1], and ends
    the program in the same cases. *)
Theorem GetAllProjects_versions_agree (node : fsnode) (dir : string)
    (level : Z) :
  (Z.of_nat (height node) + level ≤ 4)%Z →
  utils0.GetAllProjects node dir level
  = (utils.GetAllProjects node dir (-1) level).2.
Proof.
  revert dir level.
  induction node as [name|name readable entries IH] using fsnode_nested_ind;
    intros dir level Hh; [done|].
  destruct readable; [|done].
  rewrite GetAllProjects0_dir, GetAllProjects_dir.
  apply scanDir_agree; [done|].
  apply Forall_forall. intros file Hin.
  pose proof (height_entry name true entries file Hin). lia.
Qed.

(** X25 at the example workspace. *)
Lemma GetAllProjects_versions_agree_witness :
  utils0.GetAllProjects workspace "/ws" 0
  = (utils.GetAllProjects workspace "/ws" (-1) 0).2.
Proof.
  apply (GetAllProjects_versions_agree workspace "/ws" 0). simpl. lia.
Defined.

(** ** Names and paths *)

Lemma list_ascii_app (s t : string) :
  list_ascii_of_string (s +:+ t)
  = list_ascii_of_string s ++ list_ascii_of_string t.
Proof. induction s as [|c s IH]; simpl; [done|]. by rewrite IH. Qed.

Lemma slashFree_Forall (s : string) :
  slashFree s = true →
  Forall (λ c, Ascii.eqb c "/" = false) (list_ascii_of_string s).
Proof.
  induction s as [|c s IH]; simpl; [constructor|].
  intros [Hc Hs]%andb_true_iff. constructor; [by apply negb_true_iff|auto].
Qed.

Lemma last_element_app (l rest : list ascii) :
  Forall (λ c, Ascii.eqb c "/" = false) l →
  last_element (l ++ "/"%char :: rest) = l.
Proof.
  induction 1 as [|c l Hc _ IH]; simpl; [done|]. by rewrite Hc, IH.
Qed.

Lemma last_element_all (l : list ascii) :
  Forall (λ c, Ascii.eqb c "/" = false) l → last_element l = l.
Proof.
  induction 1 as [|c l Hc _ IH]; simpl; [done|]. by rewrite Hc, IH.
Qed.

Lemma path_Base_of (prefix name : string) :
  entryName name = true →
  prefix = "" ∨ (∃ p, prefix = p +:+ "/") →
  path_Base (prefix +:+ name) = name.
Proof.
  intros [Hne Hsf]%andb_true_iff Hprefix.
  apply negb_true_iff, String.eqb_neq in Hne.
  pose proof (slashFree_Forall name Hsf) as Hall.
  assert (Hrev : Forall (λ c, Ascii.eqb c "/" = false)
                        (rev (list_ascii_of_string name))).
  { by apply Forall_rev. }
  unfold path_Base.
  assert (Hnonempty : String.eqb (prefix +:+ name) "" = false).
  { apply String.eqb_neq. destruct prefix; simpl; [done|discriminate]. }
  rewrite Hnonempty, list_ascii_app, rev_app_distr.
  destruct (rev (list_ascii_of_string name)) as [|c l] eqn:Hl.
  { destruct name; [done|]. simpl in Hl.
    by apply app_eq_nil in Hl as [_ [=]]. }
  apply Forall_cons in Hrev as [Hc Hrest].
  assert (Hlast : last_element ((c :: l) ++ rev (list_ascii_of_string prefix))
                  = c :: l).
  { destruct Hprefix as [->|[p ->]].
    - simpl. rewrite app_nil_r, Hc. f_equal. by apply last_element_all.
    - rewrite list_ascii_app, rev_app_distr. simpl.
      rewrite Hc. f_equal. by apply last_element_app. }
  simpl strip_slashes. rewrite Hc.
  change (c :: l ++ rev (list_ascii_of_string prefix))
    with ((c :: l) ++ rev (list_ascii_of_string prefix)).
  rewrite Hlast, <- Hl, rev_involutive.
  apply string_of_list_ascii_of_string.
Qed.

Lemma path_Base_Join (dir name : string) :
  entryName name = true → path_Base (path_Join dir name) = name.
Proof.
  intros Hn. unfold path_Join.
  destruct (String.eqb_spec dir "");
    [apply (path_Base_of ""); [done|by left]|].
  destruct (String.eqb_spec dir "/").
  - apply (path_Base_of "/"); [done|]. right. by exists "".
  - rewrite append_assoc. apply path_Base_of; [done|].
    right. by exists dir.
Qed.

Lemma wellNamed_entry (name : string) (readable : bool) (files : list fsnode)
    (file : fsnode) :
  wellNamed (FsDir name readable files) = true → file ∈ files →
  entryName (node_name file) = true ∧ wellNamed file = true.
Proof.
  simpl. rewrite forallb_forall. intros H Hin.
  apply andb_true_iff, H. by apply list_elem_of_In.
Qed.

Lemma Below_name (root : fsnode) (dir : string) (k : nat) (n : fsnode)
    (path : string) :
  wellNamed root = true →
  Below root dir k n path →
  k = 0%nat ∨ path_Base path = node_name n.
Proof.
  intros Hw Hb. induction Hb as [n dir|name readable files dir file k n path
                                   Hin Hb IH]; [by left|].
  right. destruct (wellNamed_entry _ _ _ _ Hw Hin) as [Hname Hfile].
  destruct (IH Hfile) as [->|?]; [|done].
  inversion Hb; subst. by apply path_Base_Join.
Qed.

Lemma Found_Below (depth : Z) (node : fsnode) (dir : string) (level : Z)
    (f : utils.File) :
  Found depth node dir level f →
  ∃ n k, Below node dir k n (utils.Dir f)
         ∧ utils.IsProject n = true
         ∧ utils.Name f = (if (k =? 0)%nat then path_Base dir else node_name n).
Proof.
  intros [[Hp ->]|(name & files & dir' & level' & Hr
                   & file & Hfile & Hp & Hd & ->)].
  - exists node, 0%nat. split; [constructor|]. done.
  - apply Reaches_Below in Hr as (k & Hb & _).
    exists file, (S k). split; [by eapply Below_snoc|]. done.
Qed.

(** X26.  Every project is named after its directory.  In a tree whose
    entries have proper names (not empty, no slash), both versions of
    [GetAllProjects] return files whose [Name] is [path.Base] of their
    [Dir]: the starting directory gets its own base name, every other
    project the name of its directory entry. *)
Theorem discovered_names_are_base_names (root : fsnode) (dir : string)
    (f : utils.File) :
  wellNamed root = true →
  (∀ depth level log ps,
     utils.GetAllProjects root dir depth level = (log, Some ps) →
     f ∈ ps → utils.Name f = path_Base (utils.Dir f))
  ∧ (∀ level ps,
       utils0.GetAllProjects root dir level = Some ps →
       f ∈ ps → utils.Name f = path_Base (utils.Dir f)).
Proof.
  intros Hw.
  assert (H : ∀ n k, Below root dir k n (utils.Dir f) →
                utils.Name f = (if (k =? 0)%nat then path_Base dir
                                else node_name n) →
                utils.Name f = path_Base (utils.Dir f)).
  { intros n k Hb Hn. destruct (Below_name _ _ _ _ _ Hw Hb) as [->|Hbase].
    - inversion Hb; subst. simpl in Hn. congruence.
    - destruct k; [|by rewrite Hbase].
      inversion Hb; subst. simpl in Hn. congruence. }
  split.
  - intros depth level log ps Hg Hin.
    apply (GetAllProjects_Found depth root _ _ _ _ Hg) in Hin.
    apply Found_Below in Hin as (n & k & Hb & _ & Hn). by eapply H.
  - intros level ps Hg Hin.
    destruct (GetAllProjects0_sound _ _ _ _ _ Hg Hin)
      as (n & k & Hb & _ & Hn & _).
    by eapply H.
Qed.

(** X26 at the example workspace. *)
Lemma discovered_names_are_base_names_witness :
  wellNamed workspace = true
  ∧ utils.Name (utils.mkFile "app" "/ws/app")
    = path_Base (utils.Dir (utils.mkFile "app" "/ws/app")).
Proof.
  split; [reflexivity|].
  apply (proj2 (discovered_names_are_base_names workspace "/ws"
                  (utils.mkFile "app" "/ws/app") eq_refl)
           0%Z [utils.mkFile "app" "/ws/app"]).
  - reflexivity.
  - by left.
Defined.

(** ** The scanner goroutines *)

Lemma pumpWrites_fields (scanned : list (bool * string)) (c : Command) :
  Script (runner.pumpWrites scanned c) = Script c
  ∧ Args (runner.pumpWrites scanned c) = Args c
  ∧ Status (runner.pumpWrites scanned c) = Status c
  ∧ Cancelled (runner.pumpWrites scanned c) = Cancelled c.
Proof.
  revert c. induction scanned as [|[d line] rest IH]; intros c; simpl; [done|].
  destruct d; [done|]. by destruct (IH (WriteString (line +:+ newline) c))
    as (-> & -> & -> & ->).
Qed.

Lemma pump_untilDone (i j : nat) (scanned : list (bool * string)) :
  runner.pump i j scanned = map (commandOutputMessage i j) (untilDone scanned).
Proof.
  induction scanned as [|[d line] rest IH]; simpl; [done|].
  destruct d; [done|]. simpl. by rewrite IH.
Qed.

(** X27.  One scanner goroutine.  It forwards exactly the lines scanned
    before the first iteration that finds the unit's context done: each of
    them is sent as a [commandOutputMessage] with the unit's indices and
    appended, followed by a newline, to [command.Output]; nothing scanned
    after that point is sent or stored, and nothing else of the command is
    touched. *)
Theorem pump_forwards_until_done (i j : nat) (scanned : list (bool * string))
    (c : Command) :
  runner.pump i j scanned
  = map (commandOutputMessage i j) (untilDone scanned)
  ∧ Output (runner.pumpWrites scanned c)
    = Output c +:+ written (untilDone scanned)
  ∧ untilDone scanned `prefix_of` map snd scanned
  ∧ (untilDone scanned = map snd scanned
     ↔ Forall (λ s, s.1 = false) scanned)
  ∧ Script (runner.pumpWrites scanned c) = Script c
  ∧ Args (runner.pumpWrites scanned c) = Args c
  ∧ Status (runner.pumpWrites scanned c) = Status c
  ∧ Cancelled (runner.pumpWrites scanned c) = Cancelled c.
Proof.
  split; [apply pump_untilDone|].
  split; [|split; [|split; [|apply pumpWrites_fields]]].
  - revert c. induction scanned as [|[d line] rest IH]; intros c; simpl.
    + clear. induction (Output c) as [|a s IH]; [done|].
      change (String a s = String a (s +:+ "")). by f_equal.
    + destruct d; simpl.
      * clear. induction (Output c) as [|a s IH]; [done|].
        change (String a s = String a (s +:+ "")). by f_equal.
      * rewrite IH. simpl. by rewrite <- !append_assoc.
  - induction scanned as [|[d line] rest IH]; simpl; [done|].
    destruct d; [apply prefix_nil|]. by apply prefix_cons.
  - induction scanned as [|[d line] rest IH]; simpl.
    + split; [constructor|done].
    + destruct d; simpl.
      * split; [done|]. intros H. by apply Forall_cons in H as [[=] _].
      * rewrite Forall_cons. simpl. split.
        -- intros [= H]. split; [done|]. by apply IH.
        -- intros [_ H]. f_equal. by apply IH.
Qed.

(** ** Live output and the units *)

Lemma linesOf_other (i j i' j' : nat) (lines : list string) :
  (i', j') ≠ (i, j) →
  linesOf i' j' (map (commandOutputMessage i j) lines) = [].
Proof.
  intros Hne. induction lines as [|l lines IH]; simpl; [done|].
  destruct (Nat.eqb_spec i i') as [->|]; [|done].
  destruct (Nat.eqb_spec j j') as [->|]; [done|done].
Qed.

Lemma linesOf_same (i j : nat) (lines : list string) :
  linesOf i j (map (commandOutputMessage i j) lines) = lines.
Proof.
  induction lines as [|l lines IH]; simpl; [done|].
  by rewrite !Nat.eqb_refl, IH.
Qed.

Lemma linesOf_Interleave (i j : nat) (l1 l2 l : list Msg) :
  runner.Interleave l1 l2 l →
  linesOf i j l = [] ↔ linesOf i j l1 = [] ∧ linesOf i j l2 = [].
Proof.
  induction 1 as [|x l1 l2 l _ IH|x l1 l2 l _ IH]; [done|..];
    destruct x as [| | | | |i' j' output|]; simpl; try done;
    destruct ((i' =? i)%nat && (j' =? j)%nat); try done;
    split; try done; by intros [? ?].
Qed.

Lemma linesOf_Interleave_length (i j : nat) (l1 l2 l : list Msg) :
  runner.Interleave l1 l2 l →
  length (linesOf i j l)
  = (length (linesOf i j l1) + length (linesOf i j l2))%nat.
Proof.
  induction 1 as [|x l1 l2 l _ IH|x l1 l2 l _ IH]; [done|..];
    destruct x as [| | | | |i' j' output|]; simpl; try done;
    destruct ((i' =? i)%nat && (j' =? j)%nat); simpl; lia.
Qed.

Lemma Interleave_Forall {A : Type} (P : A → Prop) (l1 l2 l : list A) :
  runner.Interleave l1 l2 l → Forall P l1 → Forall P l2 → Forall P l.
Proof.
  induction 1 as [|x l1 l2 l _ IH|x l1 l2 l _ IH]; intros H1 H2; [done|..].
  - apply Forall_cons in H1 as [? ?]. constructor; auto.
  - apply Forall_cons in H2 as [? ?]. constructor; auto.
Qed.

Lemma run_outputs (msgs : list Msg) (m : model) :
  Forall (λ msg, ∃ i j line, msg = commandOutputMessage i j line) msgs →
  ∃ m' cs, run views2.Update m msgs = Some (m', cs)
           ∧ projects m' = projects m ∧ heap m' = heap m
           ∧ done m' = done m.
Proof.
  intros H. revert m. induction H as [|msg msgs (i & j & line & ->) _ IH];
    intros m.
  - by exists m, [].
  - destruct (IH (views2.onCommandOutput m i j line).1)
      as (m' & cs & Hrun & Hps & Hh & Hd).
    exists m', (stopwatchCmd :: cs). split; [|done].
    change (run views2.Update m (commandOutputMessage i j line :: msgs))
      with (match run views2.Update (views2.onCommandOutput m i j line).1 msgs
            with
            | None => None
            | Some (m'', cs) => Some (m'', stopwatchCmd :: cs)
            end).
    by rewrite Hrun.
Qed.

(** X28.  Live output stays with its unit.  Whatever the two scanner
    goroutines of unit [(i, j)] deliver is processed without a panic,
    changes no project, no unit and not the done flag, leaves the
    live-output buffer of every other unit as it was, and leaves in the
    unit's own buffer the last lines delivered, at most 50. *)
Theorem live_output_stays_with_its_unit (i j : nat)
    (out err : list (bool * string)) (msgs : list Msg) (m : model) :
  (∀ k, (length (buffer m k) ≤ 50)%nat) →
  runner.delivered runner.wiring2 i j out err msgs →
  ∃ m' cs,
    run views2.Update m msgs = Some (m', cs)
    ∧ projects m' = projects m ∧ heap m' = heap m ∧ done m' = done m
    ∧ (∀ i' j', (i', j') ≠ (i, j) →
         buffer m' (views2.outputKey i' j') = buffer m (views2.outputKey i' j'))
    ∧ (length (buffer m' (views2.outputKey i j)) ≤ 50)%nat
    ∧ length (linesOf i j msgs)
      = (length (untilDone out) + length (untilDone err))%nat.
Proof.
  intros Hcap Hd. unfold runner.delivered in Hd. simpl in Hd.
  assert (Hout : runner.pump i j out
                 = map (commandOutputMessage i j) (untilDone out))
    by apply (pump_untilDone i j out).
  assert (Herr : runner.pump i j err
                 = map (commandOutputMessage i j) (untilDone err))
    by apply (pump_untilDone i j err).
  rewrite Hout, Herr in Hd.
  assert (Hall : Forall (λ msg, ∃ i j line, msg = commandOutputMessage i j line)
                        msgs).
  { apply (Interleave_Forall _ _ _ _ Hd);
      apply Forall_forall; intros msg Hin;
      apply list_elem_of_fmap in Hin as (line & -> & _); by eexists _, _, _. }
  destruct (run_outputs msgs m Hall) as (m' & cs & Hrun & Hps & Hh & Hdone).
  exists m', cs. split; [done|]. split; [done|]. split; [done|]. split; [done|].
  pose proof (run_buffer msgs m m' cs Hcap Hrun) as Hbuf.
  split; [|split].
  - intros i' j' Hne. rewrite Hbuf, linesFor_outputKey.
    assert (Hnone : linesOf i' j' msgs = []).
    { apply (linesOf_Interleave i' j' _ _ _ Hd).
      split; by apply linesOf_other. }
    rewrite Hnone, app_nil_r. apply lastN_short, Hcap.
  - rewrite Hbuf. apply lastN_length.
  - rewrite (linesOf_Interleave_length i j _ _ _ Hd).
    by rewrite !linesOf_same.
Qed.

(** X28 for one line on each stream. *)
Lemma live_output_stays_with_its_unit_witness :
  ∃ m' cs,
    run views2.Update twoUnits
        [commandOutputMessage 0 0 "warning: package.json: No license field";
         commandOutputMessage 0 0 "Done in 2.31s."]
    = Some (m', cs)
    ∧ projects m' = projects twoUnits ∧ heap m' = heap twoUnits
    ∧ done m' = done twoUnits
    ∧ (∀ i' j', (i', j') ≠ (0, 0) →
         buffer m' (views2.outputKey i' j')
         = buffer twoUnits (views2.outputKey i' j'))
    ∧ (length (buffer m' (views2.outputKey 0 0)) ≤ 50)%nat
    ∧ length (linesOf 0 0
                [commandOutputMessage 0 0 "warning: package.json: No license field";
                 commandOutputMessage 0 0 "Done in 2.31s."])
      = (length (untilDone someStdout) + length (untilDone someStderr))%nat.
Proof.
  apply (live_output_stays_with_its_unit 0 0 someStdout someStderr).
  - intros k. unfold buffer. simpl. rewrite lookup_empty. simpl. lia.
  - unfold runner.delivered. simpl. apply runner.il_right, runner.il_left.
    constructor.
Defined.

(** ** What [Output] and [View] show *)






(** X30.  The mark in front of a project.  A project shows the cross
    exactly when one of its units failed, the check mark (and its name
    struck through) exactly when it has no failed unit and every unit is
    "finished" - so also when it has no unit at all - and the spinner
    otherwise: a project with a unit that is still running, or with a
    unit that was cancelled ("exited") and none that failed, keeps its
    spinner, also in the final output. *)
Theorem project_mark (st : render.Styles) (m : model) (i : nat)
    (proj : Project) :
  (render.hasError m proj = true
   ↔ ∃ p, p ∈ Scripts proj ∧ status_at (heap m) p = "failed")
  ∧ (render.allFinished m proj = true
     ↔ ∀ p, p ∈ Scripts proj →
            status_at (heap m) p = "failed" ∨ status_at (heap m) p = "finished")
  ∧ ((∃ p, p ∈ Scripts proj ∧ status_at (heap m) p = "failed") →
     render.spin st m i proj = render.cross st
     ∧ render.name st m proj = render.projectStyle st (Name proj))
  ∧ ((∀ p, p ∈ Scripts proj → status_at (heap m) p = "finished") →
     render.spin st m i proj = render.checkMark st
     ∧ render.name st m proj = render.projectDone st (Name proj))
  ∧ ((∃ p, p ∈ Scripts proj
           ∧ (status_at (heap m) p = "running"
              ∨ status_at (heap m) p = "exited")) →
     (∀ p, p ∈ Scripts proj → status_at (heap m) p ≠ "failed") →
     render.spin st m i proj = render.spinnerView st i
     ∧ render.name st m proj = render.projectStyle st (Name proj)).
Proof.
  assert (He : render.hasError m proj = true
               ↔ ∃ p, p ∈ Scripts proj ∧ status_at (heap m) p = "failed").
  { unfold render.hasError. rewrite Some__spec.
    split; intros (p & Hp & H); exists p; (split; [done|]);
      by apply String.eqb_eq. }
  assert (Ha : render.allFinished m proj = true
     ↔ ∀ p, p ∈ Scripts proj →
            status_at (heap m) p = "failed" ∨ status_at (heap m) p = "finished").
  { unfold render.allFinished. rewrite All_spec.
    split; intros H p Hp; specialize (H p Hp).
    - apply orb_true_iff in H as [H|H]; apply String.eqb_eq in H; auto.
    - apply orb_true_iff. destruct H as [H|H]; rewrite H; auto. }
  split; [done|]. split; [done|]. unfold render.spin, render.name.
  split; [|split].
  - intros H. apply He in H. rewrite H. split; [done|].
    by rewrite andb_false_r.
  - intros H.
    assert (Hne : render.hasError m proj = false).
    { apply not_true_is_false. intros E.
      apply He in E as (p & Hp & Hf). by rewrite (H p Hp) in Hf. }
    assert (Hall : render.allFinished m proj = true).
    { apply Ha. intros p Hp. right. by apply H. }
    by rewrite Hne, Hall.
  - intros (p & Hp & Hs) Hnf.
    assert (Hne : render.hasError m proj = false).
    { apply not_true_is_false. intros E.
      apply He in E as (q & Hq & Hf). by destruct (Hnf q Hq). }
    assert (Hall : render.allFinished m proj = false).
    { apply not_true_is_false. intros E.
      destruct (proj1 Ha E p Hp) as [H|H]; rewrite H in Hs;
        by destruct Hs. }
    by rewrite Hne, Hall.
Qed.

(** X30 for a project whose only unit was cancelled. *)
Lemma project_mark_witness :
  render.spin plainStyles exitedAndIdle 0 (mkProject "a" "/ws/a" [0])
  = render.spinnerView plainStyles 0
  ∧ render.name plainStyles exitedAndIdle (mkProject "a" "/ws/a" [0])
    = render.projectStyle plainStyles "a".
Proof.
  apply (proj2 (proj2 (proj2 (proj2
           (project_mark plainStyles exitedAndIdle 0
              (mkProject "a" "/ws/a" [0])))))).
  - exists 0. split; [by left|]. by right.
  - intros p Hp. apply list_elem_of_singleton in Hp as ->. done.
Defined.
